(** * mach-engine: the order entity and the order book

    A shallow embedding of [internal/domain/order/order.go], of the
    order book (package [orderbook]: [AddOrder], [tryMatch], [match],
    [processLevelMatch], [cleanupEmptyLevels], [CancelOrder], [GetOrder],
    [GetOrderBook], [GetBestBid], [GetBestAsk]) and of the registry of
    books by symbol (package [matching]: [Service]), with the properties
    the specification states about them and further properties of the
    code.

    Modelling conventions.
    - Prices and quantities are [float64] in the source.  There are two
      embeddings.  The modules [order64] and [orderbook64] are the source
      on binary64 floats ([PrimFloat]): addition, subtraction and the
      comparisons round and treat NaN as the source does.  The properties
      in which rounding or NaN plays a part are stated on them, in
      [Float64Props].  The modules [order], [orderbook] and [matching]
      are the same text on exact numbers ([Z]: a number of price ticks
      and of quantity lots).  What is stated on them is about the
      structure of the book (which orders and levels are written to,
      where an order is queued, what the index holds) and about the
      order of prices; it does not cover a price or a quantity that is
      NaN.
    - [time.Now()] is a parameter [now] of every operation that reads the
      clock; timestamps are integers.
    - Errors built with [fmt.Errorf] are the constructors of [error], one
      per message.
    - An [*order.Order] is an address into a heap of orders
      ([list Order], the address is the index).  The caller, the level
      queues and the [orders] map all hold addresses, so a fill made
      through one of them is seen through the others, as in the source.
    - The [Next]-linked chain of price levels is a [list PriceLevel], head
      first.  [Previous] is only ever assigned [nil] in the source and is
      not represented.
    - The loops of [match] and [processLevelMatch] have no structural
      bound; they take a fuel argument and return [None] when it runs
      out.  [BookProps.AddOrder_returns] shows that with exact
      arithmetic there is, in every reachable state, fuel enough for the
      [AddOrder] of an order that is not cancelled;
      [BookProps.processLevelMatch_spins] shows the case in which the
      loop of the source does not end, and [Float64Props] a sequence of
      admissions that leads to it on [float64].
    - The books of a [Service] share the heap of orders.  The order in
      which [Service.GetOrder] ranges over its map is not specified in
      the source; it is a parameter of the model.  Logging and the
      mutexes are not represented: every method runs alone. *)

From Stdlib Require Import ZArith Lia Bool Sorted.
From Stdlib Require PrimFloat FloatAxioms SpecFloat.
From stdpp Require Import base list gmap strings.

Local Open Scope Z_scope.

Definition Time := Z.

(** The error values of the two packages, by message. *)
Inductive error : Type :=
| ErrPriceNotPositive      (* "price must be positive" *)
| ErrQuantityNotPositive   (* "quantity must be positive" *)
| ErrFillNotPositive       (* "fill quantity must be positive" *)
| ErrFillCancelled         (* "cannot fill cancelled order" *)
| ErrFillExceeds           (* "fill amount exceeds order quantity" *)
| ErrCancelFilled          (* "cannot cancel filled order" *)
| ErrInvalidSymbol (s : string)   (* "invalid symbol: %s" *)
| ErrOrderNotFound (id : string)  (* "order not found: %s" *)
| ErrNoBids                (* "no bids available" *)
| ErrNoAsks.               (* "no asks available" *)

(** ** Package [order], on exact numbers *)
Module order.

(** [type Side string] with the constants [SideBuy] and [SideSell];
    [SideOther] stands for every other string, which [NewOrder] accepts
    and which falls through both [switch o.Side] statements of the book. *)
Inductive Side : Type := SideBuy | SideSell | SideOther.

Inductive Status : Type :=
| StatusNew | StatusFilled | StatusCancelled | StatusPartial.

#[global] Instance Side_eq_dec : EqDecision Side.
Proof. solve_decision. Defined.
#[global] Instance Status_eq_dec : EqDecision Status.
Proof. solve_decision. Defined.

Record Order : Type := mkOrder {
  ID : string;
  Side_ : Side;
  Symbol : string;
  Price : Z;
  Quantity : Z;
  Filled : Z;
  Status_ : Status;
  CreatedAt : Time;
  UpdatedAt : Time
}.

(** Field assignments [o.Filled = v], [o.Status = v], [o.UpdatedAt = v]. *)
Definition set_Filled (v : Z) (o : Order) : Order :=
  mkOrder (ID o) (Side_ o) (Symbol o) (Price o) (Quantity o) v
          (Status_ o) (CreatedAt o) (UpdatedAt o).
Definition set_Status (v : Status) (o : Order) : Order :=
  mkOrder (ID o) (Side_ o) (Symbol o) (Price o) (Quantity o) (Filled o)
          v (CreatedAt o) (UpdatedAt o).
Definition set_UpdatedAt (v : Time) (o : Order) : Order :=
  mkOrder (ID o) (Side_ o) (Symbol o) (Price o) (Quantity o) (Filled o)
          (Status_ o) (CreatedAt o) v.

(** [NewOrder]; the identifier [generateOrderID()] returns is the
    parameter [id]. *)
Definition NewOrder (id : string) (now : Time) (side : Side) (symbol : string)
    (price quantity : Z) : error + Order :=
  if price <=? 0 then inl ErrPriceNotPositive
  else if quantity <=? 0 then inl ErrQuantityNotPositive
  else inr (mkOrder id side symbol price quantity 0 StatusNew now now).

(** [Fill]: the receiver after the call, and the error returned.  The
    receiver is returned on the error paths too, because the source
    assigns [Filled] and [UpdatedAt] before its third check. *)
Definition Fill (o : Order) (quantity : Z) (now : Time) : Order * option error :=
  if quantity <=? 0 then (o, Some ErrFillNotPositive)
  else if decide (Status_ o = StatusCancelled) then (o, Some ErrFillCancelled)
  else
    let o1 := set_UpdatedAt now (set_Filled (Filled o + quantity) o) in
    if Quantity o1 <? Filled o1 then (o1, Some ErrFillExceeds)
    else if Filled o1 =? Quantity o1 then (set_Status StatusFilled o1, None)
    else (set_Status StatusPartial o1, None).

(** [Cancel]. *)
Definition Cancel (o : Order) (now : Time) : Order * option error :=
  if decide (Status_ o = StatusFilled) then (o, Some ErrCancelFilled)
  else (set_UpdatedAt now (set_Status StatusCancelled o), None).

Definition RemainingQuantity (o : Order) : Z := Quantity o - Filled o.

Definition IsActive (o : Order) : bool :=
  bool_decide (Status_ o ≠ StatusFilled) && bool_decide (Status_ o ≠ StatusCancelled).

End order.

(** ** Package [orderbook], on exact numbers *)
Module orderbook.

(** An [*order.Order]: the index of the order in the heap. *)
Definition ptr := nat.

(** The value read through an address that is not allocated.  The
    operations below only ever dereference addresses handed out by
    [NewOrder] (see [BookProps.side_valid]); the placeholder makes [deref]
    total, and a write through such an address writes nothing. *)
Definition zeroOrder : order.Order :=
  order.mkOrder EmptyString order.SideOther EmptyString 0 0 0 order.StatusNew 0 0.

Definition deref (h : list order.Order) (p : ptr) : order.Order :=
  default zeroOrder (h !! p).

(** [*p = o] *)
Definition store (h : list order.Order) (p : ptr) (o : order.Order) : list order.Order :=
  <[p := o]> h.

(** [new(Order)]: the order is placed at the next free address. *)
Definition alloc (h : list order.Order) (o : order.Order) : list order.Order * ptr :=
  (h ++ [o], length h).

Record PriceLevel : Type := mkLevel {
  Price : Z;
  Orders : list ptr
}.

Record OrderBook : Type := mkBook {
  symbol : string;
  buyLevels : list PriceLevel;
  sellLevels : list PriceLevel;
  orders : gmap string ptr
}.

(** The program state the book's methods act on: the orders in memory and
    the book that points at them. *)
Record State : Type := mkState {
  heap : list order.Order;
  book : OrderBook
}.

Definition NewOrderBook (symbol : string) : OrderBook :=
  mkBook symbol [] [] ∅.

(** *** Inserting into a side *)

(** [findOrCreateBuyLevel] and [findOrCreateSellLevel] are the same text
    up to the direction of the price comparisons.  [better a b] says that
    price [a] has priority over price [b] on the side at hand: [a > b] for
    bids, [a < b] for asks.  The result is the chain after the call and the
    position in it of the level returned. *)
Section FindOrCreate.
Variable better : Z -> Z -> bool.

(** The part after the loop: [current] is returned if it has the price,
    otherwise a new level is linked right behind it.  The position is
    counted from [current]. *)
Definition linkAfter (price : Z) (current : PriceLevel) (next : list PriceLevel)
    : list PriceLevel * nat :=
  if Price current =? price then (current :: next, 0%nat)
  else (current :: mkLevel price [] :: next, 1%nat).

(** The loop [for current.Next != nil && price < current.Next.Price
    { current = current.Next }] (for asks, [price > current.Next.Price]:
    the next level has priority over [price]) and what follows it. *)
Fixpoint walk (price : Z) (current : PriceLevel) (next : list PriceLevel)
    : list PriceLevel * nat :=
  match next with
  | n :: next' =>
      if better (Price n) price
      then let '(ls, j) := walk price n next' in (current :: ls, S j)
      else linkAfter price current next
  | [] => linkAfter price current next
  end.

Definition findOrCreateLevel (price : Z) (levels : list PriceLevel)
    : list PriceLevel * nat :=
  match levels with
  | [] => ([mkLevel price []], 0%nat)
  | top :: rest =>
      if better price (Price top) then (mkLevel price [] :: levels, 0%nat)
      else walk price top rest
  end.

(** [level := findOrCreate...(o.Price); level.Orders = append(level.Orders, o)] *)
Definition addOrderTo (price : Z) (o : ptr) (levels : list PriceLevel)
    : list PriceLevel :=
  let '(ls, i) := findOrCreateLevel price levels in
  alter (fun l => mkLevel (Price l) (Orders l ++ [o])) i ls.
End FindOrCreate.

(** bids: [price > ob.buyLevels.Price], loop on [price < current.Next.Price] *)
Definition buyBetter (a b : Z) : bool := b <? a.
(** asks: [price < ob.sellLevels.Price], loop on [price > current.Next.Price] *)
Definition sellBetter (a b : Z) : bool := a <? b.

Definition findOrCreateBuyLevel := findOrCreateLevel buyBetter.
Definition findOrCreateSellLevel := findOrCreateLevel sellBetter.

Definition addBuyOrder (h : list order.Order) (o : ptr) (levels : list PriceLevel) :=
  addOrderTo buyBetter (order.Price (deref h o)) o levels.
Definition addSellOrder (h : list order.Order) (o : ptr) (levels : list PriceLevel) :=
  addOrderTo sellBetter (order.Price (deref h o)) o levels.

(** The package's own [min]. *)
Definition min (a b : Z) : Z := if a <? b then a else b.

(** *** [tryMatch] *)

(** The inner loop, [for _, restingOrder := range matchingLevels.Orders]:
    the heap and the [orders] map after it, and the error it returned
    with, if any. *)
Fixpoint tryMatchLevel (now : Time) (o : ptr) (resting : list ptr)
    (h : list order.Order) (idx : gmap string ptr)
    : list order.Order * gmap string ptr * option error :=
  match resting with
  | [] => (h, idx, None)
  | restingOrder :: rest =>
      if decide (order.Status_ (deref h restingOrder) = order.StatusCancelled)
      then tryMatchLevel now o rest h idx
      else
        let matchQty := min (order.RemainingQuantity (deref h o))
                            (order.RemainingQuantity (deref h restingOrder)) in
        if matchQty <=? 0 then tryMatchLevel now o rest h idx
        else
          let '(o1, err1) := order.Fill (deref h o) matchQty now in
          let h1 := store h o o1 in
          match err1 with
          | Some err => (h1, idx, Some err)
          | None =>
              let '(r1, err2) := order.Fill (deref h1 restingOrder) matchQty now in
              let h2 := store h1 restingOrder r1 in
              match err2 with
              | Some err => (h2, idx, Some err)
              | None =>
                  let idx' :=
                    if decide (order.Status_ (deref h2 restingOrder) = order.StatusFilled)
                    then delete (order.ID (deref h2 restingOrder)) idx
                    else idx in
                  if decide (order.Status_ (deref h2 o) = order.StatusFilled)
                  then (h2, idx', None)
                  else tryMatchLevel now o rest h2 idx'
              end
          end
  end.

(** The outer loop, [for matchingLevels != nil && o.Status != StatusFilled]. *)
Fixpoint tryMatchLevels (now : Time) (o : ptr) (isAggressive : bool)
    (matchingLevels : list PriceLevel)
    (h : list order.Order) (idx : gmap string ptr)
    : list order.Order * gmap string ptr * option error :=
  match matchingLevels with
  | [] => (h, idx, None)
  | level :: next =>
      if decide (order.Status_ (deref h o) = order.StatusFilled) then (h, idx, None)
      else if (isAggressive && (order.Price (deref h o) <? Price level))
              || (negb isAggressive && (Price level <? order.Price (deref h o)))
      then (h, idx, None)
      else
        match tryMatchLevel now o (Orders level) h idx with
        | (h', idx', Some err) => (h', idx', Some err)
        | (h', idx', None) => tryMatchLevels now o isAggressive next h' idx'
        end
  end.

Definition set_orders (idx : gmap string ptr) (ob : OrderBook) : OrderBook :=
  mkBook (symbol ob) (buyLevels ob) (sellLevels ob) idx.
Definition set_buyLevels (ls : list PriceLevel) (ob : OrderBook) : OrderBook :=
  mkBook (symbol ob) ls (sellLevels ob) (orders ob).
Definition set_sellLevels (ls : list PriceLevel) (ob : OrderBook) : OrderBook :=
  mkBook (symbol ob) (buyLevels ob) ls (orders ob).

Definition tryMatch (now : Time) (st : State) (o : ptr) : State * option error :=
  let ob := book st in
  let '(matchingLevels, isAggressive) :=
    match order.Side_ (deref (heap st) o) with
    | order.SideBuy => (sellLevels ob, true)
    | order.SideSell => (buyLevels ob, false)
    | order.SideOther => ([], false)
    end in
  let '(h, idx, err) :=
    tryMatchLevels now o isAggressive matchingLevels (heap st) (orders ob) in
  (mkState h (set_orders idx ob), err).

(** *** [match] *)

(** [processLevelMatch] on the queues of the two levels it is given: the
    two queues and the heap when the loop ends.  The results of both
    [Fill] calls are dropped, as in the source; what [Fill] did to the
    receiver is kept. *)
Fixpoint processLevelMatch (fuel : nat) (now : Time)
    (buyOrders sellOrders : list ptr) (h : list order.Order)
    : option (list ptr * list ptr * list order.Order) :=
  match buyOrders, sellOrders with
  | buy :: buyTail, sell :: sellTail =>
      match fuel with
      | O => None
      | S fuel' =>
          let matchQty := min (order.RemainingQuantity (deref h buy))
                              (order.RemainingQuantity (deref h sell)) in
          let h1 := store h buy (fst (order.Fill (deref h buy) matchQty now)) in
          let h2 := store h1 sell (fst (order.Fill (deref h1 sell) matchQty now)) in
          let buyOrders' :=
            if decide (order.Status_ (deref h2 buy) = order.StatusFilled)
            then buyTail else buyOrders in
          let sellOrders' :=
            if decide (order.Status_ (deref h2 sell) = order.StatusFilled)
            then sellTail else sellOrders in
          processLevelMatch fuel' now buyOrders' sellOrders' h2
      end
  | _, _ => Some (buyOrders, sellOrders, h)
  end.

(** One of the two loops of [cleanupEmptyLevels]:
    [for levels != nil && len(levels.Orders) == 0 { levels = levels.Next }]. *)
Fixpoint dropEmptyLevels (levels : list PriceLevel) : list PriceLevel :=
  match levels with
  | level :: next =>
      match Orders level with
      | [] => dropEmptyLevels next
      | _ :: _ => levels
      end
  | [] => []
  end.

Definition cleanupEmptyLevels (ob : OrderBook) : OrderBook :=
  mkBook (symbol ob) (dropEmptyLevels (buyLevels ob))
         (dropEmptyLevels (sellLevels ob)) (orders ob).

(** [match], named [match_] because [match] is a keyword here. *)
Fixpoint match_ (fuel : nat) (now : Time) (st : State) : option State :=
  match buyLevels (book st), sellLevels (book st) with
  | bestBuy :: buyNext, bestSell :: sellNext =>
      if Price bestBuy <? Price bestSell then Some st
      else
        match fuel with
        | O => None
        | S fuel' =>
            match processLevelMatch fuel' now (Orders bestBuy) (Orders bestSell)
                                    (heap st) with
            | None => None
            | Some (buyOrders, sellOrders, h) =>
                let ob :=
                  mkBook (symbol (book st))
                         (mkLevel (Price bestBuy) buyOrders :: buyNext)
                         (mkLevel (Price bestSell) sellOrders :: sellNext)
                         (orders (book st)) in
                match_ fuel' now (mkState h (cleanupEmptyLevels ob))
            end
        end
  | _, _ => Some st
  end.

(** *** The exported methods *)

(** The block of [AddOrder] after [tryMatch]:
    [if o.Status != StatusFilled { switch o.Side {...}; ob.orders[o.ID] = o }]. *)
Definition addToBook (st : State) (o : ptr) : State :=
  if decide (order.Status_ (deref (heap st) o) ≠ order.StatusFilled) then
    let ob := book st in
    let ob' :=
      match order.Side_ (deref (heap st) o) with
      | order.SideBuy => set_buyLevels (addBuyOrder (heap st) o (buyLevels ob)) ob
      | order.SideSell => set_sellLevels (addSellOrder (heap st) o (sellLevels ob)) ob
      | order.SideOther => ob
      end in
    mkState (heap st)
            (set_orders (<[order.ID (deref (heap st) o) := o]> (orders ob')) ob')
  else st.

(** [AddOrder]: [None] when the fuel does not suffice for [match];
    otherwise the state when the call returns and the error returned. *)
Definition AddOrder (fuel : nat) (now : Time) (st : State) (o : ptr)
    : option (State * option error) :=
  if decide (order.Symbol (deref (heap st) o) ≠ symbol (book st))
  then Some (st, Some (ErrInvalidSymbol (order.Symbol (deref (heap st) o))))
  else
    match tryMatch now st o with
    | (st1, Some err) => Some (st1, Some err)
    | (st1, None) =>
        match match_ fuel now (addToBook st1 o) with
        | Some st3 => Some (st3, None)
        | None => None
        end
    end.

(** [findOrder]: the first order with the identifier, level by level. *)
Fixpoint findOrder (h : list order.Order) (level : list PriceLevel)
    (orderID : string) : option ptr :=
  match level with
  | [] => None
  | l :: next =>
      match List.find (fun o => bool_decide (order.ID (deref h o) = orderID)) (Orders l) with
      | Some o => Some o
      | None => findOrder h next orderID
      end
  end.

Definition GetOrder (st : State) (orderID : string) : error + ptr :=
  match findOrder (heap st) (buyLevels (book st)) orderID with
  | Some o => inr o
  | None =>
      match findOrder (heap st) (sellLevels (book st)) orderID with
      | Some o => inr o
      | None => inl (ErrOrderNotFound orderID)
      end
  end.

Definition CancelOrder (now : Time) (st : State) (orderID : string)
    : State * option error :=
  match orders (book st) !! orderID with
  | None => (st, Some (ErrOrderNotFound orderID))
  | Some o =>
      let '(o1, err) := order.Cancel (deref (heap st) o) now in
      let h1 := store (heap st) o o1 in
      match err with
      | Some e => (mkState h1 (book st), Some e)
      | None => (mkState h1 (set_orders (delete orderID (orders (book st))) (book st)), None)
      end
  end.

(** [totalQty += o.RemainingQuantity()] over the orders of a level. *)
Definition totalRemaining (h : list order.Order) (os : list ptr) : Z :=
  foldl (fun totalQty o => totalQty + order.RemainingQuantity (deref h o)) 0 os.

Definition bestOf (noLiquidity : error) (h : list order.Order)
    (levels : list PriceLevel) : error + (Z * Z) :=
  match levels with
  | [] => inl noLiquidity
  | level :: _ =>
      match Orders level with
      | [] => inl noLiquidity
      | _ :: _ => inr (Price level, totalRemaining h (Orders level))
      end
  end.

Definition GetBestBid (st : State) : error + (Z * Z) :=
  bestOf ErrNoBids (heap st) (buyLevels (book st)).
Definition GetBestAsk (st : State) : error + (Z * Z) :=
  bestOf ErrNoAsks (heap st) (sellLevels (book st)).

(** [OrderBookSnapshot] and [GetOrderBook]: the levels of each side are
    copied into a slice, head first. *)
Record OrderBookSnapshot : Type := mkSnapshot {
  Symbol : string;
  Bids : list PriceLevel;
  Asks : list PriceLevel
}.

Definition GetOrderBook (st : State) : OrderBookSnapshot :=
  mkSnapshot (symbol (book st)) (buyLevels (book st)) (sellLevels (book st)).

(** *** Callers *)

(** What a caller of the package can do: create an order with [NewOrder],
    hand an order it holds to [AddOrder], cancel by identifier. *)
Inductive Op : Type :=
| OpNewOrder (id : string) (side : order.Side) (symbol : string) (price quantity : Z)
| OpAddOrder (o : ptr)
| OpCancelOrder (orderID : string).

(** One call.  [None] when [AddOrder] does not return within the fuel, or
    when the caller passes an address it was never given. *)
Definition exec (fuel : nat) (now : Time) (st : State) (op : Op) : option State :=
  match op with
  | OpNewOrder id side sym price quantity =>
      match order.NewOrder id now side sym price quantity with
      | inl _ => Some st
      | inr o => Some (mkState (fst (alloc (heap st) o)) (book st))
      end
  | OpAddOrder o =>
      if decide (o < length (heap st))%nat
      then fst <$> AddOrder fuel now st o
      else None
  | OpCancelOrder orderID => Some (fst (CancelOrder now st orderID))
  end.

(** A sequence of calls, each with the time it is made at. *)
Fixpoint run (fuel : nat) (st : State) (ops : list (Time * Op)) : option State :=
  match ops with
  | [] => Some st
  | (now, op) :: ops' =>
      match exec fuel now st op with
      | Some st' => run fuel st' ops'
      | None => None
      end
  end.

Definition init (symbol : string) : State := mkState [] (NewOrderBook symbol).

(** The states a caller can bring a new book to. *)
Inductive reachable : State -> Prop :=
| reachable_init symbol : reachable (init symbol)
| reachable_step st fuel now op st' :
    reachable st -> exec fuel now st op = Some st' -> reachable st'.

End orderbook.

(** ** Package [matching] *)
Module matching.
Import orderbook.

(** The error values [Service] returns, by message: its own "symbol not
    found: %s", and the messages of the two packages above, among them
    "order not found: %s", which [Service.GetOrder] produces itself. *)
Inductive service_error : Type :=
| ErrSymbolNotFound (symbol : string)
| ErrOf (e : error).

(** [Service]: the map from symbol to order book.  The orders of all
    books live in one heap. *)
Record ServiceState : Type := mkService {
  memory : list order.Order;
  books : gmap string OrderBook
}.

Definition NewService : ServiceState := mkService [] ∅.

(** [Service.AddOrder]: the book of the order's symbol is looked up, and
    created and stored if there is none; the order is handed to it.
    [None] when the book's [AddOrder] does not return within the fuel. *)
Definition AddOrder (fuel : nat) (now : Time) (s : ServiceState) (o : ptr)
    : option (ServiceState * option error) :=
  let sym := order.Symbol (deref (memory s) o) in
  let book :=
    match books s !! sym with
    | Some book => book
    | None => NewOrderBook sym
    end in
  match orderbook.AddOrder fuel now (mkState (memory s) book) o with
  | Some (st, err) => Some (mkService (heap st) (<[sym := orderbook.book st]> (books s)), err)
  | None => None
  end.

(** [Service.CancelOrder]. *)
Definition CancelOrder (now : Time) (s : ServiceState) (symbol orderID : string)
    : ServiceState * option service_error :=
  match books s !! symbol with
  | None => (s, Some (ErrSymbolNotFound symbol))
  | Some book =>
      let '(st, err) := orderbook.CancelOrder now (mkState (memory s) book) orderID in
      (mkService (heap st) (<[symbol := orderbook.book st]> (books s)), ErrOf <$> err)
  end.

(** The loop of [Service.GetOrder], [for symbol, book := range s.books]:
    the first book in which [GetOrder] finds the id ends it.  The order in
    which a [range] visits a map is not specified, so the books come in
    the order [visit], which is any arrangement of the entries of the
    map. *)
Fixpoint firstFound (h : list order.Order) (visit : list (string * OrderBook))
    (orderID : string) : option ptr :=
  match visit with
  | [] => None
  | (_, book) :: rest =>
      match orderbook.GetOrder (mkState h book) orderID with
      | inr o => Some o
      | inl _ => firstFound h rest orderID
      end
  end.

Definition GetOrder (visit : list (string * OrderBook)) (s : ServiceState)
    (orderID : string) : error + ptr :=
  match firstFound (memory s) visit orderID with
  | Some o => inr o
  | None => inl (ErrOrderNotFound orderID)
  end.

(** [Service.GetOrderBook]. *)
Definition GetOrderBook (s : ServiceState) (symbol : string)
    : service_error + OrderBookSnapshot :=
  match books s !! symbol with
  | None => inl (ErrSymbolNotFound symbol)
  | Some book => inr (orderbook.GetOrderBook (mkState (memory s) book))
  end.

(** What a caller of the service can do. *)
Inductive Op : Type :=
| OpNewOrder (id : string) (side : order.Side) (symbol : string) (price quantity : Z)
| OpAddOrder (o : ptr)
| OpCancelOrder (symbol orderID : string).

Definition exec (fuel : nat) (now : Time) (s : ServiceState) (op : Op)
    : option ServiceState :=
  match op with
  | OpNewOrder id side sym price quantity =>
      match order.NewOrder id now side sym price quantity with
      | inl _ => Some s
      | inr o => Some (mkService (fst (alloc (memory s) o)) (books s))
      end
  | OpAddOrder o =>
      if decide (o < length (memory s))%nat
      then fst <$> AddOrder fuel now s o
      else None
  | OpCancelOrder symbol orderID => Some (fst (CancelOrder now s symbol orderID))
  end.

(** A sequence of calls, each with the time it is made at. *)
Fixpoint run (fuel : nat) (s : ServiceState) (ops : list (Time * Op))
    : option ServiceState :=
  match ops with
  | [] => Some s
  | (now, op) :: ops' =>
      match exec fuel now s op with
      | Some s' => run fuel s' ops'
      | None => None
      end
  end.

(** The states a caller can bring a new service to. *)
Inductive reachable : ServiceState -> Prop :=
| reachable_init : reachable NewService
| reachable_step s fuel now op s' :
    reachable s -> exec fuel now s op = Some s' -> reachable s'.

End matching.

(** ** Packages [order] and [orderbook] on [float64]

    The same program text as [order] and [orderbook] above, with the
    fields [Price], [Quantity] and [Filled] and every local of those types
    in binary64 floating point, as in the source: [+], [-], [<], [<=] and
    [==] are the IEEE 754 operations of Rocq's primitive floats, round to
    nearest even, and a decimal literal denotes the nearest binary64
    value, as it does when Go parses it.  Sides, statuses, errors, the
    heap, the level chains and the [orders] map are as above. *)
Module order64.
Import PrimFloat.
Local Open Scope float_scope.

Record Order : Type := mkOrder {
  ID : string;
  Side_ : order.Side;
  Symbol : string;
  Price : float;
  Quantity : float;
  Filled : float;
  Status_ : order.Status;
  CreatedAt : Time;
  UpdatedAt : Time
}.

Definition set_Filled (v : float) (o : Order) : Order :=
  mkOrder (ID o) (Side_ o) (Symbol o) (Price o) (Quantity o) v
          (Status_ o) (CreatedAt o) (UpdatedAt o).
Definition set_Status (v : order.Status) (o : Order) : Order :=
  mkOrder (ID o) (Side_ o) (Symbol o) (Price o) (Quantity o) (Filled o)
          v (CreatedAt o) (UpdatedAt o).
Definition set_UpdatedAt (v : Time) (o : Order) : Order :=
  mkOrder (ID o) (Side_ o) (Symbol o) (Price o) (Quantity o) (Filled o)
          (Status_ o) (CreatedAt o) v.

(** [NewOrder]: [price <= 0] and [quantity <= 0] are float comparisons. *)
Definition NewOrder (id : string) (now : Time) (side : order.Side) (symbol : string)
    (price quantity : float) : error + Order :=
  if price <=? 0 then inl ErrPriceNotPositive
  else if quantity <=? 0 then inl ErrQuantityNotPositive
  else inr (mkOrder id side symbol price quantity 0 order.StatusNew now now).

(** [Fill]: [o.Filled += quantity] rounds; [o.Filled > o.Quantity] and
    [o.Filled == o.Quantity] compare the rounded sum. *)
Definition Fill (o : Order) (quantity : float) (now : Time) : Order * option error :=
  if quantity <=? 0 then (o, Some ErrFillNotPositive)
  else if decide (Status_ o = order.StatusCancelled) then (o, Some ErrFillCancelled)
  else
    let o1 := set_UpdatedAt now (set_Filled (Filled o + quantity) o) in
    if Quantity o1 <? Filled o1 then (o1, Some ErrFillExceeds)
    else if Filled o1 =? Quantity o1 then (set_Status order.StatusFilled o1, None)
    else (set_Status order.StatusPartial o1, None).

Definition Cancel (o : Order) (now : Time) : Order * option error :=
  if decide (Status_ o = order.StatusFilled) then (o, Some ErrCancelFilled)
  else (set_UpdatedAt now (set_Status order.StatusCancelled o), None).

(** [o.Quantity - o.Filled], rounded. *)
Definition RemainingQuantity (o : Order) : float := Quantity o - Filled o.

Definition IsActive (o : Order) : bool :=
  bool_decide (Status_ o ≠ order.StatusFilled)
  && bool_decide (Status_ o ≠ order.StatusCancelled).

End order64.

Module orderbook64.
Import PrimFloat.
Local Open Scope float_scope.

Definition ptr := nat.

Definition zeroOrder : order64.Order :=
  order64.mkOrder EmptyString order.SideOther EmptyString 0 0 0 order.StatusNew 0%Z 0%Z.

Definition deref (h : list order64.Order) (p : ptr) : order64.Order :=
  default zeroOrder (h !! p).

Definition store (h : list order64.Order) (p : ptr) (o : order64.Order)
    : list order64.Order :=
  <[p := o]> h.

Definition alloc (h : list order64.Order) (o : order64.Order)
    : list order64.Order * ptr :=
  (h ++ [o], length h).

Record PriceLevel : Type := mkLevel {
  Price : float;
  Orders : list ptr
}.

Record OrderBook : Type := mkBook {
  symbol : string;
  buyLevels : list PriceLevel;
  sellLevels : list PriceLevel;
  orders : gmap string ptr
}.

Record State : Type := mkState {
  heap : list order64.Order;
  book : OrderBook
}.

Definition NewOrderBook (symbol : string) : OrderBook :=
  mkBook symbol [] [] ∅.

Section FindOrCreate.
Variable better : float -> float -> bool.

(** [if current.Price == price { return current }], else a new level is
    linked behind [current]. *)
Definition linkAfter (price : float) (current : PriceLevel) (next : list PriceLevel)
    : list PriceLevel * nat :=
  if Price current =? price then (current :: next, 0%nat)
  else (current :: mkLevel price [] :: next, 1%nat).

Fixpoint walk (price : float) (current : PriceLevel) (next : list PriceLevel)
    : list PriceLevel * nat :=
  match next with
  | n :: next' =>
      if better (Price n) price
      then let '(ls, j) := walk price n next' in (current :: ls, S j)
      else linkAfter price current next
  | [] => linkAfter price current next
  end.

Definition findOrCreateLevel (price : float) (levels : list PriceLevel)
    : list PriceLevel * nat :=
  match levels with
  | [] => ([mkLevel price []], 0%nat)
  | top :: rest =>
      if better price (Price top) then (mkLevel price [] :: levels, 0%nat)
      else walk price top rest
  end.

Definition addOrderTo (price : float) (o : ptr) (levels : list PriceLevel)
    : list PriceLevel :=
  let '(ls, i) := findOrCreateLevel price levels in
  alter (fun l => mkLevel (Price l) (Orders l ++ [o])) i ls.
End FindOrCreate.

(** bids: [price > ob.buyLevels.Price], loop on [price < current.Next.Price] *)
Definition buyBetter (a b : float) : bool := b <? a.
(** asks: [price < ob.sellLevels.Price], loop on [price > current.Next.Price] *)
Definition sellBetter (a b : float) : bool := a <? b.

Definition findOrCreateBuyLevel := findOrCreateLevel buyBetter.
Definition findOrCreateSellLevel := findOrCreateLevel sellBetter.

Definition addBuyOrder (h : list order64.Order) (o : ptr) (levels : list PriceLevel) :=
  addOrderTo buyBetter (order64.Price (deref h o)) o levels.
Definition addSellOrder (h : list order64.Order) (o : ptr) (levels : list PriceLevel) :=
  addOrderTo sellBetter (order64.Price (deref h o)) o levels.

(** The package's own [min]. *)
Definition min (a b : float) : float := if a <? b then a else b.

Fixpoint tryMatchLevel (now : Time) (o : ptr) (resting : list ptr)
    (h : list order64.Order) (idx : gmap string ptr)
    : list order64.Order * gmap string ptr * option error :=
  match resting with
  | [] => (h, idx, None)
  | restingOrder :: rest =>
      if decide (order64.Status_ (deref h restingOrder) = order.StatusCancelled)
      then tryMatchLevel now o rest h idx
      else
        let matchQty := min (order64.RemainingQuantity (deref h o))
                            (order64.RemainingQuantity (deref h restingOrder)) in
        if matchQty <=? 0 then tryMatchLevel now o rest h idx
        else
          let '(o1, err1) := order64.Fill (deref h o) matchQty now in
          let h1 := store h o o1 in
          match err1 with
          | Some err => (h1, idx, Some err)
          | None =>
              let '(r1, err2) := order64.Fill (deref h1 restingOrder) matchQty now in
              let h2 := store h1 restingOrder r1 in
              match err2 with
              | Some err => (h2, idx, Some err)
              | None =>
                  let idx' :=
                    if decide (order64.Status_ (deref h2 restingOrder) = order.StatusFilled)
                    then delete (order64.ID (deref h2 restingOrder)) idx
                    else idx in
                  if decide (order64.Status_ (deref h2 o) = order.StatusFilled)
                  then (h2, idx', None)
                  else tryMatchLevel now o rest h2 idx'
              end
          end
  end.

Fixpoint tryMatchLevels (now : Time) (o : ptr) (isAggressive : bool)
    (matchingLevels : list PriceLevel)
    (h : list order64.Order) (idx : gmap string ptr)
    : list order64.Order * gmap string ptr * option error :=
  match matchingLevels with
  | [] => (h, idx, None)
  | level :: next =>
      if decide (order64.Status_ (deref h o) = order.StatusFilled) then (h, idx, None)
      else if (isAggressive && (order64.Price (deref h o) <? Price level))
              || (negb isAggressive && (Price level <? order64.Price (deref h o)))
      then (h, idx, None)
      else
        match tryMatchLevel now o (Orders level) h idx with
        | (h', idx', Some err) => (h', idx', Some err)
        | (h', idx', None) => tryMatchLevels now o isAggressive next h' idx'
        end
  end.

Definition set_orders (idx : gmap string ptr) (ob : OrderBook) : OrderBook :=
  mkBook (symbol ob) (buyLevels ob) (sellLevels ob) idx.
Definition set_buyLevels (ls : list PriceLevel) (ob : OrderBook) : OrderBook :=
  mkBook (symbol ob) ls (sellLevels ob) (orders ob).
Definition set_sellLevels (ls : list PriceLevel) (ob : OrderBook) : OrderBook :=
  mkBook (symbol ob) (buyLevels ob) ls (orders ob).

Definition tryMatch (now : Time) (st : State) (o : ptr) : State * option error :=
  let ob := book st in
  let '(matchingLevels, isAggressive) :=
    match order64.Side_ (deref (heap st) o) with
    | order.SideBuy => (sellLevels ob, true)
    | order.SideSell => (buyLevels ob, false)
    | order.SideOther => ([], false)
    end in
  let '(h, idx, err) :=
    tryMatchLevels now o isAggressive matchingLevels (heap st) (orders ob) in
  (mkState h (set_orders idx ob), err).

Fixpoint processLevelMatch (fuel : nat) (now : Time)
    (buyOrders sellOrders : list ptr) (h : list order64.Order)
    : option (list ptr * list ptr * list order64.Order) :=
  match buyOrders, sellOrders with
  | buy :: buyTail, sell :: sellTail =>
      match fuel with
      | O => None
      | S fuel' =>
          let matchQty := min (order64.RemainingQuantity (deref h buy))
                              (order64.RemainingQuantity (deref h sell)) in
          let h1 := store h buy (fst (order64.Fill (deref h buy) matchQty now)) in
          let h2 := store h1 sell (fst (order64.Fill (deref h1 sell) matchQty now)) in
          let buyOrders' :=
            if decide (order64.Status_ (deref h2 buy) = order.StatusFilled)
            then buyTail else buyOrders in
          let sellOrders' :=
            if decide (order64.Status_ (deref h2 sell) = order.StatusFilled)
            then sellTail else sellOrders in
          processLevelMatch fuel' now buyOrders' sellOrders' h2
      end
  | _, _ => Some (buyOrders, sellOrders, h)
  end.

Fixpoint dropEmptyLevels (levels : list PriceLevel) : list PriceLevel :=
  match levels with
  | level :: next =>
      match Orders level with
      | [] => dropEmptyLevels next
      | _ :: _ => levels
      end
  | [] => []
  end.

Definition cleanupEmptyLevels (ob : OrderBook) : OrderBook :=
  mkBook (symbol ob) (dropEmptyLevels (buyLevels ob))
         (dropEmptyLevels (sellLevels ob)) (orders ob).

Fixpoint match_ (fuel : nat) (now : Time) (st : State) : option State :=
  match buyLevels (book st), sellLevels (book st) with
  | bestBuy :: buyNext, bestSell :: sellNext =>
      if Price bestBuy <? Price bestSell then Some st
      else
        match fuel with
        | O => None
        | S fuel' =>
            match processLevelMatch fuel' now (Orders bestBuy) (Orders bestSell)
                                    (heap st) with
            | None => None
            | Some (buyOrders, sellOrders, h) =>
                let ob :=
                  mkBook (symbol (book st))
                         (mkLevel (Price bestBuy) buyOrders :: buyNext)
                         (mkLevel (Price bestSell) sellOrders :: sellNext)
                         (orders (book st)) in
                match_ fuel' now (mkState h (cleanupEmptyLevels ob))
            end
        end
  | _, _ => Some st
  end.

Definition addToBook (st : State) (o : ptr) : State :=
  if decide (order64.Status_ (deref (heap st) o) ≠ order.StatusFilled) then
    let ob := book st in
    let ob' :=
      match order64.Side_ (deref (heap st) o) with
      | order.SideBuy => set_buyLevels (addBuyOrder (heap st) o (buyLevels ob)) ob
      | order.SideSell => set_sellLevels (addSellOrder (heap st) o (sellLevels ob)) ob
      | order.SideOther => ob
      end in
    mkState (heap st)
            (set_orders (<[order64.ID (deref (heap st) o) := o]> (orders ob')) ob')
  else st.

Definition AddOrder (fuel : nat) (now : Time) (st : State) (o : ptr)
    : option (State * option error) :=
  if decide (order64.Symbol (deref (heap st) o) ≠ symbol (book st))
  then Some (st, Some (ErrInvalidSymbol (order64.Symbol (deref (heap st) o))))
  else
    match tryMatch now st o with
    | (st1, Some err) => Some (st1, Some err)
    | (st1, None) =>
        match match_ fuel now (addToBook st1 o) with
        | Some st3 => Some (st3, None)
        | None => None
        end
    end.

Definition CancelOrder (now : Time) (st : State) (orderID : string)
    : State * option error :=
  match orders (book st) !! orderID with
  | None => (st, Some (ErrOrderNotFound orderID))
  | Some o =>
      let '(o1, err) := order64.Cancel (deref (heap st) o) now in
      let h1 := store (heap st) o o1 in
      match err with
      | Some e => (mkState h1 (book st), Some e)
      | None => (mkState h1 (set_orders (delete orderID (orders (book st))) (book st)), None)
      end
  end.

(** [totalQty += o.RemainingQuantity()], a float sum of float remainders. *)
Definition totalRemaining (h : list order64.Order) (os : list ptr) : float :=
  foldl (fun totalQty o => totalQty + order64.RemainingQuantity (deref h o)) 0 os.

Definition bestOf (noLiquidity : error) (h : list order64.Order)
    (levels : list PriceLevel) : error + (float * float) :=
  match levels with
  | [] => inl noLiquidity
  | level :: _ =>
      match Orders level with
      | [] => inl noLiquidity
      | _ :: _ => inr (Price level, totalRemaining h (Orders level))
      end
  end.

Definition GetBestBid (st : State) : error + (float * float) :=
  bestOf ErrNoBids (heap st) (buyLevels (book st)).
Definition GetBestAsk (st : State) : error + (float * float) :=
  bestOf ErrNoAsks (heap st) (sellLevels (book st)).

Inductive Op : Type :=
| OpNewOrder (id : string) (side : order.Side) (symbol : string) (price quantity : float)
| OpAddOrder (o : ptr)
| OpCancelOrder (orderID : string).

Definition exec (fuel : nat) (now : Time) (st : State) (op : Op) : option State :=
  match op with
  | OpNewOrder id side sym price quantity =>
      match order64.NewOrder id now side sym price quantity with
      | inl _ => Some st
      | inr o => Some (mkState (fst (alloc (heap st) o)) (book st))
      end
  | OpAddOrder o =>
      if decide (o < length (heap st))%nat
      then fst <$> AddOrder fuel now st o
      else None
  | OpCancelOrder orderID => Some (fst (CancelOrder now st orderID))
  end.

Fixpoint run (fuel : nat) (st : State) (ops : list (Time * Op)) : option State :=
  match ops with
  | [] => Some st
  | (now, op) :: ops' =>
      match exec fuel now st op with
      | Some st' => run fuel st' ops'
      | None => None
      end
  end.

Definition init (symbol : string) : State := mkState [] (NewOrderBook symbol).

Inductive reachable : State -> Prop :=
| reachable_init symbol : reachable (init symbol)
| reachable_step st fuel now op st' :
    reachable st -> exec fuel now st op = Some st' -> reachable st'.

End orderbook64.

(** ** Example traces *)
Module Scenarios.
Import orderbook.

Definition btc : string := "BTC-USD".

Definition newBuy (id : string) (price quantity : Z) : Op :=
  OpNewOrder id order.SideBuy btc price quantity.
Definition newSell (id : string) (price quantity : Z) : Op :=
  OpNewOrder id order.SideSell btc price quantity.

(** The state a trace of calls brings a new book to; [init btc] again if
    some call of the trace does not return. *)
Definition after (ops : list (Time * Op)) : State :=
  default (init btc) (run 16 (init btc) ops).

(** Buy 2@50000 rests, then Sell 1@50000 is admitted. *)
Definition partial_fill : list (Time * Op) :=
  [ (1, newBuy "A" 50000 2); (2, OpAddOrder 0%nat);
    (3, newSell "B" 50000 1); (4, OpAddOrder 1%nat) ].

(** Sell 1@50100 rests, then Buy 1@50000 rests. *)
Definition no_match : list (Time * Op) :=
  [ (1, newSell "A" 50100 1); (2, OpAddOrder 0%nat);
    (3, newBuy "B" 50000 1); (4, OpAddOrder 1%nat) ].

(** Buy 1@50000 rests. *)
Definition one_bid : list (Time * Op) :=
  [ (1, newBuy "A" 50000 1); (2, OpAddOrder 0%nat) ].

(** Buy 1@50000 rests and is cancelled by its id. *)
Definition cancel_resting : list (Time * Op) :=
  one_bid ++ [ (3, OpCancelOrder "A") ].

(** Buy 1@50000 rests, then Sell 1@50000 is admitted and fills it exactly. *)
Definition exact_fill : list (Time * Op) :=
  one_bid ++ [ (3, newSell "B" 50000 1); (4, OpAddOrder 1%nat) ].

(** A sell order admitted after the bid it would cross was cancelled. *)
Definition sell_after_cancel : list (Time * Op) :=
  [ (4, newSell "B" 50000 1); (5, OpAddOrder 1%nat) ].

(** Buy X 1@50100, then Buy A 1@50000 and Buy B 1@50000 in this order. *)
Definition two_behind_best : list (Time * Op) :=
  [ (1, newBuy "X" 50100 1); (2, OpAddOrder 0%nat);
    (3, newBuy "A" 50000 1); (4, OpAddOrder 1%nat);
    (5, newBuy "B" 50000 1); (6, OpAddOrder 2%nat) ].

(** ... then Sell S 2@50000. *)
Definition sell_two : list (Time * Op) :=
  [ (7, newSell "S" 50000 2); (8, OpAddOrder 3%nat) ].

(** The sum of [Filled] over the orders of one side. *)
Definition totalFilled (side : order.Side) (h : list order.Order) : Z :=
  foldr (fun o acc => if decide (order.Side_ o = side) then order.Filled o + acc else acc) 0 h.

End Scenarios.

(** ** More example traces *)
Module MoreScenarios.
Import orderbook Scenarios.

(** Sell C 3@50200 and Buy D 2@50200 are admitted one after the other, at
    addresses 2 and 3. *)
Definition two_more : list (Time * Op) :=
  [ (10, newSell "C" 50200 3); (11, OpAddOrder 2%nat);
    (12, newBuy "D" 50200 2); (13, OpAddOrder 3%nat) ].

(** An order for another symbol is created on top of [one_bid], at
    address 1. *)
Definition other_symbol : list (Time * Op) :=
  one_bid ++ [ (3, OpNewOrder "E" order.SideBuy "ETH-USD" 3000 1) ].

(** A second bid, Buy B 1@49000, is created on top of [one_bid] at
    address 1, and then admitted. *)
Definition second_bid_created : list (Time * Op) :=
  one_bid ++ [ (5, newBuy "B" 49000 1) ].
Definition second_bid : list (Time * Op) :=
  second_bid_created ++ [ (6, OpAddOrder 1%nat) ].

(** Sell A 1@50000 and Sell B 1@50000 rest in one level, at addresses 0
    and 1; Buy C 2@50000 is created at address 2. *)
Definition two_asks : list (Time * Op) :=
  [ (1, newSell "A" 50000 1); (2, OpAddOrder 0%nat);
    (3, newSell "B" 50000 1); (4, OpAddOrder 1%nat);
    (5, newBuy "C" 50000 2) ].

(** Buy A 1@50000 rests and Sell B 1@50000 is created; the holders of the
    two orders then call [Cancel] on them, not [CancelOrder] on the book,
    and B is handed to [AddOrder].  [stuck] is the state in which
    [AddOrder] calls [match]: [tryMatch] has skipped A, and B has been put
    in the ask level. *)
Definition both_cancelled : State :=
  let st := after (one_bid ++ [ (3, newSell "B" 50000 1) ]) in
  let h1 := store (heap st) 0%nat (fst (order.Cancel (deref (heap st) 0%nat) 4)) in
  let h2 := store h1 1%nat (fst (order.Cancel (deref h1 1%nat) 5)) in
  mkState h2 (book st).
Definition stuck : State :=
  addToBook (fst (tryMatch 6 both_cancelled 1%nat)) 1%nat.

(** On top of [second_bid_created], Sell C 1@60000 is created at address
    2 and left with its holder; then B is admitted. *)
Definition third_created : list (Time * Op) :=
  second_bid_created ++ [ (6, newSell "C" 60000 1) ].
Definition third_aside : list (Time * Op) :=
  third_created ++ [ (7, OpAddOrder 1%nat) ].

(** A service with two books: Buy A 1@50000 for BTC-USD and Sell E
    2@3000 for ETH-USD are created and admitted, at addresses 0 and 1. *)
Definition two_symbols : list (Time * matching.Op) :=
  [ (1, matching.OpNewOrder "A" order.SideBuy btc 50000 1); (2, matching.OpAddOrder 0%nat);
    (3, matching.OpNewOrder "E" order.SideSell "ETH-USD" 3000 2);
    (4, matching.OpAddOrder 1%nat) ].

Definition served (ops : list (Time * matching.Op)) : matching.ServiceState :=
  default matching.NewService (matching.run 16 matching.NewService ops).

End MoreScenarios.

(** ** Example traces on [float64] *)
Module Scenarios64.
Import PrimFloat orderbook64.
#[local] Set Warnings "-inexact-float".

Definition newBuy (id : string) (price quantity : float) : Op :=
  OpNewOrder id order.SideBuy Scenarios.btc price quantity.
Definition newSell (id : string) (price quantity : float) : Op :=
  OpNewOrder id order.SideSell Scenarios.btc price quantity.

Definition after (ops : list (Time * Op)) : State :=
  default (init Scenarios.btc) (run 16 (init Scenarios.btc) ops).

(** Buy A 0.9@50000 rests at address 0; Sell B 0.3@50000 is admitted and
    filled against it; Sell C 1.0@50000 is created at address 2. *)
Definition third_created : list (Time * Op) :=
  [ (1%Z, newBuy "A" 50000 0.9); (2%Z, OpAddOrder 0%nat);
    (3%Z, newSell "B" 50000 0.3); (4%Z, OpAddOrder 1%nat);
    (5%Z, newSell "C" 50000 1.0) ].

(** C is handed to [AddOrder], which returns an error; then Sell D
    0.5@50000 is created at address 3. *)
Definition overfilled : list (Time * Op) :=
  third_created ++ [ (6%Z, OpAddOrder 2%nat) ].
Definition fourth_created : list (Time * Op) :=
  overfilled ++ [ (7%Z, newSell "D" 50000 0.5) ].

(** The state in which the [AddOrder] of D calls [match]: [tryMatch] has
    passed over A, and D has been put in the ask level. *)
Definition stuck : State :=
  addToBook (fst (tryMatch 8%Z (after fourth_created) 3%nat)) 3%nat.

(** An order of quantity 0.9 with 0.3 filled. *)
Definition third_filled : order64.Order :=
  order64.mkOrder "A" order.SideBuy Scenarios.btc 50000 0.9 0.3
                  order.StatusPartial 1%Z 4%Z.

(** Buy A 0.9@50000 rests at address 0 and is filled by 0.2 against Sell
    B; Buy E 1.0@50000 rests behind it at address 2; Sell F 1.5@50000 is
    created at address 3. *)
Definition queue_of_two : list (Time * Op) :=
  [ (1%Z, newBuy "A" 50000 0.9); (2%Z, OpAddOrder 0%nat);
    (3%Z, newSell "B" 50000 0.2); (4%Z, OpAddOrder 1%nat);
    (5%Z, newBuy "E" 50000 1.0); (6%Z, OpAddOrder 2%nat);
    (7%Z, newSell "F" 50000 1.5) ].

End Scenarios64.

(** ** The predicates the properties are stated with *)
Module Invariants.
Import orderbook.

(** The invariant of the data model: [0 ≤ filled ≤ quantity] and
    [status = Filled ⟺ filled = quantity]. *)
Definition order_ok (o : order.Order) : Prop :=
  0 <= order.Filled o <= order.Quantity o /\
  (order.Status_ o = order.StatusFilled <-> order.Filled o = order.Quantity o).

(** The fields no method assigns. *)
Definition same_identity (o o' : order.Order) : Prop :=
  order.ID o' = order.ID o /\ order.Side_ o' = order.Side_ o /\
  order.Symbol o' = order.Symbol o /\ order.Price o' = order.Price o /\
  order.Quantity o' = order.Quantity o /\ order.CreatedAt o' = order.CreatedAt o.

(** A cancelled order keeps its status and its filled amount. *)
Definition cancelled_kept (o o' : order.Order) : Prop :=
  order.Status_ o = order.StatusCancelled ->
  order.Status_ o' = order.StatusCancelled /\ order.Filled o' = order.Filled o.

(** [R] relates the value of every allocated order in [h] to its value in
    [h'], and no order of [h] is missing from [h']. *)
Definition heap_rel (R : order.Order -> order.Order -> Prop)
    (h h' : list order.Order) : Prop :=
  (length h <= length h')%nat /\
  forall p, (p < length h)%nat -> R (deref h p) (deref h' p).

(** Every allocated order satisfies the data-model invariant. *)
Definition heap_ok (h : list order.Order) : Prop :=
  forall p, (p < length h)%nat -> order_ok (deref h p).

(** The orders held by the level queues of a side, best level first. *)
Definition all_orders (levels : list PriceLevel) : list ptr := levels ≫= Orders.

(** Every order held by the side has that side. *)
Definition side_ok (h : list order.Order) (side : order.Side)
    (levels : list PriceLevel) : Prop :=
  forall p, p ∈ all_orders levels -> order.Side_ (deref h p) = side.

(** The invariant of the book, with exact arithmetic: the orders in
    memory are well formed, and the bid queues hold buy orders and the
    ask queues sell orders, so that the two parties of a match are never
    the same order. *)
Definition book_inv (st : State) : Prop :=
  heap_ok (heap st) /\
  side_ok (heap st) order.SideBuy (buyLevels (book st)) /\
  side_ok (heap st) order.SideSell (sellLevels (book st)).

(** The prices of a side's levels, best level first. *)
Definition level_prices (levels : list PriceLevel) : list Z := Price <$> levels.

(** [a] comes no later than [b] on the side whose priority is [better]:
    [b] has no priority over [a]. *)
Definition no_later (better : Z -> Z -> bool) (a b : Z) : Prop := better b a = false.

Definition side_sorted (better : Z -> Z -> bool) (levels : list PriceLevel) : Prop :=
  Sorted (no_later better) (level_prices levels).

(** Either a side has no level, or the head bid level is priced strictly
    below the head ask level. *)
Definition uncrossed (ob : OrderBook) : Prop :=
  match buyLevels ob, sellLevels ob with
  | bestBuy :: _, bestSell :: _ => Price bestBuy < Price bestSell
  | _, _ => True
  end.

(** Bids are in descending and asks in ascending price order (levels of
    equal price may follow one another), and the heads do not cross. *)
Definition price_inv (ob : OrderBook) : Prop :=
  uncrossed ob /\
  side_sorted buyBetter (buyLevels ob) /\
  side_sorted sellBetter (sellLevels ob).

(** An order of quantity 10, as [NewOrder] returns it, and the same order
    after [Fill(5)]. *)
Definition fresh_order : order.Order :=
  order.mkOrder "A" order.SideBuy "BTC-USD" 50000 10 0 order.StatusNew 1 1.
Definition half_filled : order.Order :=
  order.mkOrder "A" order.SideBuy "BTC-USD" 50000 10 5 order.StatusPartial 1 2.

(** An order that is not cancelled is not cancelled afterwards. *)
Definition stays_live (o o' : order.Order) : Prop :=
  order.Status_ o <> order.StatusCancelled -> order.Status_ o' <> order.StatusCancelled.

(** The remaining quantity does not grow. *)
Definition remaining_shrinks (o o' : order.Order) : Prop :=
  order.RemainingQuantity o' <= order.RemainingQuantity o.

(** What is left to do on a queue: one step per order to drop it from the
    queue, and one per unit of remaining quantity. *)
Definition slack (h : list order.Order) (os : list ptr) : nat :=
  sum_list_with (fun p => S (Z.to_nat (order.RemainingQuantity (deref h p)))) os.

(** No order on the queue is cancelled. *)
Definition all_live (h : list order.Order) (os : list ptr) : Prop :=
  forall p, p ∈ os -> order.Status_ (deref h p) <> order.StatusCancelled.

(** The shape of the book when [AddOrder] calls [match]: the order just
    admitted is alone in a new head level of its side, in front of levels
    that do not cross the other side; or the heads do not cross. *)
Definition fresh_head (st : State) (o : ptr) : Prop :=
  (exists price buyNext,
      buyLevels (book st) = mkLevel price [o] :: buyNext /\
      forall b s, b ∈ buyNext -> s ∈ sellLevels (book st) -> Price b < Price s) \/
  (exists price sellNext,
      sellLevels (book st) = mkLevel price [o] :: sellNext /\
      forall b s, b ∈ buyLevels (book st) -> s ∈ sellNext -> Price b < Price s) \/
  uncrossed (book st).

(** The filled amount does not shrink. *)
Definition filled_grows (o o' : order.Order) : Prop :=
  order.Filled o <= order.Filled o'.

(** Every entry of the [orders] map leads to an allocated order that
    carries the id it is filed under. *)
Definition index_ok (h : list order.Order) (idx : gmap string ptr) : Prop :=
  forall id p, idx !! id = Some p ->
    (p < length h)%nat /\ order.ID (deref h p) = id.

(** A level of a side of the book for [sym]: its queue is not empty, and
    it holds orders of that side and symbol whose limit price is the
    price of the level. *)
Definition level_ok (h : list order.Order) (side : order.Side) (sym : string)
    (l : PriceLevel) : Prop :=
  Orders l <> [] /\
  forall p, p ∈ Orders l ->
    order.Side_ (deref h p) = side /\
    order.Price (deref h p) = Price l /\
    order.Symbol (deref h p) = sym.

Definition levels_ok (st : State) : Prop :=
  (forall l, l ∈ buyLevels (book st) ->
     level_ok (heap st) order.SideBuy (symbol (book st)) l) /\
  (forall l, l ∈ sellLevels (book st) ->
     level_ok (heap st) order.SideSell (symbol (book st)) l).

(** Every entry of the [orders] map whose order is not filled leads to an
    order that a level of its side holds. *)
Definition indexed_in_book (st : State) : Prop :=
  forall id p, orders (book st) !! id = Some p ->
    order.Status_ (deref (heap st) p) <> order.StatusFilled ->
    (order.Side_ (deref (heap st) p) = order.SideBuy ->
       p ∈ all_orders (buyLevels (book st))) /\
    (order.Side_ (deref (heap st) p) = order.SideSell ->
       p ∈ all_orders (sellLevels (book st))).

(** The levels [tryMatch] walks for the incoming order [o]: the asks for
    a buy order, the bids for a sell order. *)
Definition opposite (st : State) (o : ptr) : list PriceLevel :=
  match order.Side_ (deref (heap st) o) with
  | order.SideBuy => sellLevels (book st)
  | order.SideSell => buyLevels (book st)
  | order.SideOther => []
  end.

(** What the service keeps true of the book it files under [sym], on the
    shared heap [h]. *)
Definition book_ok (h : list order.Order) (sym : string) (ob : OrderBook) : Prop :=
  symbol ob = sym /\
  book_inv (mkState h ob) /\
  price_inv ob /\
  levels_ok (mkState h ob) /\
  index_ok h (orders ob) /\
  (forall id p, orders ob !! id = Some p -> order.Symbol (deref h p) = sym).

Definition service_inv (s : matching.ServiceState) : Prop :=
  heap_ok (matching.memory s) /\
  forall sym ob, matching.books s !! sym = Some ob -> book_ok (matching.memory s) sym ob.

(** The order is held by no bid level and no ask level that cross one
    another. *)
Definition apart (ob : OrderBook) (p : ptr) : Prop :=
  forall b s, b ∈ buyLevels ob -> s ∈ sellLevels ob -> Price s <= Price b ->
    (p ∉ Orders b) /\ (p ∉ Orders s).

End Invariants.

(** ** The predicates of the properties on [float64] *)
Module Invariants64.
Import PrimFloat orderbook64.
Local Open Scope float_scope.

Definition all_orders (levels : list PriceLevel) : list ptr := levels ≫= Orders.

(** The levels [tryMatch] walks for the incoming order [o]. *)
Definition opposite (st : State) (o : ptr) : list PriceLevel :=
  match order64.Side_ (deref (heap st) o) with
  | order.SideBuy => sellLevels (book st)
  | order.SideSell => buyLevels (book st)
  | order.SideOther => []
  end.

(** What remains of the order is a number: [x == x] fails on NaN only. *)
Definition numeric (h : list order64.Order) (p : ptr) : Prop :=
  (order64.RemainingQuantity (deref h p) =? order64.RemainingQuantity (deref h p)) = true.

(** [tryMatch] has dealt with the resting order: it is cancelled, or
    nothing remains of it, or a [Fill] of this call has succeeded on
    it. *)
Definition offered (now : Time) (h : list order64.Order) (p : ptr) : Prop :=
  order64.Status_ (deref h p) = order.StatusCancelled \/
  (order64.RemainingQuantity (deref h p) <=? 0) = true \/
  (order64.UpdatedAt (deref h p) = now /\
   (order64.Status_ (deref h p) = order.StatusFilled \/
    order64.Status_ (deref h p) = order.StatusPartial)).

End Invariants64.

(** * Properties *)

(** ** The order entity *)
Module OrderProps.
Import order Invariants.

Ltac fill_cases :=
  unfold Fill, Cancel, set_UpdatedAt, set_Filled, set_Status; cbn [Quantity Filled Status_];
  repeat first [ case_decide | case_match ]; cbn.

Lemma Fill_same_identity o q now : same_identity o (fst (Fill o q now)).
Proof. fill_cases; repeat split. Qed.

Lemma Cancel_same_identity o now : same_identity o (fst (Cancel o now)).
Proof. fill_cases; repeat split. Qed.

Lemma Fill_cancelled_unchanged o q now :
  Status_ o = StatusCancelled -> fst (Fill o q now) = o /\ snd (Fill o q now) <> None.
Proof. intros Hc. fill_cases; split; congruence. Qed.

Lemma Fill_cancelled_kept o q now : cancelled_kept o (fst (Fill o q now)).
Proof. intros Hc. destruct (Fill_cancelled_unchanged o q now Hc) as [-> _]. done. Qed.

Lemma Cancel_cancelled_kept o now : cancelled_kept o (fst (Cancel o now)).
Proof. intros Hc. fill_cases; split; congruence. Qed.

(** A fill of at most the remaining quantity keeps the invariant, whether
    it succeeds or is refused. *)
Lemma Fill_ok o q now :
  order_ok o -> q <= RemainingQuantity o -> order_ok (fst (Fill o q now)).
Proof.
  unfold order_ok, RemainingQuantity. intros [Hb Hs] Hq.
  fill_cases; try done; (split; [ lia | split; intros; try done; try lia ]).
Qed.

Lemma Cancel_ok o now : order_ok o -> order_ok (fst (Cancel o now)).
Proof.
  unfold order_ok. intros [Hb Hs].
  fill_cases; try done. split; [ lia | ]. split; [ done | ]. intros. tauto.
Qed.

Lemma NewOrder_ok id now side sym price quantity o :
  NewOrder id now side sym price quantity = inr o -> order_ok o.
Proof.
  unfold NewOrder. repeat case_match; try done. intros [= <-].
  unfold order_ok; cbn. split; [ lia | ]. split; [ done | lia ].
Qed.

(** *** Lemmas on the progress of [Fill] *)

Lemma Fill_stays_live o q now : stays_live o (fst (Fill o q now)).
Proof. unfold stays_live. fill_cases; congruence. Qed.

Lemma Fill_remaining_shrinks o q now : remaining_shrinks o (fst (Fill o q now)).
Proof. unfold remaining_shrinks, RemainingQuantity. fill_cases; lia. Qed.

Lemma Fill_not_positive o q now : q <= 0 -> fst (Fill o q now) = o.
Proof. intros Hq. fill_cases; done || lia. Qed.

Lemma Fill_takes o q now :
  0 < q -> Status_ o <> StatusCancelled ->
  RemainingQuantity (fst (Fill o q now)) = RemainingQuantity o - q.
Proof. intros Hq Hc. unfold RemainingQuantity. fill_cases; done || lia. Qed.

(** The two refusals that come before the assignment leave the receiver
    as it was. *)
Lemma Fill_refused_early_unchanged o q now :
  snd (Fill o q now) = Some ErrFillNotPositive \/ snd (Fill o q now) = Some ErrFillCancelled ->
  fst (Fill o q now) = o.
Proof. fill_cases; intros [? | ?]; congruence. Qed.

(** C4 (fails on the code).  [Fill] checks [Filled > Quantity] only after
    it has assigned [Filled] and [UpdatedAt]: on the order of quantity 10
    with 5 filled, [Fill(7)] returns the "exceeds" error and leaves the
    order with [Filled = 12] and a new [UpdatedAt], its status unchanged. *)
Theorem Fill_overfill_mutates_receiver :
  NewOrder "A" 1 SideBuy "BTC-USD" 50000 10 = inr fresh_order /\
  Fill fresh_order 5 2 = (half_filled, None) /\
  snd (Fill half_filled 7 3) = Some ErrFillExceeds /\
  Filled (fst (Fill half_filled 7 3)) = 12 /\
  UpdatedAt (fst (Fill half_filled 7 3)) = 3 /\
  Status_ (fst (Fill half_filled 7 3)) = StatusPartial /\
  fst (Fill half_filled 7 3) <> half_filled.
Proof. repeat split; try reflexivity. discriminate. Qed.

End OrderProps.

(** ** The order book *)
Module BookProps.
Import orderbook Invariants OrderProps.

(** *** Reading and writing the heap *)

Lemma deref_store_eq h p o : (p < length h)%nat -> deref (store h p o) p = o.
Proof. intros Hp. unfold deref, store. by rewrite list_lookup_insert_eq. Qed.

Lemma deref_store_ne h p q o : p <> q -> deref (store h p o) q = deref h q.
Proof. intros Hp. unfold deref, store. by rewrite list_lookup_insert_ne. Qed.

Lemma length_store h p o : length (store h p o) = length h.
Proof. apply length_insert. Qed.

Lemma deref_alloc_old h o p : (p < length h)%nat -> deref (fst (alloc h o)) p = deref h p.
Proof. intros Hp. unfold deref, alloc; cbn. by rewrite lookup_app_l. Qed.

Lemma deref_alloc_new h o : deref (fst (alloc h o)) (snd (alloc h o)) = o.
Proof. unfold deref, alloc; cbn. by rewrite list_lookup_middle. Qed.

(** *** What every operation does to an order, cell by cell

    Every write to the heap made by the book stores the receiver of a
    [Fill] or of a [Cancel].  So a relation between the old and the new
    value of an order that both methods respect, and that is reflexive and
    transitive, relates the heap before any operation to the heap after. *)
Section HeapRel.
Variable R : order.Order -> order.Order -> Prop.
Hypothesis R_refl : forall o, R o o.
Hypothesis R_trans : forall a b c, R a b -> R b c -> R a c.
Hypothesis R_Fill : forall o q now, R o (fst (order.Fill o q now)).
Hypothesis R_Cancel : forall o now, R o (fst (order.Cancel o now)).

Lemma heap_rel_refl h : heap_rel R h h.
Proof. split; [ lia | auto ]. Qed.

Lemma heap_rel_trans h1 h2 h3 : heap_rel R h1 h2 -> heap_rel R h2 h3 -> heap_rel R h1 h3.
Proof.
  intros [L1 H1] [L2 H2]. split; [ lia | ].
  intros p Hp. eapply R_trans; [ apply H1 | apply H2 ]; lia.
Qed.

Lemma heap_rel_store h p o : R (deref h p) o -> heap_rel R h (store h p o).
Proof.
  intros Ho. split; [ rewrite length_store; lia | ].
  intros q Hq. destruct (decide (p = q)) as [<- | Hne].
  - by rewrite deref_store_eq.
  - rewrite deref_store_ne by done. apply R_refl.
Qed.

Lemma heap_rel_Fill h p q now :
  heap_rel R h (store h p (fst (order.Fill (deref h p) q now))).
Proof. apply heap_rel_store, R_Fill. Qed.

Lemma heap_rel_alloc h o : heap_rel R h (fst (alloc h o)).
Proof.
  split; [ unfold alloc; cbn; rewrite length_app; lia | ].
  intros p Hp. rewrite deref_alloc_old by done. apply R_refl.
Qed.

Lemma tryMatchLevel_rel now o resting h idx :
  heap_rel R h (tryMatchLevel now o resting h idx).1.1.
Proof.
  revert h idx. induction resting as [| r rest IH]; intros h idx; cbn [tryMatchLevel].
  { apply heap_rel_refl. }
  case_decide; [ apply IH | ].
  case_match; [ apply IH | ].
  destruct (order.Fill (deref h o) _ now) as [o1 e1] eqn:E1.
  assert (H1 : heap_rel R h (store h o o1)).
  { replace o1 with (fst (order.Fill (deref h o)
      (min (order.RemainingQuantity (deref h o)) (order.RemainingQuantity (deref h r))) now))
      by (by rewrite E1). apply heap_rel_Fill. }
  destruct e1 as [e | ]; [ exact H1 | ].
  destruct (order.Fill (deref (store h o o1) r) _ now) as [r1 e2] eqn:E2.
  assert (H2 : heap_rel R h (store (store h o o1) r r1)).
  { eapply heap_rel_trans; [ exact H1 | ].
    replace r1 with (fst (order.Fill (deref (store h o o1) r)
      (min (order.RemainingQuantity (deref h o)) (order.RemainingQuantity (deref h r))) now))
      by (by rewrite E2). apply heap_rel_Fill. }
  destruct e2 as [e | ]; [ exact H2 | ].
  case_decide; [ exact H2 | ].
  eapply heap_rel_trans; [ exact H2 | apply IH ].
Qed.

Lemma tryMatchLevels_rel now o isAggressive levels h idx :
  heap_rel R h (tryMatchLevels now o isAggressive levels h idx).1.1.
Proof.
  revert h idx. induction levels as [| level next IH]; intros h idx; cbn [tryMatchLevels].
  { apply heap_rel_refl. }
  case_decide; [ apply heap_rel_refl | ].
  case_match; [ apply heap_rel_refl | ].
  pose proof (tryMatchLevel_rel now o (Orders level) h idx) as H1.
  destruct (tryMatchLevel now o (Orders level) h idx) as [[h' idx'] [e | ]]; cbn in H1.
  - exact H1.
  - eapply heap_rel_trans; [ exact H1 | apply IH ].
Qed.

Lemma tryMatch_rel now st o : heap_rel R (heap st) (heap (fst (tryMatch now st o))).
Proof.
  unfold tryMatch.
  destruct (match order.Side_ (deref (heap st) o) with
            | order.SideBuy => _ | order.SideSell => _ | order.SideOther => _ end)
    as [levels aggressive].
  pose proof (tryMatchLevels_rel now o aggressive levels (heap st) (orders (book st))) as H1.
  destruct (tryMatchLevels now o aggressive levels (heap st) (orders (book st)))
    as [[h idx] e]. exact H1.
Qed.

Lemma processLevelMatch_rel fuel now buyOrders sellOrders h buyOrders' sellOrders' h' :
  processLevelMatch fuel now buyOrders sellOrders h = Some (buyOrders', sellOrders', h') ->
  heap_rel R h h'.
Proof.
  revert buyOrders sellOrders h.
  induction fuel as [| fuel IH]; intros bs ss h; destruct bs as [| b bs0], ss as [| s ss0];
    cbn [processLevelMatch]; try (intros [= <- <- <-]; apply heap_rel_refl); try done.
  intros Hrun. apply IH in Hrun.
  eapply heap_rel_trans; [ | exact Hrun ].
  eapply heap_rel_trans; apply heap_rel_Fill.
Qed.

Lemma match_rel fuel now st st' :
  match_ fuel now st = Some st' -> heap_rel R (heap st) (heap st').
Proof.
  revert st. induction fuel as [| fuel IH]; intros st; cbn [match_];
    destruct (buyLevels (book st)) as [| bestBuy buyNext];
    destruct (sellLevels (book st)) as [| bestSell sellNext];
    try (intros [= <-]; apply heap_rel_refl);
    (case_match; [ intros [= <-]; apply heap_rel_refl | ]); try done.
  destruct (processLevelMatch fuel now (Orders bestBuy) (Orders bestSell) (heap st))
    as [[[bs ss] h] | ] eqn:E; [ | done ].
  intros Hrun. apply IH in Hrun. cbn in Hrun.
  eapply heap_rel_trans; [ | exact Hrun ].
  eapply processLevelMatch_rel, E.
Qed.

Lemma AddOrder_rel fuel now st o st' err :
  AddOrder fuel now st o = Some (st', err) -> heap_rel R (heap st) (heap st').
Proof.
  unfold AddOrder. case_decide; [ intros [= <- _]; apply heap_rel_refl | ].
  pose proof (tryMatch_rel now st o) as H1.
  destruct (tryMatch now st o) as [st1 [e | ]]; cbn in H1; [ by intros [= <- _] | ].
  destruct (match_ fuel now _) as [st3 | ] eqn:E; [ | done ].
  intros [= <- _]. apply match_rel in E.
  eapply heap_rel_trans; [ exact H1 | ].
  unfold addToBook in E. by case_decide.
Qed.

Lemma CancelOrder_rel now st orderID :
  heap_rel R (heap st) (heap (fst (CancelOrder now st orderID))).
Proof.
  unfold CancelOrder. destruct (orders (book st) !! orderID) as [o | ]; [ | apply heap_rel_refl ].
  pose proof (R_Cancel (deref (heap st) o) now) as H1.
  destruct (order.Cancel (deref (heap st) o) now) as [o1 [e | ]]; cbn in *;
    by apply heap_rel_store.
Qed.

Lemma exec_rel fuel now st op st' :
  exec fuel now st op = Some st' -> heap_rel R (heap st) (heap st').
Proof.
  destruct op as [id side sym price quantity | o | orderID]; cbn [exec].
  - destruct (order.NewOrder _ _ _ _ _ _); intros [= <-];
      [ apply heap_rel_refl | apply heap_rel_alloc ].
  - case_decide; [ | done ].
    destruct (AddOrder fuel now st o) as [[st1 e] | ] eqn:E; [ | done ].
    intros [= <-]. eapply AddOrder_rel, E.
  - intros [= <-]. apply CancelOrder_rel.
Qed.

Lemma run_rel fuel ops st st' :
  run fuel st ops = Some st' -> heap_rel R (heap st) (heap st').
Proof.
  revert st. induction ops as [| [now op] ops IH]; intros st; cbn [run].
  { intros [= <-]. apply heap_rel_refl. }
  destruct (exec fuel now st op) as [st1 | ] eqn:E; [ | done ].
  intros Hrun. eapply heap_rel_trans; [ eapply exec_rel, E | by apply IH ].
Qed.

End HeapRel.

(** The two relations used below. *)
Lemma same_identity_refl o : same_identity o o.
Proof. by repeat split. Qed.

Lemma same_identity_trans a b c :
  same_identity a b -> same_identity b c -> same_identity a c.
Proof. unfold same_identity. intros (?&?&?&?&?&?) (?&?&?&?&?&?). repeat split; congruence. Qed.

Lemma cancelled_kept_refl o : cancelled_kept o o.
Proof. by split. Qed.

Lemma cancelled_kept_trans a b c :
  cancelled_kept a b -> cancelled_kept b c -> cancelled_kept a c.
Proof.
  unfold cancelled_kept. intros Hab Hbc Ha.
  destruct (Hab Ha) as [Hb Hf]. destruct (Hbc Hb) as [Hc Hf']. split; congruence.
Qed.

(** No operation changes the identity fields of an allocated order. *)
Lemma exec_same_identity fuel now st op st' :
  exec fuel now st op = Some st' -> heap_rel same_identity (heap st) (heap st').
Proof.
  apply (exec_rel same_identity same_identity_refl same_identity_trans
           Fill_same_identity Cancel_same_identity).
Qed.

(** *** The invariant of the heap, with exact arithmetic *)

Lemma all_orders_cons level next :
  all_orders (level :: next) = Orders level ++ all_orders next.
Proof. reflexivity. Qed.

Lemma side_valid h side levels p :
  side <> order.SideOther -> side_ok h side levels -> p ∈ all_orders levels ->
  (p < length h)%nat.
Proof.
  intros Hside Hok Hp. specialize (Hok p Hp).
  destruct (decide (p < length h)%nat) as [ | Hge]; [ done | ].
  unfold deref in Hok. rewrite lookup_ge_None_2 in Hok by lia. cbn in Hok. congruence.
Qed.

Lemma side_ok_rel h h' side levels :
  side <> order.SideOther -> heap_rel same_identity h h' ->
  side_ok h side levels -> side_ok h' side levels.
Proof.
  intros Hside [_ Hrel] Hok p Hp.
  pose proof (side_valid h side levels p Hside Hok Hp) as Hlt.
  destruct (Hrel p Hlt) as (_ & -> & _). by apply Hok.
Qed.

Lemma side_ok_subseteq h side levels levels' :
  all_orders levels' ⊆ all_orders levels -> side_ok h side levels -> side_ok h side levels'.
Proof. intros Hsub Hok p Hp. apply Hok, Hsub, Hp. Qed.

Lemma heap_ok_store h p o :
  heap_ok h -> ((p < length h)%nat -> order_ok o) -> heap_ok (store h p o).
Proof.
  intros Hok Ho q Hq. rewrite length_store in Hq.
  destruct (decide (p = q)) as [<- | Hne].
  - rewrite deref_store_eq by done. auto.
  - rewrite deref_store_ne by done. auto.
Qed.

Lemma min_le a b : min a b <= a /\ min a b <= b.
Proof. unfold min. case_match; lia. Qed.

Lemma heap_ok_Fill h p q now :
  heap_ok h -> q <= order.RemainingQuantity (deref h p) ->
  heap_ok (store h p (fst (order.Fill (deref h p) q now))).
Proof. intros Hok Hq. apply heap_ok_store; [ done | ]. intros Hp. apply Fill_ok; auto. Qed.

(** [tryMatch] keeps the invariant as long as the incoming order is not
    itself one of the resting orders it is matched with. *)
Lemma tryMatchLevel_ok now o resting h idx :
  heap_ok h -> o ∉ resting -> heap_ok (tryMatchLevel now o resting h idx).1.1.
Proof.
  revert h idx. induction resting as [| r rest IH]; intros h idx Hok Hnot;
    cbn [tryMatchLevel]; [ done | ].
  apply not_elem_of_cons in Hnot as [Hne Hnot].
  case_decide; [ by apply IH | ].
  case_match; [ by apply IH | ].
  destruct (min_le (order.RemainingQuantity (deref h o))
                   (order.RemainingQuantity (deref h r))) as [Hmo Hmr].
  pose proof (heap_ok_Fill h o _ now Hok Hmo) as H1.
  destruct (order.Fill (deref h o) _ now) as [o1 e1]; cbn [fst] in H1.
  destruct e1 as [e | ]; [ exact H1 | ].
  assert (Hr : deref (store h o o1) r = deref h r) by (by apply deref_store_ne).
  assert (Hmr' : min (order.RemainingQuantity (deref h o))
                     (order.RemainingQuantity (deref h r))
                 <= order.RemainingQuantity (deref (store h o o1) r))
    by (by rewrite Hr).
  pose proof (heap_ok_Fill (store h o o1) r _ now H1 Hmr') as H2.
  destruct (order.Fill (deref (store h o o1) r) _ now) as [r1 e2]; cbn [fst] in H2.
  destruct e2 as [e | ]; [ exact H2 | ].
  case_decide; [ exact H2 | ].
  by apply IH.
Qed.

Lemma tryMatchLevels_ok now o isAggressive levels h idx :
  heap_ok h -> o ∉ all_orders levels ->
  heap_ok (tryMatchLevels now o isAggressive levels h idx).1.1.
Proof.
  revert h idx. induction levels as [| level next IH]; intros h idx Hok Hnot;
    cbn [tryMatchLevels]; [ done | ].
  rewrite all_orders_cons in Hnot. apply not_elem_of_app in Hnot as [Hl Hnext].
  case_decide; [ done | ].
  case_match; [ done | ].
  pose proof (tryMatchLevel_ok now o (Orders level) h idx Hok Hl) as H1.
  destruct (tryMatchLevel now o (Orders level) h idx) as [[h' idx'] [e | ]]; cbn in H1.
  - exact H1.
  - by apply IH.
Qed.

(** A buy order is matched with the asks and a sell order with the bids,
    so under [book_inv] the incoming order is none of the resting ones. *)
Lemma tryMatch_ok now st o : book_inv st -> heap_ok (heap (fst (tryMatch now st o))).
Proof.
  intros (Hok & Hbuy & Hsell). unfold tryMatch.
  assert (Hdis : o ∉ all_orders
            (match order.Side_ (deref (heap st) o) with
             | order.SideBuy => (sellLevels (book st), true)
             | order.SideSell => (buyLevels (book st), false)
             | order.SideOther => ([], false)
             end).1).
  { destruct (order.Side_ (deref (heap st) o)) eqn:Eside; cbn.
    - intros Hin. apply Hsell in Hin. congruence.
    - intros Hin. apply Hbuy in Hin. congruence.
    - apply not_elem_of_nil. }
  destruct (match order.Side_ (deref (heap st) o) with
            | order.SideBuy => _ | order.SideSell => _ | order.SideOther => _ end)
    as [levels aggressive]; cbn in Hdis.
  pose proof (tryMatchLevels_ok now o aggressive levels (heap st) (orders (book st)) Hok Hdis) as H1.
  destruct (tryMatchLevels now o aggressive levels (heap st) (orders (book st)))
    as [[h idx] e]. exact H1.
Qed.

(** [tryMatch] leaves the level chains alone. *)
Lemma tryMatch_levels now st o :
  buyLevels (book (fst (tryMatch now st o))) = buyLevels (book st) /\
  sellLevels (book (fst (tryMatch now st o))) = sellLevels (book st) /\
  symbol (book (fst (tryMatch now st o))) = symbol (book st).
Proof.
  unfold tryMatch.
  destruct (match order.Side_ (deref (heap st) o) with
            | order.SideBuy => _ | order.SideSell => _ | order.SideOther => _ end)
    as [levels aggressive].
  destruct (tryMatchLevels now o aggressive levels (heap st) (orders (book st)))
    as [[h idx] e]. done.
Qed.

(** [processLevelMatch] keeps the invariant when the two queues share no
    order, and only ever drops orders from the front of the queues. *)
Lemma processLevelMatch_ok fuel now buyOrders sellOrders h buyOrders' sellOrders' h' :
  processLevelMatch fuel now buyOrders sellOrders h = Some (buyOrders', sellOrders', h') ->
  heap_ok h -> (forall p, p ∈ buyOrders -> p ∉ sellOrders) -> heap_ok h'.
Proof.
  revert buyOrders sellOrders h.
  induction fuel as [| fuel IH]; intros bs ss h; destruct bs as [| b bs0], ss as [| s ss0];
    cbn [processLevelMatch]; try (by intros [= <- <- <-]); try done.
  intros Hrun Hok Hdis.
  assert (Hbs : b <> s).
  { intros ->. eapply Hdis; apply list_elem_of_here. }
  destruct (min_le (order.RemainingQuantity (deref h b))
                   (order.RemainingQuantity (deref h s))) as [Hmb Hms].
  pose proof (heap_ok_Fill h b _ now Hok Hmb) as H1.
  set (q := min (order.RemainingQuantity (deref h b))
                (order.RemainingQuantity (deref h s))) in *.
  set (h1 := store h b (fst (order.Fill (deref h b) q now))) in *.
  assert (Hms' : q <= order.RemainingQuantity (deref h1 s))
    by (unfold h1; by rewrite deref_store_ne).
  pose proof (heap_ok_Fill h1 s q now H1 Hms') as H2.
  eapply IH; [ exact Hrun | exact H2 | ].
  intros p Hp Hq. apply (Hdis p); [ clear Hq | clear Hp ]; case_decide; set_solver.
Qed.

Lemma processLevelMatch_subseteq fuel now buyOrders sellOrders h buyOrders' sellOrders' h' :
  processLevelMatch fuel now buyOrders sellOrders h = Some (buyOrders', sellOrders', h') ->
  buyOrders' ⊆ buyOrders /\ sellOrders' ⊆ sellOrders.
Proof.
  revert buyOrders sellOrders h.
  induction fuel as [| fuel IH]; intros bs ss h; destruct bs as [| b bs0], ss as [| s ss0];
    cbn [processLevelMatch]; try (intros [= <- <- <-]; split; reflexivity); try done.
  intros Hrun. destruct (IH _ _ _ Hrun) as [Hb Hs].
  split; [ etrans; [ exact Hb | ] | etrans; [ exact Hs | ] ];
    clear Hrun Hb Hs IH; case_decide; done || by apply list_subseteq_cons.
Qed.

(** *** Inserting into a side *)

Lemma walk_spec better price current next ls j :
  walk better price current next = (ls, j) ->
  all_orders ls = all_orders (current :: next) /\
  exists l, ls !! j = Some l /\ Price l = price.
Proof.
  revert current ls j. induction next as [| n next' IH]; intros current ls j; cbn [walk].
  - unfold linkAfter. destruct (Z.eqb_spec (Price current) price) as [He | He];
      intros [= <- <-]; (split; [ done | ]).
    + by exists current.
    + by exists (mkLevel price []).
  - destruct (better (Price n) price).
    + destruct (walk better price n next') as [ls' j'] eqn:E. intros [= <- <-].
      destruct (IH _ _ _ E) as [Hall (l & Hl & Hp)]. split.
      * rewrite !all_orders_cons in *. by rewrite Hall.
      * by exists l.
    + unfold linkAfter. destruct (Z.eqb_spec (Price current) price) as [He | He];
        intros [= <- <-]; (split; [ done | ]).
      * by exists current.
      * by exists (mkLevel price []).
Qed.

Lemma findOrCreateLevel_spec better price levels ls i :
  findOrCreateLevel better price levels = (ls, i) ->
  all_orders ls = all_orders levels /\
  exists l, ls !! i = Some l /\ Price l = price.
Proof.
  destruct levels as [| top rest]; cbn [findOrCreateLevel].
  - intros [= <- <-]. split; [ done | ]. by exists (mkLevel price []).
  - destruct (better price (Price top)).
    + intros [= <- <-]. split; [ done | ]. by exists (mkLevel price []).
    + apply walk_spec.
Qed.

Lemma elem_of_all_orders_append ls i o p :
  (i < length ls)%nat ->
  p ∈ all_orders (alter (fun l => mkLevel (Price l) (Orders l ++ [o])) i ls) <->
  p = o \/ p ∈ all_orders ls.
Proof.
  revert i. induction ls as [| l ls IH]; intros i Hi; [ cbn in Hi; lia | ].
  destruct i as [| i]; cbn [alter list_alter]; rewrite !all_orders_cons; cbn [Orders].
  - rewrite !elem_of_app, list_elem_of_singleton. tauto.
  - cbn in Hi. rewrite !elem_of_app. change (list_alter ?f i ls) with (alter f i ls).
    rewrite IH by lia. tauto.
Qed.

Lemma elem_of_all_orders_addOrderTo better price o levels p :
  p ∈ all_orders (addOrderTo better price o levels) <-> p = o \/ p ∈ all_orders levels.
Proof.
  unfold addOrderTo. destruct (findOrCreateLevel better price levels) as [ls i] eqn:E.
  destruct (findOrCreateLevel_spec _ _ _ _ _ E) as [Hall (l & Hl & _)].
  rewrite elem_of_all_orders_append by (by eapply lookup_lt_Some).
  by rewrite Hall.
Qed.

(** *** [cleanupEmptyLevels] and [match] *)

Lemma all_orders_dropEmptyLevels levels :
  all_orders (dropEmptyLevels levels) = all_orders levels.
Proof.
  induction levels as [| level next IH]; [ done | ]. cbn [dropEmptyLevels].
  destruct (Orders level) eqn:E; [ | done ].
  rewrite all_orders_cons, E. done.
Qed.

(** [match] only removes orders from the level queues and does not touch
    the [orders] map. *)
Lemma match_subseteq fuel now st st' :
  match_ fuel now st = Some st' ->
  all_orders (buyLevels (book st')) ⊆ all_orders (buyLevels (book st)) /\
  all_orders (sellLevels (book st')) ⊆ all_orders (sellLevels (book st)) /\
  orders (book st') = orders (book st) /\ symbol (book st') = symbol (book st).
Proof.
  revert st. induction fuel as [| fuel IH]; intros st; cbn [match_];
    destruct (buyLevels (book st)) as [| bestBuy buyNext] eqn:Eb;
    destruct (sellLevels (book st)) as [| bestSell sellNext] eqn:Es;
    try (intros [= <-]; rewrite ?Eb, ?Es; done);
    (case_match; [ intros [= <-]; rewrite ?Eb, ?Es; done | ]); try done.
  destruct (processLevelMatch fuel now (Orders bestBuy) (Orders bestSell) (heap st))
    as [[[bs ss] h] | ] eqn:E; [ | done ].
  intros Hrun. destruct (IH _ Hrun) as (Hb & Hs & Ho & Hsym).
  unfold cleanupEmptyLevels in Hb, Hs, Ho, Hsym.
  cbn [book buyLevels sellLevels orders symbol] in Hb, Hs, Ho, Hsym.
  rewrite all_orders_dropEmptyLevels in Hb, Hs.
  destruct (processLevelMatch_subseteq _ _ _ _ _ _ _ _ E) as [Hbs Hss].
  repeat split; try done.
  - etrans; [ exact Hb | ]. rewrite !all_orders_cons; cbn [Orders].
    intros p. rewrite !elem_of_app. intros [ | ]; [ left; by apply Hbs | by right ].
  - etrans; [ exact Hs | ]. rewrite !all_orders_cons; cbn [Orders].
    intros p. rewrite !elem_of_app. intros [ | ]; [ left; by apply Hss | by right ].
Qed.

(** The invariant after one turn of the loop of [match]. *)
Lemma match_turn_inv fuel now st bestBuy buyNext bestSell sellNext bs ss h :
  book_inv st ->
  buyLevels (book st) = bestBuy :: buyNext -> sellLevels (book st) = bestSell :: sellNext ->
  processLevelMatch fuel now (Orders bestBuy) (Orders bestSell) (heap st) = Some (bs, ss, h) ->
  book_inv (mkState h (cleanupEmptyLevels
              (mkBook (symbol (book st)) (mkLevel (Price bestBuy) bs :: buyNext)
                      (mkLevel (Price bestSell) ss :: sellNext) (orders (book st))))).
Proof.
  intros (Hok & Hbuy & Hsell) Eb Es E. rewrite Eb in Hbuy. rewrite Es in Hsell.
  destruct (processLevelMatch_subseteq _ _ _ _ _ _ _ _ E) as [Hbs Hss].
  assert (Hid : heap_rel same_identity (heap st) h).
  { eapply (processLevelMatch_rel same_identity same_identity_refl same_identity_trans
              Fill_same_identity), E. }
  split; [ | split ]; unfold cleanupEmptyLevels; cbn [book heap buyLevels sellLevels].
  - eapply processLevelMatch_ok; [ exact E | exact Hok | ].
    intros p Hp Hq.
    assert (order.Side_ (deref (heap st) p) = order.SideBuy)
      by (apply Hbuy; rewrite all_orders_cons; set_solver).
    assert (order.Side_ (deref (heap st) p) = order.SideSell)
      by (apply Hsell; rewrite all_orders_cons; set_solver).
    congruence.
  - eapply side_ok_rel; [ done | exact Hid | ].
    eapply side_ok_subseteq; [ | exact Hbuy ].
    rewrite all_orders_dropEmptyLevels, !all_orders_cons; cbn [Orders].
    intros p. rewrite !elem_of_app. intros [ | ]; [ left; by apply Hbs | by right ].
  - eapply side_ok_rel; [ done | exact Hid | ].
    eapply side_ok_subseteq; [ | exact Hsell ].
    rewrite all_orders_dropEmptyLevels, !all_orders_cons; cbn [Orders].
    intros p. rewrite !elem_of_app. intros [ | ]; [ left; by apply Hss | by right ].
Qed.

Lemma match_inv fuel now st st' :
  match_ fuel now st = Some st' -> book_inv st -> book_inv st'.
Proof.
  revert st. induction fuel as [| fuel IH]; intros st; cbn [match_];
    destruct (buyLevels (book st)) as [| bestBuy buyNext] eqn:Eb;
    destruct (sellLevels (book st)) as [| bestSell sellNext] eqn:Es;
    try (by intros [= <-]);
    (case_match; [ by intros [= <-] | ]); try done.
  destruct (processLevelMatch fuel now (Orders bestBuy) (Orders bestSell) (heap st))
    as [[[bs ss] h] | ] eqn:E; [ | done ].
  intros Hrun Hinv. apply (IH _ Hrun). by eapply match_turn_inv.
Qed.

(** *** The invariant holds in every reachable state *)

Lemma tryMatch_inv now st o : book_inv st -> book_inv (fst (tryMatch now st o)).
Proof.
  intros Hinv. pose proof Hinv as (Hok & Hbuy & Hsell).
  destruct (tryMatch_levels now st o) as (Eb & Es & _).
  assert (Hid : heap_rel same_identity (heap st) (heap (fst (tryMatch now st o)))).
  { apply (tryMatch_rel same_identity same_identity_refl same_identity_trans
             Fill_same_identity). }
  split; [ by apply tryMatch_ok | ]. rewrite Eb, Es.
  split; eapply side_ok_rel; eauto.
Qed.

Lemma addToBook_inv st o : book_inv st -> book_inv (addToBook st o).
Proof.
  intros (Hok & Hbuy & Hsell). unfold addToBook. case_decide; [ | done ].
  destruct (order.Side_ (deref (heap st) o)) eqn:Eside;
    (split; [ exact Hok | split ]); cbn; try done.
  - intros p Hp. apply elem_of_all_orders_addOrderTo in Hp as [-> | Hp]; auto.
  - intros p Hp. apply elem_of_all_orders_addOrderTo in Hp as [-> | Hp]; auto.
Qed.

Lemma AddOrder_inv fuel now st o st' err :
  AddOrder fuel now st o = Some (st', err) -> book_inv st -> book_inv st'.
Proof.
  unfold AddOrder. intros Hrun Hinv. case_decide; [ by injection Hrun as <- _ | ].
  pose proof (tryMatch_inv now st o Hinv) as H1.
  destruct (tryMatch now st o) as [st1 [e | ]]; cbn [fst] in H1; [ by injection Hrun as <- _ | ].
  destruct (match_ fuel now _) as [st3 | ] eqn:E; [ | done ].
  injection Hrun as <- _. eapply match_inv; [ exact E | ]. by apply addToBook_inv.
Qed.

Lemma CancelOrder_inv now st orderID :
  book_inv st -> book_inv (fst (CancelOrder now st orderID)).
Proof.
  intros Hinv. pose proof Hinv as (Hok & Hbuy & Hsell).
  pose proof (CancelOrder_rel same_identity same_identity_refl Cancel_same_identity
                now st orderID) as Hid.
  unfold CancelOrder in *. destruct (orders (book st) !! orderID) as [o | ]; [ | done ].
  pose proof (Cancel_ok (deref (heap st) o) now) as Hc.
  destruct (order.Cancel (deref (heap st) o) now) as [o1 [e | ]]; cbn in *.
  - split; [ apply heap_ok_store; auto | ]. split; eapply side_ok_rel; eauto.
  - split; [ apply heap_ok_store; auto | ]. split; eapply side_ok_rel; eauto.
Qed.

Lemma exec_inv fuel now st op st' :
  exec fuel now st op = Some st' -> book_inv st -> book_inv st'.
Proof.
  intros Hrun Hinv. pose proof (exec_same_identity _ _ _ _ _ Hrun) as Hid.
  destruct op as [id side sym price quantity | o | orderID]; cbn [exec] in Hrun.
  - destruct (order.NewOrder id now side sym price quantity) as [e | o] eqn:Enew;
      injection Hrun as <-; [ done | ].
    destruct Hinv as (Hok & Hbuy & Hsell).
    split; [ | split; eapply side_ok_rel; eauto ].
    intros p Hp. cbn [heap] in *.
    change (heap st ++ [o]) with (fst (alloc (heap st) o)) in *.
    change (heap st ++ [o]) with (fst (alloc (heap st) o)).
    assert (Hlen : length (fst (alloc (heap st) o)) = S (length (heap st)))
      by (cbn; rewrite length_app; cbn; lia).
    rewrite Hlen in Hp.
    destruct (decide (p < length (heap st))%nat) as [Hlt | Hge].
    + rewrite (deref_alloc_old (heap st) o p Hlt). auto.
    + replace p with (snd (alloc (heap st) o)) by (cbn; lia).
      rewrite deref_alloc_new. by eapply NewOrder_ok.
  - case_decide; [ | done ].
    destruct (AddOrder fuel now st o) as [[st1 e] | ] eqn:E; [ | done ].
    injection Hrun as <-. by eapply AddOrder_inv.
  - injection Hrun as <-. by apply CancelOrder_inv.
Qed.

Lemma init_inv symbol : book_inv (init symbol).
Proof.
  split; [ intros p Hp; cbn in Hp; lia | ].
  split; intros p Hp; cbn in Hp; by apply elem_of_nil in Hp.
Qed.

Lemma reachable_inv st : reachable st -> book_inv st.
Proof.
  induction 1 as [symbol | st fuel now op st' _ IH Hexec].
  - apply init_inv.
  - by eapply exec_inv.
Qed.

Lemma run_reachable fuel ops st st' :
  reachable st -> run fuel st ops = Some st' -> reachable st'.
Proof.
  revert st. induction ops as [| [now op] ops IH]; intros st Hst; cbn [run].
  { by intros [= <-]. }
  destruct (exec fuel now st op) as [st1 | ] eqn:E; [ | done ].
  apply IH. by eapply reachable_step.
Qed.

(** *** Price order of a side *)

Section SideSorted.
Variable better : Z -> Z -> bool.
Hypothesis better_asym : forall a b, better a b = true -> better b a = false.

Lemma walk_head price current next :
  exists tl, (walk better price current next).1 = current :: tl.
Proof.
  destruct next as [| n next']; cbn [walk]; unfold linkAfter.
  - case_match; eauto.
  - destruct (better (Price n) price); [ | case_match; eauto ].
    destruct (walk better price n next'); eauto.
Qed.

Lemma linkAfter_sorted price current next :
  side_sorted better (current :: next) -> better price (Price current) = false ->
  match next with [] => True | n :: _ => better (Price n) price = false end ->
  side_sorted better (linkAfter price current next).1.
Proof.
  unfold linkAfter, side_sorted, level_prices. intros Hs Hcur Hnext.
  destruct (Price current =? price); [ done | ]. cbn in *.
  apply Sorted_inv in Hs as [Hs _].
  constructor; [ constructor; [ done | ] | by constructor ].
  destruct next; cbn; constructor. done.
Qed.

Lemma walk_sorted price current next :
  side_sorted better (current :: next) -> better price (Price current) = false ->
  side_sorted better (walk better price current next).1.
Proof.
  revert current. induction next as [| n next' IH]; intros current Hs Hcur; cbn [walk].
  - by apply linkAfter_sorted.
  - destruct (better (Price n) price) eqn:En; [ | by apply linkAfter_sorted ].
    pose proof Hs as Hs'. unfold side_sorted, level_prices in Hs'. cbn in Hs'.
    apply Sorted_inv in Hs' as [Hs' Hhd]. apply HdRel_inv in Hhd.
    specialize (IH n Hs' (better_asym _ _ En)).
    destruct (walk_head price n next') as [tl Htl].
    destruct (walk better price n next') as [ls j]. cbn [fst] in *. subst ls.
    unfold side_sorted, level_prices in *. cbn in *.
    constructor; [ done | by constructor ].
Qed.

Lemma findOrCreateLevel_sorted price levels :
  side_sorted better levels -> side_sorted better (findOrCreateLevel better price levels).1.
Proof.
  destruct levels as [| top rest]; cbn [findOrCreateLevel]; intros Hs.
  - unfold side_sorted. cbn. repeat constructor.
  - destruct (better price (Price top)) eqn:Etop; [ | by apply walk_sorted ].
    unfold side_sorted, level_prices in *. cbn in *.
    constructor; [ done | constructor ]. by apply better_asym.
Qed.

Lemma level_prices_append i o levels :
  level_prices (alter (fun l => mkLevel (Price l) (Orders l ++ [o])) i levels)
  = level_prices levels.
Proof.
  revert i. induction levels as [| l ls IH]; intros [| i]; try done.
  cbn. f_equal. apply IH.
Qed.

Lemma addOrderTo_sorted price o levels :
  side_sorted better levels -> side_sorted better (addOrderTo better price o levels).
Proof.
  intros Hs. apply findOrCreateLevel_sorted with (price := price) in Hs.
  unfold addOrderTo. destruct (findOrCreateLevel better price levels) as [ls i].
  unfold side_sorted. by rewrite level_prices_append.
Qed.

Lemma dropEmptyLevels_sorted levels :
  side_sorted better levels -> side_sorted better (dropEmptyLevels levels).
Proof.
  induction levels as [| level next IH]; [ done | ]. cbn [dropEmptyLevels]. intros Hs.
  destruct (Orders level); [ | done ].
  apply IH. unfold side_sorted, level_prices in *. cbn in Hs. by apply Sorted_inv in Hs as [? _].
Qed.

End SideSorted.

(** *** No crossed book *)

Lemma buyBetter_asym a b : buyBetter a b = true -> buyBetter b a = false.
Proof. unfold buyBetter. lia. Qed.

Lemma sellBetter_asym a b : sellBetter a b = true -> sellBetter b a = false.
Proof. unfold sellBetter. lia. Qed.

Lemma price_inv_levels ob ob' :
  buyLevels ob' = buyLevels ob -> sellLevels ob' = sellLevels ob ->
  price_inv ob -> price_inv ob'.
Proof. unfold price_inv, uncrossed. by intros -> ->. Qed.

(** When [match] returns, the heads do not cross, whatever the book was
    before. *)
Lemma match_uncrossed fuel now st st' :
  match_ fuel now st = Some st' -> uncrossed (book st').
Proof.
  revert st. induction fuel as [| fuel IH]; intros st; cbn [match_]; unfold uncrossed;
    destruct (buyLevels (book st)) as [| bestBuy buyNext] eqn:Eb;
    destruct (sellLevels (book st)) as [| bestSell sellNext] eqn:Es;
    try (intros [= <-]; by rewrite ?Eb, ?Es);
    (destruct (Z.ltb_spec (Price bestBuy) (Price bestSell));
      [ intros [= <-]; by rewrite Eb, Es | ]); try done.
  destruct (processLevelMatch fuel now (Orders bestBuy) (Orders bestSell) (heap st))
    as [[[bs ss] h] | ]; [ | done ].
  apply IH.
Qed.

Lemma match_sorted fuel now st st' :
  match_ fuel now st = Some st' ->
  side_sorted buyBetter (buyLevels (book st)) ->
  side_sorted sellBetter (sellLevels (book st)) ->
  side_sorted buyBetter (buyLevels (book st')) /\
  side_sorted sellBetter (sellLevels (book st')).
Proof.
  revert st. induction fuel as [| fuel IH]; intros st; cbn [match_];
    destruct (buyLevels (book st)) as [| bestBuy buyNext] eqn:Eb;
    destruct (sellLevels (book st)) as [| bestSell sellNext] eqn:Es;
    try (intros [= <-]; by rewrite ?Eb, ?Es);
    (case_match; [ intros [= <-]; by rewrite Eb, Es | ]); try done.
  destruct (processLevelMatch fuel now (Orders bestBuy) (Orders bestSell) (heap st))
    as [[[bs ss] h] | ]; [ | done ].
  intros Hrun Hb Hs. apply (IH _ Hrun); unfold cleanupEmptyLevels;
    cbn [book buyLevels sellLevels]; by apply dropEmptyLevels_sorted.
Qed.

Lemma CancelOrder_levels now st orderID :
  buyLevels (book (fst (CancelOrder now st orderID))) = buyLevels (book st) /\
  sellLevels (book (fst (CancelOrder now st orderID))) = sellLevels (book st).
Proof.
  unfold CancelOrder. destruct (orders (book st) !! orderID) as [o | ]; [ | done ].
  by destruct (order.Cancel (deref (heap st) o) now) as [o1 [e | ]].
Qed.

Lemma AddOrder_price_inv fuel now st o st' err :
  AddOrder fuel now st o = Some (st', err) -> price_inv (book st) -> price_inv (book st').
Proof.
  unfold AddOrder. intros Hrun Hinv. case_decide; [ by injection Hrun as <- _ | ].
  destruct (tryMatch_levels now st o) as (Eb & Es & _).
  destruct (tryMatch now st o) as [st1 [e | ]]; cbn [fst] in Eb, Es.
  { injection Hrun as <- _. by eapply price_inv_levels. }
  destruct (match_ fuel now _) as [st3 | ] eqn:E; [ | done ].
  injection Hrun as <- _. destruct Hinv as (_ & Hb & Hs). rewrite <- Eb in Hb. rewrite <- Es in Hs.
  split; [ by eapply match_uncrossed | ].
  eapply match_sorted; [ exact E | | ]; unfold addToBook;
    (case_decide; [ destruct (order.Side_ (deref (heap st1) o)) | ]); cbn; try done.
  - by apply addOrderTo_sorted; [ apply buyBetter_asym | ].
  - by apply addOrderTo_sorted; [ apply sellBetter_asym | ].
Qed.

Lemma exec_price_inv fuel now st op st' :
  exec fuel now st op = Some st' -> price_inv (book st) -> price_inv (book st').
Proof.
  destruct op as [id side sym price quantity | o | orderID]; cbn [exec]; intros Hrun Hinv.
  - by destruct (order.NewOrder id now side sym price quantity); injection Hrun as <-.
  - case_decide; [ | done ].
    destruct (AddOrder fuel now st o) as [[st1 e] | ] eqn:E; [ | done ].
    injection Hrun as <-. by eapply AddOrder_price_inv.
  - injection Hrun as <-. destruct (CancelOrder_levels now st orderID) as [Eb Es].
    by eapply price_inv_levels.
Qed.

Lemma reachable_price_inv st : reachable st -> price_inv (book st).
Proof.
  induction 1 as [symbol | st fuel now op st' _ IH Hexec].
  - split; [ done | ]. split; constructor.
  - by eapply exec_price_inv.
Qed.

(** In a sorted side the head level has the best price. *)
Lemma buy_head_best bestBuy next b :
  side_sorted buyBetter (bestBuy :: next) -> b ∈ bestBuy :: next -> Price b <= Price bestBuy.
Proof.
  unfold side_sorted, level_prices. cbn. intros Hs Hb.
  apply Sorted_StronglySorted in Hs;
    [ | intros x y z; unfold no_later, buyBetter; lia ].
  apply StronglySorted_inv in Hs as [_ Hall].
  apply elem_of_cons in Hb as [-> | Hb]; [ lia | ].
  rewrite Forall_forall in Hall.
  specialize (Hall (Price b) (list_elem_of_fmap_2 Price _ _ Hb)).
  unfold no_later, buyBetter in Hall. lia.
Qed.

Lemma sell_head_best bestSell next s :
  side_sorted sellBetter (bestSell :: next) -> s ∈ bestSell :: next -> Price bestSell <= Price s.
Proof.
  unfold side_sorted, level_prices. cbn. intros Hs Hb.
  apply Sorted_StronglySorted in Hs;
    [ | intros x y z; unfold no_later, sellBetter; lia ].
  apply StronglySorted_inv in Hs as [_ Hall].
  apply elem_of_cons in Hb as [-> | Hb]; [ lia | ].
  rewrite Forall_forall in Hall.
  specialize (Hall (Price s) (list_elem_of_fmap_2 Price _ _ Hb)).
  unfold no_later, sellBetter in Hall. lia.
Qed.

(** *** When [processLevelMatch] ends *)

Lemma stays_live_refl o : stays_live o o.
Proof. by intros ?. Qed.

Lemma stays_live_trans a b c : stays_live a b -> stays_live b c -> stays_live a c.
Proof. unfold stays_live. auto. Qed.

Lemma remaining_shrinks_refl o : remaining_shrinks o o.
Proof. unfold remaining_shrinks. lia. Qed.

Lemma remaining_shrinks_trans a b c :
  remaining_shrinks a b -> remaining_shrinks b c -> remaining_shrinks a c.
Proof. unfold remaining_shrinks. lia. Qed.

Lemma store_deref h p : store h p (deref h p) = h.
Proof.
  unfold store, deref. destruct (h !! p) as [o | ] eqn:E; cbn.
  - by apply list_insert_id.
  - apply list_insert_ge. by apply lookup_ge_None.
Qed.

Lemma slack_cons h p os :
  slack h (p :: os) = S (Z.to_nat (order.RemainingQuantity (deref h p)) + slack h os).
Proof. reflexivity. Qed.

Lemma slack_le h h' os :
  (forall p, p ∈ os -> (p < length h)%nat) -> heap_rel remaining_shrinks h h' ->
  (slack h' os <= slack h os)%nat.
Proof.
  intros Hval [_ Hrel]. induction os as [| p os IH]; [ done | ].
  rewrite !slack_cons.
  assert (Hp : (p < length h)%nat) by (apply Hval, list_elem_of_here).
  specialize (Hrel p Hp). unfold remaining_shrinks in Hrel.
  assert ((slack h' os <= slack h os)%nat)
    by (apply IH; intros; by apply Hval, list_elem_of_further).
  lia.
Qed.

(** The heap after one turn of the loop of [processLevelMatch]. *)
Lemma turn_heap_rel R now h b s :
  (forall o, R o o) -> (forall a b c, R a b -> R b c -> R a c) ->
  (forall o q now, R o (fst (order.Fill o q now))) ->
  let q := min (order.RemainingQuantity (deref h b)) (order.RemainingQuantity (deref h s)) in
  let h1 := store h b (fst (order.Fill (deref h b) q now)) in
  heap_rel R h (store h1 s (fst (order.Fill (deref h1 s) q now))).
Proof.
  intros Hrefl Htrans HFill q h1.
  eapply (heap_rel_trans R Htrans); apply (heap_rel_Fill R Hrefl HFill).
Qed.

(** One turn of the loop makes progress when the two heads are different
    orders and at least one of them is not cancelled. *)
Lemma turn_progress now h b bs0 s ss0 :
  heap_ok h -> (b < length h)%nat -> (s < length h)%nat -> b <> s ->
  (forall p, p ∈ bs0 -> (p < length h)%nat) -> (forall p, p ∈ ss0 -> (p < length h)%nat) ->
  order.Status_ (deref h b) <> order.StatusCancelled \/
  order.Status_ (deref h s) <> order.StatusCancelled ->
  let q := min (order.RemainingQuantity (deref h b)) (order.RemainingQuantity (deref h s)) in
  let h1 := store h b (fst (order.Fill (deref h b) q now)) in
  let h2 := store h1 s (fst (order.Fill (deref h1 s) q now)) in
  (slack h2 (if decide (order.Status_ (deref h2 b) = order.StatusFilled) then bs0 else b :: bs0)
   + slack h2 (if decide (order.Status_ (deref h2 s) = order.StatusFilled) then ss0 else s :: ss0)
   < slack h (b :: bs0) + slack h (s :: ss0))%nat.
Proof.
  intros Hok Hb Hs Hne Hbs Hss Hlive q h1 h2.
  destruct (Hok b Hb) as [Hbb Hbf]. destruct (Hok s Hs) as [Hsb Hsf].
  assert (Hrel : heap_rel remaining_shrinks h h2).
  { apply turn_heap_rel; auto using remaining_shrinks_refl, Fill_remaining_shrinks.
    intros ? ? ?. apply remaining_shrinks_trans. }
  pose proof (slack_le h h2 bs0 Hbs Hrel) as Lb.
  pose proof (slack_le h h2 ss0 Hss Hrel) as Ls.
  assert (H1s : deref h1 s = deref h s) by (unfold h1; by rewrite deref_store_ne).
  assert (H2b : deref h2 b = deref h1 b) by (unfold h2; by rewrite deref_store_ne).
  assert (H1b : deref h1 b = fst (order.Fill (deref h b) q now))
    by (unfold h1; by rewrite deref_store_eq).
  assert (H2s : deref h2 s = fst (order.Fill (deref h s) q now)).
  { unfold h2. rewrite deref_store_eq by (unfold h1; by rewrite length_store). by rewrite H1s. }
  rewrite !slack_cons. unfold order.RemainingQuantity in *.
  destruct (Z_le_gt_dec q 0) as [Hq | Hq].
  - assert (Eb : deref h2 b = deref h b) by (by rewrite H2b, H1b, Fill_not_positive).
    assert (Es : deref h2 s = deref h s) by (by rewrite H2s, Fill_not_positive).
    assert (order.Filled (deref h b) = order.Quantity (deref h b) \/
            order.Filled (deref h s) = order.Quantity (deref h s))
      by (unfold q, min in Hq; case_match; lia).
    rewrite Eb, Es.
    repeat case_decide; rewrite ?slack_cons, ?Eb, ?Es; unfold order.RemainingQuantity;
      try lia.
    tauto.
  - assert (Hqb : q <= order.Quantity (deref h b) - order.Filled (deref h b))
      by (unfold q, min; case_match; lia).
    assert (Hqs : q <= order.Quantity (deref h s) - order.Filled (deref h s))
      by (unfold q, min; case_match; lia).
    pose proof (Fill_remaining_shrinks (deref h b) q now) as Sb.
    pose proof (Fill_remaining_shrinks (deref h s) q now) as Ss.
    unfold remaining_shrinks, order.RemainingQuantity in Sb, Ss.
    assert (Hstep :
      order.Quantity (deref h2 b) - order.Filled (deref h2 b)
        <= order.Quantity (deref h b) - order.Filled (deref h b) - q \/
      order.Quantity (deref h2 s) - order.Filled (deref h2 s)
        <= order.Quantity (deref h s) - order.Filled (deref h s) - q).
    { destruct Hlive as [Hl | Hl]; [ left | right ].
      - rewrite H2b, H1b. pose proof (Fill_takes (deref h b) q now) as Ht.
        unfold order.RemainingQuantity in Ht. rewrite Ht; [ lia | lia | done ].
      - rewrite H2s. pose proof (Fill_takes (deref h s) q now) as Ht.
        unfold order.RemainingQuantity in Ht. rewrite Ht; [ lia | lia | done ]. }
    assert (order.Quantity (deref h2 b) - order.Filled (deref h2 b)
            <= order.Quantity (deref h b) - order.Filled (deref h b))
      by (rewrite H2b, H1b; lia).
    assert (order.Quantity (deref h2 s) - order.Filled (deref h2 s)
            <= order.Quantity (deref h s) - order.Filled (deref h s))
      by (rewrite H2s; lia).
    repeat case_decide; rewrite ?slack_cons; unfold order.RemainingQuantity; lia.
Qed.

Lemma turn_ok now h b s :
  heap_ok h -> b <> s ->
  let q := min (order.RemainingQuantity (deref h b)) (order.RemainingQuantity (deref h s)) in
  let h1 := store h b (fst (order.Fill (deref h b) q now)) in
  heap_ok (store h1 s (fst (order.Fill (deref h1 s) q now))).
Proof.
  intros Hok Hne q h1. destruct (min_le (order.RemainingQuantity (deref h b))
                                        (order.RemainingQuantity (deref h s))) as [Hmb Hms].
  apply heap_ok_Fill; [ by apply heap_ok_Fill | ].
  unfold h1. by rewrite deref_store_ne.
Qed.

Lemma elem_of_if_tail {A} {P : Prop} (c : Decision P) (x p : A) (l : list A) :
  p ∈ (if c then l else x :: l) -> p ∈ x :: l.
Proof. destruct c; [ apply list_elem_of_further | done ]. Qed.

(** The loop ends when all orders are allocated, no order is on both
    queues and one of the queues has no cancelled order: [slack] bounds
    the number of turns. *)
Lemma processLevelMatch_ends now n bs ss h :
  heap_ok h ->
  (forall p, p ∈ bs -> (p < length h)%nat) -> (forall p, p ∈ ss -> (p < length h)%nat) ->
  (forall p, p ∈ bs -> p ∉ ss) ->
  all_live h bs \/ all_live h ss ->
  (slack h bs + slack h ss <= n)%nat ->
  exists r, processLevelMatch n now bs ss h = Some r.
Proof.
  revert bs ss h. induction n as [| n IH]; intros bs ss h Hok Hvb Hvs Hdis Hlive Hn;
    destruct bs as [| b bs0], ss as [| s ss0]; cbn [processLevelMatch]; eauto.
  { rewrite !slack_cons in Hn. lia. }
  assert (Hb : (b < length h)%nat) by apply Hvb, list_elem_of_here.
  assert (Hs : (s < length h)%nat) by apply Hvs, list_elem_of_here.
  assert (Hne : b <> s) by (intros ->; eapply Hdis; apply list_elem_of_here).
  pose proof (turn_ok now h b s Hok Hne) as Hok2.
  pose proof (turn_heap_rel stays_live now h b s stays_live_refl stays_live_trans
                Fill_stays_live) as [_ Hrel].
  pose proof (turn_progress now h b bs0 s ss0 Hok Hb Hs Hne
                (fun p Hp => Hvb p (list_elem_of_further _ _ _ Hp))
                (fun p Hp => Hvs p (list_elem_of_further _ _ _ Hp))) as Hprog.
  cbv zeta in Hok2, Hrel, Hprog.
  apply IH; try done.
  - intros p Hp%elem_of_if_tail. rewrite !length_store. by apply Hvb.
  - intros p Hp%elem_of_if_tail. rewrite !length_store. by apply Hvs.
  - intros p Hp%elem_of_if_tail Hq%elem_of_if_tail. by apply (Hdis p).
  - destruct Hlive as [Hl | Hl]; [ left | right ];
      intros p Hp%elem_of_if_tail; apply Hrel; auto.
  - assert (order.Status_ (deref h b) <> order.StatusCancelled \/
            order.Status_ (deref h s) <> order.StatusCancelled)
      by (destruct Hlive as [Hl | Hl]; [ left | right ]; apply Hl, list_elem_of_here).
    apply Nat.lt_succ_r. eapply Nat.lt_le_trans; [ by apply Hprog | exact Hn ].
Qed.

(** More fuel does not change the result. *)
Lemma processLevelMatch_fuel now n n' bs ss h r :
  processLevelMatch n now bs ss h = Some r -> (n <= n')%nat ->
  processLevelMatch n' now bs ss h = Some r.
Proof.
  revert n' bs ss h. induction n as [| n IH]; intros n' bs ss h;
    destruct bs as [| b bs0], ss as [| s ss0]; cbn [processLevelMatch];
    try (intros <- _; by destruct n'); try done.
  intros Hrun Hle. destruct n' as [| n']; [ lia | ]. cbn [processLevelMatch].
  apply IH; [ done | lia ].
Qed.

Lemma match_fuel now n n' st st' :
  match_ n now st = Some st' -> (n <= n')%nat -> match_ n' now st = Some st'.
Proof.
  revert n' st. induction n as [| n IH]; intros n' st Hrun Hle.
  - destruct n'; cbn [match_] in *;
      destruct (buyLevels (book st)), (sellLevels (book st)); try done;
      by destruct (_ <? _).
  - destruct n' as [| n']; [ lia | ]. cbn [match_] in *.
    destruct (buyLevels (book st)) as [| bestBuy buyNext]; [ done | ].
    destruct (sellLevels (book st)) as [| bestSell sellNext]; [ done | ].
    destruct (Price bestBuy <? Price bestSell); [ done | ].
    destruct (processLevelMatch n now (Orders bestBuy) (Orders bestSell) (heap st))
      as [[[bs ss] h] | ] eqn:E; [ | done ].
    rewrite (processLevelMatch_fuel _ _ n' _ _ _ _ E) by lia.
    apply IH; [ done | lia ].
Qed.

(** *** When [match] ends *)

(** The loop of [processLevelMatch] is left with an empty queue, and what
    is left of a queue is a tail of it. *)
Lemma processLevelMatch_exit fuel now buyOrders sellOrders h buyOrders' sellOrders' h' :
  processLevelMatch fuel now buyOrders sellOrders h = Some (buyOrders', sellOrders', h') ->
  (buyOrders' = [] \/ sellOrders' = []) /\
  buyOrders' `suffix_of` buyOrders /\ sellOrders' `suffix_of` sellOrders.
Proof.
  revert buyOrders sellOrders h.
  induction fuel as [| fuel IH]; intros bs ss h; destruct bs as [| b bs0], ss as [| s ss0];
    cbn [processLevelMatch]; try (intros [= <- <- <-]; by auto); try done.
  intros Hrun. destruct (IH _ _ _ Hrun) as (Hex & Hb & Hs). split; [ done | ].
  clear Hrun IH. split.
  - etrans; [ exact Hb | ]. clear. case_decide; [ by apply suffix_cons_r | done ].
  - etrans; [ exact Hs | ]. clear. case_decide; [ by apply suffix_cons_r | done ].
Qed.

Lemma dropEmptyLevels_subseteq levels : dropEmptyLevels levels ⊆ levels.
Proof.
  induction levels as [| level next IH]; [ done | ]. cbn [dropEmptyLevels].
  destruct (Orders level); [ by apply list_subseteq_cons | done ].
Qed.

Lemma length_dropEmptyLevels levels :
  (length (dropEmptyLevels levels) <= length levels)%nat.
Proof.
  induction levels as [| level next IH]; [ done | ]. cbn [dropEmptyLevels].
  destruct (Orders level); cbn; lia.
Qed.

Lemma match_uncrossed_returns fuel now st : uncrossed (book st) -> match_ fuel now st = Some st.
Proof.
  unfold uncrossed. destruct fuel; cbn [match_];
    destruct (buyLevels (book st)) as [| bestBuy ?]; try done;
    destruct (sellLevels (book st)) as [| bestSell ?]; try done;
    intros Hlt; by apply Z.ltb_lt in Hlt as ->.
Qed.

(** In a reachable book every bid level is priced below every ask
    level. *)
Lemma price_inv_all_pairs ob b s :
  price_inv ob -> b ∈ buyLevels ob -> s ∈ sellLevels ob -> Price b < Price s.
Proof.
  intros (Hu & Hb & Hs) Hb' Hs'. unfold uncrossed in Hu.
  destruct (buyLevels ob) as [| bestBuy buyNext]; [ by apply elem_of_nil in Hb' | ].
  destruct (sellLevels ob) as [| bestSell sellNext]; [ by apply elem_of_nil in Hs' | ].
  pose proof (buy_head_best _ _ _ Hb Hb'). pose proof (sell_head_best _ _ _ Hs Hs'). lia.
Qed.

Lemma suffix_singleton {A} (x : A) (l : list A) : l `suffix_of` [x] -> l = [] \/ l = [x].
Proof.
  destruct l as [| y l]; [ by left | ]. intros Hs. right.
  apply suffix_cons_inv in Hs as [-> | Hs]; [ done | ].
  by apply suffix_nil_inv in Hs.
Qed.

Lemma elem_of_dropEmptyLevels_cons price os next l :
  l ∈ dropEmptyLevels (mkLevel price os :: next) -> Price l = price \/ l ∈ next.
Proof.
  intros Hl%dropEmptyLevels_subseteq. apply elem_of_cons in Hl as [-> | Hl]; auto.
Qed.

Lemma uncrossed_pairs ob :
  (forall b s, b ∈ buyLevels ob -> s ∈ sellLevels ob -> Price b < Price s) -> uncrossed ob.
Proof.
  intros Hp. unfold uncrossed.
  destruct (buyLevels ob) as [| b ?]; [ done | ]. destruct (sellLevels ob) as [| s ?]; [ done | ].
  apply Hp; apply list_elem_of_here.
Qed.

(** [match] returns on a book of the shape [fresh_head] when the order at
    the head is not cancelled: every turn of its loop ends, and drops a
    level. *)
Lemma match_ends now k st o :
  (length (buyLevels (book st)) + length (sellLevels (book st)) <= k)%nat ->
  book_inv st -> order.Status_ (deref (heap st) o) <> order.StatusCancelled ->
  fresh_head st o ->
  exists n st', match_ n now st = Some st'.
Proof.
  revert st. induction k as [| k IH]; intros st Hk Hinv Hlive Hshape.
  { exists 0%nat, st. apply match_uncrossed_returns. unfold uncrossed.
    destruct (buyLevels (book st)); [ done | cbn in Hk; lia ]. }
  pose proof Hinv as (Hok & Hbuy & Hsell).
  destruct Hshape as [(price & buyNext & Eb & Hpairs) | [(price & sellNext & Es & Hpairs) | Hu]].
  - (* the order heads the bids *)
    destruct (sellLevels (book st)) as [| bestSell sellNext] eqn:Es.
    { exists 0%nat, st. apply match_uncrossed_returns. unfold uncrossed. by rewrite Eb, Es. }
    destruct (Z.ltb_spec price (Price bestSell)) as [Hlt | Hge].
    { exists 0%nat, st. apply match_uncrossed_returns. unfold uncrossed. by rewrite Eb, Es. }
    rewrite Eb in Hbuy, Hk.
    assert (Ho : order.Side_ (deref (heap st) o) = order.SideBuy)
      by (apply Hbuy; rewrite all_orders_cons; set_solver).
    assert (Hvo : (o < length (heap st))%nat).
    { eapply (side_valid _ order.SideBuy); [ done | exact Hbuy | ].
      rewrite all_orders_cons. set_solver. }
    assert (Hs : forall p, p ∈ Orders bestSell ->
              order.Side_ (deref (heap st) p) = order.SideSell)
      by (intros p Hp; apply Hsell; rewrite all_orders_cons; set_solver).
    destruct (processLevelMatch_ends now
                (slack (heap st) [o] + slack (heap st) (Orders bestSell))
                [o] (Orders bestSell) (heap st)) as [[[bs ss] h] E]; try done.
    { by intros p ->%list_elem_of_singleton. }
    { intros p Hp. eapply (side_valid _ order.SideSell); [ done | exact Hsell | ].
      rewrite all_orders_cons. set_solver. }
    { intros p ->%list_elem_of_singleton Hp. apply Hs in Hp. congruence. }
    { left. by intros p ->%list_elem_of_singleton. }
    destruct (processLevelMatch_exit _ _ _ _ _ _ _ _ E) as (Hex & Hsufb & _).
    pose proof (match_turn_inv _ now st _ _ _ _ _ _ _ Hinv Eb Es E) as Hinv1.
    pose proof (processLevelMatch_rel stays_live stays_live_refl stays_live_trans
                  Fill_stays_live _ _ _ _ _ _ _ _ E) as [_ Hrel].
    cbn [Price Orders] in Hinv1.
    set (st1 := mkState h (cleanupEmptyLevels
                  (mkBook (symbol (book st)) (mkLevel price bs :: buyNext)
                          (mkLevel (Price bestSell) ss :: sellNext) (orders (book st))))) in *.
    assert (Hlen : (length (buyLevels (book st1)) + length (sellLevels (book st1)) <= k)%nat).
    { unfold st1, cleanupEmptyLevels; cbn [book buyLevels sellLevels].
      pose proof (length_dropEmptyLevels (mkLevel price bs :: buyNext)).
      pose proof (length_dropEmptyLevels (mkLevel (Price bestSell) ss :: sellNext)).
      pose proof (length_dropEmptyLevels buyNext).
      pose proof (length_dropEmptyLevels sellNext).
      clear E Hinv1 Hrel Hsufb. cbn [length] in *.
      destruct Hex as [-> | ->]; [ destruct ss | destruct bs ];
        cbn [dropEmptyLevels Orders length] in *; lia. }
    assert (Hshape1 : fresh_head st1 o).
    { destruct (suffix_singleton _ _ Hsufb) as [-> | ->].
      - right; right. apply uncrossed_pairs.
        unfold st1, cleanupEmptyLevels; cbn [book buyLevels sellLevels dropEmptyLevels Orders].
        intros b s Hb%dropEmptyLevels_subseteq [Hp | Hin]%elem_of_dropEmptyLevels_cons.
        + rewrite Hp. apply Hpairs; [ done | apply list_elem_of_here ].
        + apply Hpairs; [ done | by apply list_elem_of_further ].
      - destruct Hex as [? | ->]; [ done | ]. left. exists price, buyNext. split; [ done | ].
        unfold st1, cleanupEmptyLevels; cbn [book buyLevels sellLevels dropEmptyLevels Orders].
        intros b s Hb Hin%dropEmptyLevels_subseteq.
        apply Hpairs; [ done | by apply list_elem_of_further ]. }
    destruct (IH st1 Hlen Hinv1 (Hrel o Hvo Hlive) Hshape1) as (n2 & st' & Hm).
    exists (S (Nat.max (slack (heap st) [o] + slack (heap st) (Orders bestSell)) n2)), st'.
    cbn [match_]. rewrite Eb, Es. cbn [Price Orders].
    destruct (Z.ltb_spec price (Price bestSell)); [ lia | ].
    rewrite (processLevelMatch_fuel _ _ _ _ _ _ _ E) by lia.
    eapply match_fuel; [ exact Hm | lia ].
  - (* the order heads the asks *)
    destruct (buyLevels (book st)) as [| bestBuy buyNext] eqn:Eb.
    { exists 0%nat, st. apply match_uncrossed_returns. unfold uncrossed. by rewrite Eb. }
    destruct (Z.ltb_spec (Price bestBuy) price) as [Hlt | Hge].
    { exists 0%nat, st. apply match_uncrossed_returns. unfold uncrossed. by rewrite Eb, Es. }
    rewrite Es in Hsell, Hk.
    assert (Ho : order.Side_ (deref (heap st) o) = order.SideSell)
      by (apply Hsell; rewrite all_orders_cons; set_solver).
    assert (Hvo : (o < length (heap st))%nat).
    { eapply (side_valid _ order.SideSell); [ done | exact Hsell | ].
      rewrite all_orders_cons. set_solver. }
    assert (Hb : forall p, p ∈ Orders bestBuy ->
              order.Side_ (deref (heap st) p) = order.SideBuy)
      by (intros p Hp; apply Hbuy; rewrite all_orders_cons; set_solver).
    destruct (processLevelMatch_ends now
                (slack (heap st) (Orders bestBuy) + slack (heap st) [o])
                (Orders bestBuy) [o] (heap st)) as [[[bs ss] h] E]; try done.
    { intros p Hp. eapply (side_valid _ order.SideBuy); [ done | exact Hbuy | ].
      rewrite all_orders_cons. set_solver. }
    { by intros p ->%list_elem_of_singleton. }
    { intros p Hp ->%list_elem_of_singleton. apply Hb in Hp. congruence. }
    { right. by intros p ->%list_elem_of_singleton. }
    destruct (processLevelMatch_exit _ _ _ _ _ _ _ _ E) as (Hex & _ & Hsufs).
    pose proof (match_turn_inv _ now st _ _ _ _ _ _ _ Hinv Eb Es E) as Hinv1.
    pose proof (processLevelMatch_rel stays_live stays_live_refl stays_live_trans
                  Fill_stays_live _ _ _ _ _ _ _ _ E) as [_ Hrel].
    cbn [Price Orders] in Hinv1.
    set (st1 := mkState h (cleanupEmptyLevels
                  (mkBook (symbol (book st)) (mkLevel (Price bestBuy) bs :: buyNext)
                          (mkLevel price ss :: sellNext) (orders (book st))))) in *.
    assert (Hlen : (length (buyLevels (book st1)) + length (sellLevels (book st1)) <= k)%nat).
    { unfold st1, cleanupEmptyLevels; cbn [book buyLevels sellLevels].
      pose proof (length_dropEmptyLevels (mkLevel (Price bestBuy) bs :: buyNext)).
      pose proof (length_dropEmptyLevels (mkLevel price ss :: sellNext)).
      pose proof (length_dropEmptyLevels buyNext).
      pose proof (length_dropEmptyLevels sellNext).
      clear E Hinv1 Hrel Hsufs. cbn [length] in *.
      destruct Hex as [-> | ->]; [ destruct ss | destruct bs ];
        cbn [dropEmptyLevels Orders length] in *; lia. }
    assert (Hshape1 : fresh_head st1 o).
    { destruct (suffix_singleton _ _ Hsufs) as [-> | ->].
      - right; right. apply uncrossed_pairs.
        unfold st1, cleanupEmptyLevels; cbn [book buyLevels sellLevels dropEmptyLevels Orders].
        intros b s [Hp | Hin]%elem_of_dropEmptyLevels_cons Hs%dropEmptyLevels_subseteq.
        + rewrite Hp. apply Hpairs; [ apply list_elem_of_here | done ].
        + apply Hpairs; [ by apply list_elem_of_further | done ].
      - destruct Hex as [-> | ?]; [ | done ]. right; left. exists price, sellNext.
        split; [ done | ].
        unfold st1, cleanupEmptyLevels; cbn [book buyLevels sellLevels dropEmptyLevels Orders].
        intros b s Hin%dropEmptyLevels_subseteq Hs.
        apply Hpairs; [ by apply list_elem_of_further | done ]. }
    destruct (IH st1 Hlen Hinv1 (Hrel o Hvo Hlive) Hshape1) as (n2 & st' & Hm).
    exists (S (Nat.max (slack (heap st) (Orders bestBuy) + slack (heap st) [o]) n2)), st'.
    cbn [match_]. rewrite Eb, Es. cbn [Price Orders].
    destruct (Z.ltb_spec (Price bestBuy) price); [ lia | ].
    rewrite (processLevelMatch_fuel _ _ _ _ _ _ _ E) by lia.
    eapply match_fuel; [ exact Hm | lia ].
  - exists 0%nat, st. by apply match_uncrossed_returns.
Qed.

(** *** [AddOrder] returns *)

(** When [AddOrder] has put the order into the book, the book has the
    shape [fresh_head]: the heads can only cross if the order opened a new
    head level. *)
Lemma addToBook_fresh_head st o : price_inv (book st) -> fresh_head (addToBook st o) o.
Proof.
  intros Hinv. pose proof Hinv as (Hu & _).
  unfold addToBook. case_decide; [ | by right; right ].
  destruct (order.Side_ (deref (heap st) o)); [ | | by right; right ].
  - unfold fresh_head, uncrossed, addBuyOrder, addOrderTo, findOrCreateLevel in *.
    cbn [book buyLevels sellLevels set_orders set_buyLevels].
    destruct (buyLevels (book st)) as [| top rest] eqn:Eb.
    { left. eexists _, []. split; [ reflexivity | ].
      intros b s Hb. by apply elem_of_nil in Hb. }
    destruct (buyBetter _ (Price top)).
    { left. eexists _, (top :: rest). split; [ reflexivity | ].
      intros b s Hb Hs. apply (price_inv_all_pairs (book st)); [ done | by rewrite Eb | done ]. }
    right; right.
    destruct (walk_head buyBetter (order.Price (deref (heap st) o)) top rest) as [tl Htl].
    destruct (walk buyBetter _ top rest) as [ls j]. cbn [fst] in Htl. subst ls.
    by destruct j.
  - unfold fresh_head, uncrossed, addSellOrder, addOrderTo, findOrCreateLevel in *.
    cbn [book buyLevels sellLevels set_orders set_sellLevels].
    destruct (sellLevels (book st)) as [| top rest] eqn:Es.
    { right; left. eexists _, []. split; [ reflexivity | ].
      intros b s _ Hs. by apply elem_of_nil in Hs. }
    destruct (sellBetter _ (Price top)).
    { right; left. eexists _, (top :: rest). split; [ reflexivity | ].
      intros b s Hb Hs. apply (price_inv_all_pairs (book st)); [ done | done | by rewrite Es ]. }
    right; right.
    destruct (walk_head sellBetter (order.Price (deref (heap st) o)) top rest) as [tl Htl].
    destruct (walk sellBetter _ top rest) as [ls j]. cbn [fst] in Htl. subst ls.
    destruct (buyLevels (book st)); [ done | ]. by destruct j.
Qed.

Lemma heap_addToBook st o : heap (addToBook st o) = heap st.
Proof. unfold addToBook. by case_decide. Qed.

(** In a reachable state, [AddOrder] of an order that is not cancelled
    returns: there is fuel enough for its call of [match]. *)
Lemma AddOrder_returns now st o :
  reachable st -> (o < length (heap st))%nat ->
  order.Status_ (deref (heap st) o) <> order.StatusCancelled ->
  exists fuel st' err, AddOrder fuel now st o = Some (st', err).
Proof.
  intros Hr Hvo Hlive. unfold AddOrder. case_decide; [ by eexists 0%nat, st, _ | ].
  pose proof (tryMatch_inv now st o (reachable_inv _ Hr)) as Hinv1.
  destruct (tryMatch_levels now st o) as (Eb & Es & _).
  pose proof (tryMatch_rel stays_live stays_live_refl stays_live_trans Fill_stays_live
                now st o) as [_ Hrel].
  specialize (Hrel o Hvo Hlive).
  pose proof (price_inv_levels _ _ Eb Es (reachable_price_inv _ Hr)) as Hprice.
  destruct (tryMatch now st o) as [st1 [e | ]]; cbn [fst] in *;
    [ by exists 0%nat, st1, (Some e) | ].
  destruct (match_ends now _ (addToBook st1 o) o (Nat.le_refl _)) as (n & st' & Hm).
  - by apply addToBook_inv.
  - by rewrite heap_addToBook.
  - by apply addToBook_fresh_head.
  - exists n, st', None. by rewrite Hm.
Qed.

(** So every call a caller can make returns, unless it hands [AddOrder]
    an order that is already cancelled. *)
Lemma exec_returns now st op :
  reachable st ->
  (forall o, op = OpAddOrder o ->
     (o < length (heap st))%nat /\
     order.Status_ (deref (heap st) o) <> order.StatusCancelled) ->
  exists fuel st', exec fuel now st op = Some st'.
Proof.
  intros Hr Hop. destruct op as [id side sym price quantity | o | orderID]; cbn [exec].
  - exists 0%nat. destruct (order.NewOrder id now side sym price quantity); eauto.
  - destruct (Hop o eq_refl) as [Hvo Hlive].
    destruct (AddOrder_returns now st o Hr Hvo Hlive) as (fuel & st' & err & Hadd).
    exists fuel, st'. rewrite decide_True by done. by rewrite Hadd.
  - exists 0%nat. eauto.
Qed.

(** *** The case in which [processLevelMatch] does not end *)

(** With a cancelled order at the head of both queues, neither [Fill]
    does anything and neither head is dropped: the loop of
    [processLevelMatch] does not end. *)
Lemma processLevelMatch_spins fuel now b bs s ss h :
  order.Status_ (deref h b) = order.StatusCancelled ->
  order.Status_ (deref h s) = order.StatusCancelled ->
  processLevelMatch fuel now (b :: bs) (s :: ss) h = None.
Proof.
  intros Hb Hs. induction fuel as [| fuel IH]; cbn [processLevelMatch]; [ done | ].
  destruct (Fill_cancelled_unchanged (deref h b)
              (min (order.RemainingQuantity (deref h b))
                   (order.RemainingQuantity (deref h s))) now Hb) as [-> _].
  rewrite store_deref.
  destruct (Fill_cancelled_unchanged (deref h s)
              (min (order.RemainingQuantity (deref h b))
                   (order.RemainingQuantity (deref h s))) now Hs) as [-> _].
  rewrite store_deref.
  rewrite !decide_False by congruence. exact IH.
Qed.

(** *** The properties of the specification *)

Import Scenarios.

Lemma after_reachable ops : run 16 (init btc) ops = Some (after ops) -> reachable (after ops).
Proof. apply run_reachable, reachable_init. Qed.

(** C1.  In every state a new book can be brought to by calls of
    [NewOrder], [AddOrder] and [CancelOrder] that have returned, a side
    has no level or the head bid level is priced strictly below the head
    ask level; whenever [GetBestBid] and [GetBestAsk] both succeed the bid
    they report is strictly below the ask; and, the levels of a side being
    in price order, every bid level is priced strictly below every ask
    level. *)
Theorem no_crossed_book (st : State) :
  reachable st ->
  (buyLevels (book st) = [] \/ sellLevels (book st) = [] \/
   exists bestBuy bestSell,
     head (buyLevels (book st)) = Some bestBuy /\
     head (sellLevels (book st)) = Some bestSell /\
     Price bestBuy < Price bestSell) /\
  (forall bid bidQty ask askQty,
     GetBestBid st = inr (bid, bidQty) -> GetBestAsk st = inr (ask, askQty) ->
     bid < ask) /\
  (forall b s, b ∈ buyLevels (book st) -> s ∈ sellLevels (book st) ->
     Price b < Price s).
Proof.
  intros Hr. apply reachable_price_inv in Hr as (Hu & Hb & Hs).
  unfold uncrossed, GetBestBid, GetBestAsk, bestOf in *.
  destruct (buyLevels (book st)) as [| bestBuy buyNext].
  { split; [ by left | ]. split; [ done | ]. intros b s Hin. by apply elem_of_nil in Hin. }
  destruct (sellLevels (book st)) as [| bestSell sellNext].
  { split; [ by right; left | ]. split; [ by destruct (Orders bestBuy) | ].
    intros b s _ Hin. by apply elem_of_nil in Hin. }
  split; [ right; right; by exists bestBuy, bestSell | ]. split.
  - intros bid bidQty ask askQty.
    destruct (Orders bestBuy); [ done | ]. destruct (Orders bestSell); [ done | ].
    by intros [= <- _] [= <- _].
  - intros b s Hb' Hs'.
    pose proof (buy_head_best _ _ _ Hb Hb'). pose proof (sell_head_best _ _ _ Hs Hs'). lia.
Qed.

Lemma no_crossed_book_witness :
  reachable (after no_match) /\
  GetBestBid (after no_match) = inr (50000, 1) /\
  GetBestAsk (after no_match) = inr (50100, 1) /\
  forall bid bidQty ask askQty,
    GetBestBid (after no_match) = inr (bid, bidQty) ->
    GetBestAsk (after no_match) = inr (ask, askQty) -> bid < ask.
Proof.
  assert (Hr : reachable (after no_match))
    by (apply after_reachable; vm_compute; reflexivity).
  split; [ exact Hr | ]. split; [ vm_compute; reflexivity | ].
  split; [ vm_compute; reflexivity | ].
  apply (no_crossed_book (after no_match) Hr).
Defined.

(** C7.  An order that is cancelled stays cancelled with the same filled
    amount through every later sequence of calls on the book, and a
    [Fill] called on it is refused and leaves it unchanged. *)
Theorem cancelled_is_terminal (fuel : nat) (st st' : State) (ops : list (Time * Op))
    (p : ptr) (q : Z) (now : Time) :
  (p < length (heap st))%nat ->
  order.Status_ (deref (heap st) p) = order.StatusCancelled ->
  run fuel st ops = Some st' ->
  (order.Status_ (deref (heap st') p) = order.StatusCancelled /\
   order.Filled (deref (heap st') p) = order.Filled (deref (heap st) p)) /\
  (fst (order.Fill (deref (heap st') p) q now) = deref (heap st') p /\
   snd (order.Fill (deref (heap st') p) q now) <> None).
Proof.
  intros Hp Hc Hrun.
  apply (run_rel cancelled_kept cancelled_kept_refl cancelled_kept_trans
           Fill_cancelled_kept Cancel_cancelled_kept) in Hrun as [_ Hrel].
  destruct (Hrel p Hp Hc) as [Hc' Hf]. split; [ done | ].
  by apply Fill_cancelled_unchanged.
Qed.

Lemma cancelled_is_terminal_witness :
  order.Status_ (deref (heap (after cancel_resting)) 0%nat) = order.StatusCancelled /\
  run 16 (after cancel_resting) sell_after_cancel
    = Some (after (cancel_resting ++ sell_after_cancel)) /\
  order.Status_ (deref (heap (after (cancel_resting ++ sell_after_cancel))) 0%nat)
    = order.StatusCancelled /\
  order.Filled (deref (heap (after (cancel_resting ++ sell_after_cancel))) 0%nat) = 0.
Proof.
  assert (Hp : (0 < length (heap (after cancel_resting)))%nat) by (vm_compute; lia).
  assert (Hc : order.Status_ (deref (heap (after cancel_resting)) 0%nat) = order.StatusCancelled)
    by (vm_compute; reflexivity).
  assert (Hrun : run 16 (after cancel_resting) sell_after_cancel
                 = Some (after (cancel_resting ++ sell_after_cancel)))
    by (vm_compute; reflexivity).
  split; [ exact Hc | ]. split; [ exact Hrun | ].
  exact (proj1 (cancelled_is_terminal 16 _ _ _ 0%nat 1 9 Hp Hc Hrun)).
Defined.

(** C9.  After [CancelOrder(id)] has succeeded, a second
    [CancelOrder(id)] returns "order not found" and changes nothing: the
    first call deleted the id from the [orders] map. *)
Theorem second_cancel_not_found (now now' : Time) (st : State) (orderID : string) :
  snd (CancelOrder now st orderID) = None ->
  orders (book (fst (CancelOrder now st orderID))) !! orderID = None /\
  CancelOrder now' (fst (CancelOrder now st orderID)) orderID
  = (fst (CancelOrder now st orderID), Some (ErrOrderNotFound orderID)).
Proof.
  unfold CancelOrder at 1 2 4 5.
  destruct (orders (book st) !! orderID) as [o | ] eqn:E; [ | done ].
  destruct (order.Cancel (deref (heap st) o) now) as [o1 [e | ]]; [ done | ].
  intros _. cbn [fst]. unfold CancelOrder. cbn [book orders set_orders].
  by rewrite lookup_delete_eq.
Qed.

Lemma second_cancel_not_found_witness :
  snd (CancelOrder 3 (after one_bid) "A") = None /\
  CancelOrder 4 (fst (CancelOrder 3 (after one_bid) "A")) "A"
  = (fst (CancelOrder 3 (after one_bid) "A"), Some (ErrOrderNotFound "A")).
Proof.
  assert (H1 : snd (CancelOrder 3 (after one_bid) "A") = None) by (vm_compute; reflexivity).
  split; [ exact H1 | ].
  exact (proj2 (second_cancel_not_found 3 4 (after one_bid) "A" H1)).
Defined.

(** C2 (fails on the code).  Buy A 1@50000 rests and is cancelled;
    [CancelOrder] leaves it at the head of its level.  Sell B 1@50000 is
    then admitted: [tryMatch] skips A, B rests, and [processLevelMatch]
    pairs B with A, drops the error of [A.Fill] and fills B.  The sell side
    has 1 filled and the buy side 0. *)
Theorem conservation_broken_by_cancelled_head :
  run 16 (init btc) (cancel_resting ++ sell_after_cancel)
    = Some (after (cancel_resting ++ sell_after_cancel)) /\
  heap (after (cancel_resting ++ sell_after_cancel))
    = [ order.mkOrder "A" order.SideBuy btc 50000 1 0 order.StatusCancelled 1 3;
        order.mkOrder "B" order.SideSell btc 50000 1 1 order.StatusFilled 4 5 ] /\
  totalFilled order.SideBuy (heap (after (cancel_resting ++ sell_after_cancel))) = 0 /\
  totalFilled order.SideSell (heap (after (cancel_resting ++ sell_after_cancel))) = 1.
Proof. repeat split; vm_compute; reflexivity. Qed.

(** C3 (fails on the code).  After Buy A 1@50000 is admitted and
    [CancelOrder("A")] succeeds, A is cancelled, but it is still in the
    queue of the 50000 bid level, the level is still there, and
    [GetBestBid] succeeds with price 50000 and quantity 1. *)
Theorem cancelled_order_stays_in_level :
  run 16 (init btc) one_bid = Some (after one_bid) /\
  CancelOrder 3 (after one_bid) "A" = (after cancel_resting, None) /\
  order.Status_ (deref (heap (after cancel_resting)) 0%nat) = order.StatusCancelled /\
  buyLevels (book (after cancel_resting)) = [ mkLevel 50000 [0%nat] ] /\
  GetBestBid (after cancel_resting) = inr (50000, 1).
Proof. repeat split; vm_compute; reflexivity. Qed.

(** C8 (fails on the code).  With a bid level at 50100 in front, Buy A
    and then Buy B are admitted at 50000: [findOrCreateBuyLevel] does not
    find A's level and links a second 50000 level in front of it for B.
    Sell S 2@50000 then fills X and B; A, admitted before B at the same
    price, gets nothing. *)
Theorem later_order_filled_first :
  run 16 (init btc) (two_behind_best ++ sell_two)
    = Some (after (two_behind_best ++ sell_two)) /\
  buyLevels (book (after two_behind_best))
    = [ mkLevel 50100 [0%nat]; mkLevel 50000 [2%nat]; mkLevel 50000 [1%nat] ] /\
  heap (after (two_behind_best ++ sell_two))
    = [ order.mkOrder "X" order.SideBuy btc 50100 1 1 order.StatusFilled 1 8;
        order.mkOrder "A" order.SideBuy btc 50000 1 0 order.StatusNew 3 3;
        order.mkOrder "B" order.SideBuy btc 50000 1 1 order.StatusFilled 5 8;
        order.mkOrder "S" order.SideSell btc 50000 2 2 order.StatusFilled 7 8 ].
Proof. repeat split; vm_compute; reflexivity. Qed.

(** C10.  There is a reachable state in which [GetBestBid] succeeds with
    aggregate quantity 0: after Buy A 1@50000 has been filled exactly by
    Sell B 1@50000, A is [StatusFilled] and still alone in the 50000 bid
    level, and [GetBestBid] returns (50000, 0). *)
Theorem stale_best_bid :
  exists st,
    reachable st /\
    buyLevels (book st) = [ mkLevel 50000 [0%nat] ] /\
    order.Status_ (deref (heap st) 0%nat) = order.StatusFilled /\
    GetBestBid st = inr (50000, 0).
Proof.
  exists (after exact_fill). split.
  - apply after_reachable. vm_compute. reflexivity.
  - repeat split; vm_compute; reflexivity.
Qed.

(** *** [GetOrder] and the [orders] map *)

Lemma find_ID_Some h (os : list ptr) orderID p :
  List.find (fun o => bool_decide (order.ID (deref h o) = orderID)) os = Some p ->
  p ∈ os /\ order.ID (deref h p) = orderID.
Proof.
  induction os as [| o os IH]; cbn [List.find]; [ done | ].
  case_bool_decide as Hid.
  - intros [= <-]. split; [ apply list_elem_of_here | done ].
  - intros Hf. destruct (IH Hf). split; [ by apply list_elem_of_further | done ].
Qed.

Lemma find_ID_None h (os : list ptr) orderID :
  (forall p, p ∈ os -> order.ID (deref h p) <> orderID) ->
  List.find (fun o => bool_decide (order.ID (deref h o) = orderID)) os = None.
Proof.
  induction os as [| o os IH]; cbn [List.find]; [ done | ]. intros Hall.
  case_bool_decide as Hid.
  - exfalso. eapply Hall; [ apply list_elem_of_here | done ].
  - apply IH. intros p Hp. apply Hall. by apply list_elem_of_further.
Qed.

Lemma findOrder_Some h levels orderID p :
  findOrder h levels orderID = Some p ->
  p ∈ all_orders levels /\ order.ID (deref h p) = orderID.
Proof.
  induction levels as [| l next IH]; cbn [findOrder]; [ done | ].
  rewrite all_orders_cons, elem_of_app.
  destruct (List.find _ (Orders l)) as [o | ] eqn:E.
  - intros [= <-]. apply find_ID_Some in E as [? ?]. auto.
  - intros Hf. destruct (IH Hf). auto.
Qed.

Lemma findOrder_None h levels orderID :
  (forall p, p ∈ all_orders levels -> order.ID (deref h p) <> orderID) ->
  findOrder h levels orderID = None.
Proof.
  induction levels as [| l next IH]; cbn [findOrder]; [ done | ]. intros Hall.
  rewrite find_ID_None.
  - apply IH. intros p Hp. apply Hall. rewrite all_orders_cons, elem_of_app. by right.
  - intros p Hp. apply Hall. rewrite all_orders_cons, elem_of_app. by left.
Qed.

(** [GetOrder] returns an order only if a level queue of a side holds
    it. *)
Lemma GetOrder_found st orderID p :
  GetOrder st orderID = inr p ->
  p ∈ all_orders (buyLevels (book st)) ++ all_orders (sellLevels (book st)) /\
  order.ID (deref (heap st) p) = orderID.
Proof.
  unfold GetOrder. rewrite elem_of_app.
  destruct (findOrder (heap st) (buyLevels (book st)) orderID) as [o | ] eqn:Eb.
  { intros [= <-]. apply findOrder_Some in Eb as [? ?]. auto. }
  destruct (findOrder (heap st) (sellLevels (book st)) orderID) as [o | ] eqn:Es; [ | done ].
  intros [= <-]. apply findOrder_Some in Es as [? ?]. auto.
Qed.

Lemma GetOrder_not_found st orderID :
  (forall p, p ∈ all_orders (buyLevels (book st)) ++ all_orders (sellLevels (book st)) ->
             order.ID (deref (heap st) p) <> orderID) ->
  GetOrder st orderID = inl (ErrOrderNotFound orderID).
Proof.
  intros Hall. unfold GetOrder.
  rewrite !findOrder_None; [ done | | ]; intros p Hp; apply Hall; rewrite elem_of_app; auto.
Qed.

(** [tryMatch] only ever deletes from the [orders] map. *)
Lemma tryMatchLevel_orders now o resting h idx :
  (tryMatchLevel now o resting h idx).1.2 ⊆ idx.
Proof.
  revert h idx. induction resting as [| r rest IH]; intros h idx; cbn [tryMatchLevel]; [ done | ].
  case_decide; [ apply IH | ].
  case_match; [ apply IH | ].
  destruct (order.Fill (deref h o) _ now) as [o1 [e | ]]; [ done | ].
  destruct (order.Fill (deref (store h o o1) r) _ now) as [r1 [e | ]]; [ done | ].
  set (idx' := if decide (order.Status_ (deref (store (store h o o1) r r1) r)
                          = order.StatusFilled)
               then delete (order.ID (deref (store (store h o o1) r r1) r)) idx
               else idx).
  assert (Hdel : idx' ⊆ idx).
  { unfold idx'. case_decide; [ apply delete_subseteq | done ]. }
  clearbody idx'. case_decide; [ exact Hdel | ].
  etrans; [ apply IH | exact Hdel ].
Qed.

Lemma tryMatchLevels_orders now o isAggressive levels h idx :
  (tryMatchLevels now o isAggressive levels h idx).1.2 ⊆ idx.
Proof.
  revert h idx. induction levels as [| level next IH]; intros h idx; cbn [tryMatchLevels]; [ done | ].
  case_decide; [ done | ].
  case_match; [ done | ].
  pose proof (tryMatchLevel_orders now o (Orders level) h idx) as H1.
  destruct (tryMatchLevel now o (Orders level) h idx) as [[h' idx'] [e | ]]; cbn in H1; [ done | ].
  etrans; [ apply IH | exact H1 ].
Qed.

Lemma tryMatch_orders now st o :
  orders (book (fst (tryMatch now st o))) ⊆ orders (book st).
Proof.
  unfold tryMatch.
  destruct (match order.Side_ (deref (heap st) o) with
            | order.SideBuy => _ | order.SideSell => _ | order.SideOther => _ end)
    as [levels aggressive].
  pose proof (tryMatchLevels_orders now o aggressive levels (heap st) (orders (book st))) as H1.
  destruct (tryMatchLevels now o aggressive levels (heap st) (orders (book st)))
    as [[h idx] e]. exact H1.
Qed.

(** C5 (fails on the code).  Buy A 1@50000 rests and Sell B 1@50000 is
    fully consumed against it during its own admission.  B is
    [StatusFilled], yet [GetOrder("B")] returns "order not found" and the
    [orders] map has no entry for "B": [AddOrder] enters an order in the
    map only when it is not filled, and [GetOrder] searches the level
    queues, not the map.  A, [StatusFilled] too, is found by [GetOrder]
    only because it is still in the queue of its bid level. *)
Theorem consumed_order_not_queryable :
  run 16 (init btc) exact_fill = Some (after exact_fill) /\
  heap (after exact_fill)
    = [ order.mkOrder "A" order.SideBuy btc 50000 1 1 order.StatusFilled 1 4;
        order.mkOrder "B" order.SideSell btc 50000 1 1 order.StatusFilled 3 4 ] /\
  GetOrder (after exact_fill) "B" = inl (ErrOrderNotFound "B") /\
  orders (book (after exact_fill)) !! "B" = None /\
  GetOrder (after exact_fill) "A" = inr 0%nat /\
  buyLevels (book (after exact_fill)) = [ mkLevel 50000 [0%nat] ] /\
  orders (book (after exact_fill)) !! "A" = None.
Proof. repeat split; vm_compute; reflexivity. Qed.

(** What the example shows holds in general.  [GetOrder] returns an order
    only if a level queue of a side holds it.  An order that the matching
    pass of its own admission fills completely ([StatusFilled] when
    [tryMatch] returns) is not put into a level queue and not entered in
    the [orders] map: if no order held by a side carried its id and the
    map had no entry for it, then after the admission the map has no entry
    for the id and [GetOrder] on it returns "order not found". *)
Lemma consumed_on_admission_not_indexed (fuel : nat) (now : Time)
    (st st' : State) (o : ptr) :
  reachable st ->
  Forall (fun p => order.ID (deref (heap st) p) <> order.ID (deref (heap st) o))
         (all_orders (buyLevels (book st)) ++ all_orders (sellLevels (book st))) ->
  orders (book st) !! order.ID (deref (heap st) o) = None ->
  AddOrder fuel now st o = Some (st', None) ->
  order.Status_ (deref (heap (fst (tryMatch now st o))) o) = order.StatusFilled ->
  ((o ∉ all_orders (buyLevels (book st')) ++ all_orders (sellLevels (book st'))) /\
   orders (book st') !! order.ID (deref (heap st) o) = None /\
   GetOrder st' (order.ID (deref (heap st) o))
   = inl (ErrOrderNotFound (order.ID (deref (heap st) o)))) /\
  (forall orderID p,
     GetOrder st' orderID = inr p ->
     p ∈ all_orders (buyLevels (book st')) ++ all_orders (sellLevels (book st')) /\
     order.ID (deref (heap st') p) = orderID).
Proof.
  intros Hr Hids Hidx Hadd Hfilled. split; [ | intros orderID p; apply GetOrder_found ].
  pose proof (AddOrder_rel same_identity same_identity_refl same_identity_trans
                Fill_same_identity _ _ _ _ _ _ Hadd) as [_ Hid].
  apply reachable_inv in Hr as (_ & Hbuy & Hsell).
  rewrite Forall_forall in Hids.
  unfold AddOrder in Hadd. case_decide; [ done | ].
  destruct (tryMatch_levels now st o) as (Eb & Es & _).
  pose proof (tryMatch_orders now st o) as Hsub.
  destruct (tryMatch now st o) as [st1 [e | ]]; cbn [fst] in *; [ done | ].
  unfold addToBook in Hadd. rewrite decide_False in Hadd by (by intros ?).
  destruct (match_ fuel now st1) as [st3 | ] eqn:E; [ | done ]. injection Hadd as <-.
  destruct (match_subseteq _ _ _ _ E) as (Hb & Hs & Ho & _).
  rewrite Eb in Hb. rewrite Es in Hs.
  assert (Hin : forall p,
            p ∈ all_orders (buyLevels (book st3)) ++ all_orders (sellLevels (book st3)) ->
            p ∈ all_orders (buyLevels (book st)) ++ all_orders (sellLevels (book st)) /\
            (p < length (heap st))%nat).
  { intros p. rewrite !elem_of_app. intros [Hp | Hp].
    - apply Hb in Hp. split; [ by left | by eapply side_valid; [ | exact Hbuy | ] ].
    - apply Hs in Hp. split; [ by right | by eapply side_valid; [ | exact Hsell | ] ]. }
  split; [ | split ].
  - intros Ho'. destruct (Hin o Ho') as [Ho'' _]. by apply Hids in Ho''.
  - rewrite Ho. by eapply lookup_weaken_None.
  - apply GetOrder_not_found. intros p Hp. destruct (Hin p Hp) as [Hp' Hlt].
    destruct (Hid p Hlt) as (-> & _). by apply Hids.
Qed.

End BookProps.

(** ** More on the order entity *)
Module OrderMore.
Import order Invariants OrderProps.

(** X17.  What [Cancel] returns.  It succeeds exactly on an order that is
    not [StatusFilled]; on a filled order it returns its error and leaves
    the order as it was.  After a [Cancel] that succeeded the order is
    [StatusCancelled] and not active, its filled amount is what it was and
    [UpdatedAt] is the time of the call; every [Fill] of a positive
    quantity on it is refused and changes nothing; and another [Cancel]
    succeeds and only moves [UpdatedAt]. *)
Theorem Cancel_outcome (o : Order) (now : Time) :
  (snd (Cancel o now) = None <-> Status_ o <> StatusFilled) /\
  (forall e, snd (Cancel o now) = Some e -> e = ErrCancelFilled /\ fst (Cancel o now) = o) /\
  (snd (Cancel o now) = None ->
   Status_ (fst (Cancel o now)) = StatusCancelled /\
   IsActive (fst (Cancel o now)) = false /\
   Filled (fst (Cancel o now)) = Filled o /\
   UpdatedAt (fst (Cancel o now)) = now /\
   same_identity o (fst (Cancel o now)) /\
   (forall q t, 0 < q ->
      Fill (fst (Cancel o now)) q t = (fst (Cancel o now), Some ErrFillCancelled)) /\
   (forall t, Cancel (fst (Cancel o now)) t
              = (set_UpdatedAt t (fst (Cancel o now)), None))).
Proof.
  unfold Cancel. case_decide as Hf; cbn [fst snd].
  - split; [ by split | ]. split; [ | done ]. by intros e [= <-].
  - split; [ by split | ]. split; [ done | ]. intros _.
    split; [ done | ]. split; [ unfold IsActive; cbn; apply andb_false_r | ].
    split; [ done | ]. split; [ done | ]. split; [ by repeat split | ].
    split.
    + intros q t Hq. unfold Fill. destruct (Z.leb_spec q 0); [ lia | ]. done.
    + intros t. done.
Qed.

(** X18.  On a well-formed order [IsActive] says that the order is not
    cancelled and that something remains to be filled. *)
Theorem IsActive_iff_open (o : Order) :
  order_ok o ->
  (IsActive o = true <-> Status_ o <> StatusCancelled /\ 0 < RemainingQuantity o) /\
  0 <= RemainingQuantity o <= Quantity o.
Proof.
  intros [Hb Hs]. unfold IsActive, RemainingQuantity. split; [ | lia ].
  rewrite andb_true_iff, !bool_decide_eq_true. split.
  - intros [Hf Hc]. split; [ done | ].
    destruct (decide (Filled o = Quantity o)) as [He | He]; [ by apply Hs in He | lia ].
  - intros [Hc Hr]. split; [ | done ]. intros Hf. apply Hs in Hf. lia.
Qed.

Lemma IsActive_iff_open_witness :
  order_ok half_filled /\ IsActive half_filled = true.
Proof.
  assert (Hok : order_ok half_filled).
  { unfold order_ok, half_filled; cbn. split; [ lia | ]. split; [ done | lia ]. }
  split; [ exact Hok | ].
  apply (proj1 (IsActive_iff_open half_filled Hok)).
  split; [ done | ]. unfold RemainingQuantity, half_filled; cbn. lia.
Defined.

End OrderMore.

(** ** More on the order book *)
Module BookMore.
Import orderbook Invariants OrderProps BookProps Scenarios.

Import MoreScenarios.

(** *** What no call changes *)

Lemma Cancel_filled_grows o now : filled_grows o (fst (order.Cancel o now)).
Proof. unfold filled_grows, order.Cancel. case_decide; cbn; lia. Qed.

Lemma Fill_filled_grows o q now : filled_grows o (fst (order.Fill o q now)).
Proof.
  pose proof (Fill_remaining_shrinks o q now) as H. destruct (Fill_same_identity o q now)
    as (_ & _ & _ & _ & Hq & _).
  unfold remaining_shrinks, order.RemainingQuantity, filled_grows in *. lia.
Qed.

Lemma filled_grows_refl o : filled_grows o o.
Proof. unfold filled_grows. lia. Qed.

Lemma filled_grows_trans a b c : filled_grows a b -> filled_grows b c -> filled_grows a c.
Proof. unfold filled_grows. lia. Qed.

(** X1.  No sequence of calls on the book changes the ID, side, symbol,
    price, quantity or creation time of an order in memory, and no order
    goes away. *)
Theorem identity_fields_never_change (fuel : nat) (st st' : State)
    (ops : list (Time * Op)) (p : ptr) :
  run fuel st ops = Some st' -> (p < length (heap st))%nat ->
  (length (heap st) <= length (heap st'))%nat /\
  order.ID (deref (heap st') p) = order.ID (deref (heap st) p) /\
  order.Side_ (deref (heap st') p) = order.Side_ (deref (heap st) p) /\
  order.Symbol (deref (heap st') p) = order.Symbol (deref (heap st) p) /\
  order.Price (deref (heap st') p) = order.Price (deref (heap st) p) /\
  order.Quantity (deref (heap st') p) = order.Quantity (deref (heap st) p) /\
  order.CreatedAt (deref (heap st') p) = order.CreatedAt (deref (heap st) p).
Proof.
  intros Hrun Hp.
  destruct (run_rel same_identity same_identity_refl same_identity_trans
              Fill_same_identity Cancel_same_identity _ _ _ _ Hrun) as [Hlen Hrel].
  split; [ done | ]. exact (Hrel p Hp).
Qed.

Lemma identity_fields_never_change_witness :
  run 16 (after partial_fill) two_more = Some (after (partial_fill ++ two_more)) /\
  order.ID (deref (heap (after (partial_fill ++ two_more))) 0%nat) = "A" /\
  order.Quantity (deref (heap (after (partial_fill ++ two_more))) 0%nat)
  = order.Quantity (deref (heap (after partial_fill)) 0%nat).
Proof.
  assert (Hrun : run 16 (after partial_fill) two_more
                 = Some (after (partial_fill ++ two_more))) by (vm_compute; reflexivity).
  assert (Hp : (0 < length (heap (after partial_fill)))%nat) by (vm_compute; lia).
  split; [ exact Hrun | ]. split; [ vm_compute; reflexivity | ].
  exact (proj1 (proj2 (proj2 (proj2 (proj2 (proj2
    (identity_fields_never_change 16 _ _ _ 0%nat Hrun Hp))))))).
Defined.

(** X2.  Through every sequence of calls on the book the filled amount
    of an order only grows. *)
Theorem filled_never_decreases (fuel : nat) (st st' : State)
    (ops : list (Time * Op)) (p : ptr) :
  run fuel st ops = Some st' -> (p < length (heap st))%nat ->
  order.Filled (deref (heap st) p) <= order.Filled (deref (heap st') p).
Proof.
  intros Hrun Hp.
  destruct (run_rel filled_grows filled_grows_refl filled_grows_trans
              Fill_filled_grows Cancel_filled_grows _ _ _ _ Hrun) as [_ Hrel].
  exact (Hrel p Hp).
Qed.

Lemma filled_never_decreases_witness :
  run 16 (after one_bid) [ (3, newSell "B" 50000 1); (4, OpAddOrder 1%nat) ]
    = Some (after exact_fill) /\
  order.Filled (deref (heap (after one_bid)) 0%nat) = 0 /\
  order.Filled (deref (heap (after exact_fill)) 0%nat) = 1 /\
  order.Filled (deref (heap (after one_bid)) 0%nat)
  <= order.Filled (deref (heap (after exact_fill)) 0%nat).
Proof.
  assert (Hrun : run 16 (after one_bid) [ (3, newSell "B" 50000 1); (4, OpAddOrder 1%nat) ]
                 = Some (after exact_fill)) by (vm_compute; reflexivity).
  assert (Hp : (0 < length (heap (after one_bid)))%nat) by (vm_compute; lia).
  split; [ exact Hrun | ]. split; [ vm_compute; reflexivity | ].
  split; [ vm_compute; reflexivity | ].
  exact (filled_never_decreases 16 _ _ _ 0%nat Hrun Hp).
Defined.

(** X3.  In a reachable state an order that is [StatusFilled] stays
    [StatusFilled], with the same filled amount, through every later
    sequence of calls on the book. *)
Theorem filled_is_terminal (fuel : nat) (st st' : State)
    (ops : list (Time * Op)) (p : ptr) :
  reachable st -> run fuel st ops = Some st' -> (p < length (heap st))%nat ->
  order.Status_ (deref (heap st) p) = order.StatusFilled ->
  order.Status_ (deref (heap st') p) = order.StatusFilled /\
  order.Filled (deref (heap st') p) = order.Filled (deref (heap st) p).
Proof.
  intros Hr Hrun Hp Hf.
  pose proof (run_reachable _ _ _ _ Hr Hrun) as Hr'.
  apply reachable_inv in Hr as (Hok & _). apply reachable_inv in Hr' as (Hok' & _).
  destruct (run_rel same_identity same_identity_refl same_identity_trans
              Fill_same_identity Cancel_same_identity _ _ _ _ Hrun) as [Hlen Hid].
  destruct (Hid p Hp) as (_ & _ & _ & _ & Hq & _).
  destruct (run_rel filled_grows filled_grows_refl filled_grows_trans
              Fill_filled_grows Cancel_filled_grows _ _ _ _ Hrun) as [_ Hgrow].
  specialize (Hgrow p Hp). unfold filled_grows in Hgrow.
  destruct (Hok p Hp) as [Hb Hs]. destruct (Hok' p ltac:(lia)) as [Hb' Hs'].
  apply Hs in Hf. assert (order.Filled (deref (heap st') p) = order.Filled (deref (heap st) p))
    by lia.
  split; [ apply Hs'; lia | done ].
Qed.

Lemma filled_is_terminal_witness :
  reachable (after partial_fill) /\
  run 16 (after partial_fill) two_more = Some (after (partial_fill ++ two_more)) /\
  order.Status_ (deref (heap (after partial_fill)) 1%nat) = order.StatusFilled /\
  order.Status_ (deref (heap (after (partial_fill ++ two_more))) 1%nat) = order.StatusFilled.
Proof.
  assert (Hr : reachable (after partial_fill))
    by (apply after_reachable; vm_compute; reflexivity).
  assert (Hrun : run 16 (after partial_fill) two_more
                 = Some (after (partial_fill ++ two_more))) by (vm_compute; reflexivity).
  assert (Hp : (1 < length (heap (after partial_fill)))%nat) by (vm_compute; lia).
  assert (Hf : order.Status_ (deref (heap (after partial_fill)) 1%nat) = order.StatusFilled)
    by (vm_compute; reflexivity).
  split; [ exact Hr | ]. split; [ exact Hrun | ]. split; [ exact Hf | ].
  exact (proj1 (filled_is_terminal 16 _ _ _ 1%nat Hr Hrun Hp Hf)).
Defined.

(** *** How [CancelOrder] fails and what it changes *)

Lemma state_eta st : mkState (heap st) (book st) = st.
Proof. by destruct st. Qed.

(** X4.  A [CancelOrder] that returns an error changes nothing.  The error
    is "order not found" exactly when the [orders] map has no entry for
    the id, and "cannot cancel filled order" exactly when the order the map
    gives is [StatusFilled]. *)
Theorem CancelOrder_failure_changes_nothing (now : Time) (st : State)
    (orderID : string) (e : error) :
  snd (CancelOrder now st orderID) = Some e ->
  fst (CancelOrder now st orderID) = st /\
  ((e = ErrOrderNotFound orderID /\ orders (book st) !! orderID = None) \/
   (e = ErrCancelFilled /\
    exists o, orders (book st) !! orderID = Some o /\
              order.Status_ (deref (heap st) o) = order.StatusFilled)).
Proof.
  unfold CancelOrder. destruct (orders (book st) !! orderID) as [o | ] eqn:E.
  - unfold order.Cancel. case_decide as Hf; cbn; [ | done ].
    intros [= <-]. rewrite store_deref, state_eta. split; [ done | ]. right. eauto.
  - cbn. intros [= <-]. split; [ done | ]. by left.
Qed.

Lemma CancelOrder_failure_changes_nothing_witness :
  snd (CancelOrder 9 (after (cancel_resting ++ sell_after_cancel)) "B")
    = Some ErrCancelFilled /\
  fst (CancelOrder 9 (after (cancel_resting ++ sell_after_cancel)) "B")
    = after (cancel_resting ++ sell_after_cancel).
Proof.
  assert (H : snd (CancelOrder 9 (after (cancel_resting ++ sell_after_cancel)) "B")
              = Some ErrCancelFilled) by (vm_compute; reflexivity).
  split; [ exact H | ].
  exact (proj1 (CancelOrder_failure_changes_nothing 9 _ "B" ErrCancelFilled H)).
Defined.

(** The [orders] map of a reachable state. *)
Lemma index_ok_rel h h' idx idx' :
  heap_rel same_identity h h' -> idx' ⊆ idx -> index_ok h idx -> index_ok h' idx'.
Proof.
  intros [Hlen Hrel] Hsub Hok id p Hp.
  destruct (Hok id p (lookup_weaken _ _ _ _ Hp Hsub)) as [Hv Hid].
  split; [ lia | ]. destruct (Hrel p Hv) as (-> & _). done.
Qed.

Lemma AddOrder_index fuel now st o st' err :
  AddOrder fuel now st o = Some (st', err) -> (o < length (heap st))%nat ->
  index_ok (heap st) (orders (book st)) -> index_ok (heap st') (orders (book st')).
Proof.
  intros Hadd Hvo Hok.
  pose proof (AddOrder_rel same_identity same_identity_refl same_identity_trans
                Fill_same_identity _ _ _ _ _ _ Hadd) as Hid.
  unfold AddOrder in Hadd. case_decide; [ by injection Hadd as <- _ | ].
  pose proof (tryMatch_orders now st o) as Hsub.
  pose proof (tryMatch_rel same_identity same_identity_refl same_identity_trans
                Fill_same_identity now st o) as Hid1.
  destruct (tryMatch now st o) as [st1 [e | ]]; cbn [fst] in *.
  { injection Hadd as <- _. by eapply index_ok_rel. }
  destruct (match_ fuel now (addToBook st1 o)) as [st3 | ] eqn:E; [ | done ].
  injection Hadd as <- _.
  destruct (match_subseteq _ _ _ _ E) as (_ & _ & -> & _).
  pose proof (match_rel same_identity same_identity_refl same_identity_trans
                Fill_same_identity _ _ _ _ E) as Hid3.
  eapply index_ok_rel; [ exact Hid3 | done | ].
  pose proof (index_ok_rel _ _ _ _ Hid1 Hsub Hok) as Hok1.
  unfold addToBook. case_decide; [ | done ]. cbn [heap book orders set_orders].
  intros id p. destruct Hid1 as [Hlen _].
  destruct (decide (order.ID (deref (heap st1) o) = id)) as [<- | Hne].
  - rewrite lookup_insert_eq. intros [= <-]. split; [ lia | done ].
  - rewrite lookup_insert_ne by done.
    destruct (order.Side_ (deref (heap st1) o)); apply Hok1.
Qed.

Lemma exec_index fuel now st op st' :
  exec fuel now st op = Some st' ->
  index_ok (heap st) (orders (book st)) -> index_ok (heap st') (orders (book st')).
Proof.
  intros Hrun Hok. pose proof (exec_same_identity _ _ _ _ _ Hrun) as Hid.
  destruct op as [id side sym price quantity | o | orderID]; cbn [exec] in Hrun.
  - destruct (order.NewOrder id now side sym price quantity); injection Hrun as <-;
      [ done | ]. by eapply index_ok_rel.
  - case_decide; [ | done ].
    destruct (AddOrder fuel now st o) as [[st1 e] | ] eqn:E; [ | done ].
    injection Hrun as <-. by eapply AddOrder_index.
  - injection Hrun as <-. eapply index_ok_rel; [ exact Hid | | exact Hok ].
    unfold CancelOrder. destruct (orders (book st) !! orderID) as [o | ]; [ | done ].
    destruct (order.Cancel (deref (heap st) o) now) as [o1 [e | ]]; cbn; [ done | ].
    apply delete_subseteq.
Qed.

Lemma reachable_index st : reachable st -> index_ok (heap st) (orders (book st)).
Proof.
  induction 1 as [symbol | st fuel now op st' _ IH Hexec].
  - intros id p Hp. cbn in Hp. by rewrite lookup_empty in Hp.
  - by eapply exec_index.
Qed.

(** X5.  In a reachable state a [CancelOrder] that succeeds cancels an
    order that carries the id: that order becomes [StatusCancelled] with
    its filled amount unchanged and [UpdatedAt] set to the time of the
    call.  Every other order, the level queues of both sides and the
    entries of the [orders] map for other ids stay as they were, and the
    entry for the id is gone. *)
Theorem CancelOrder_success (now : Time) (st : State) (orderID : string) :
  reachable st -> snd (CancelOrder now st orderID) = None ->
  exists o,
    orders (book st) !! orderID = Some o /\
    order.ID (deref (heap st) o) = orderID /\
    order.Status_ (deref (heap (fst (CancelOrder now st orderID))) o) = order.StatusCancelled /\
    order.Filled (deref (heap (fst (CancelOrder now st orderID))) o)
      = order.Filled (deref (heap st) o) /\
    order.UpdatedAt (deref (heap (fst (CancelOrder now st orderID))) o) = now /\
    (forall p, p <> o ->
       deref (heap (fst (CancelOrder now st orderID))) p = deref (heap st) p) /\
    buyLevels (book (fst (CancelOrder now st orderID))) = buyLevels (book st) /\
    sellLevels (book (fst (CancelOrder now st orderID))) = sellLevels (book st) /\
    orders (book (fst (CancelOrder now st orderID))) = delete orderID (orders (book st)).
Proof.
  intros Hr%reachable_index. unfold CancelOrder.
  destruct (orders (book st) !! orderID) as [o | ] eqn:E; [ | done ].
  destruct (Hr _ _ E) as [Hvo Hid].
  unfold order.Cancel. case_decide as Hf; cbn; [ done | ]. intros _.
  exists o. rewrite deref_store_eq by done. repeat split; try done.
  intros p Hne. by rewrite deref_store_ne.
Qed.

Lemma CancelOrder_success_witness :
  reachable (after one_bid) /\
  snd (CancelOrder 3 (after one_bid) "A") = None /\
  exists o, orders (book (after one_bid)) !! "A" = Some o /\
            order.Status_ (deref (heap (fst (CancelOrder 3 (after one_bid) "A"))) o)
            = order.StatusCancelled.
Proof.
  assert (Hr : reachable (after one_bid)) by (apply after_reachable; vm_compute; reflexivity).
  assert (H : snd (CancelOrder 3 (after one_bid) "A") = None) by (vm_compute; reflexivity).
  split; [ exact Hr | ]. split; [ exact H | ].
  destruct (CancelOrder_success 3 (after one_bid) "A" Hr H) as (o & Ho & _ & Hs & _).
  exists o. split; [ exact Ho | exact Hs ].
Defined.

(** *** How [AddOrder] fails *)

(** [tryMatch] only calls [Fill] with a quantity that is not [<= 0], so
    the refusals it can get are the other two. *)
Lemma Fill_error_cases o q now e :
  (q <=? 0) = false -> snd (order.Fill o q now) = Some e ->
  e = ErrFillCancelled \/ e = ErrFillExceeds.
Proof.
  intros Hq. unfold order.Fill. rewrite Hq.
  case_decide; [ intros [= <-]; by left | ].
  destruct (_ <? _); [ intros [= <-]; by right | ].
  by destruct (_ =? _).
Qed.

Lemma tryMatchLevel_error_cases now o resting h idx e :
  (tryMatchLevel now o resting h idx).2 = Some e ->
  e = ErrFillCancelled \/ e = ErrFillExceeds.
Proof.
  revert h idx. induction resting as [| r rest IH]; intros h idx;
    cbn [tryMatchLevel]; [ done | ].
  case_decide; [ apply IH | ].
  destruct (_ <=? 0) eqn:Eq; [ apply IH | ].
  pose proof (Fill_error_cases (deref h o) _ now e Eq) as H1.
  destruct (order.Fill (deref h o) _ now) as [o1 [e1 | ]]; cbn [snd] in H1.
  { by intros [= <-]; apply H1. }
  pose proof (Fill_error_cases (deref (store h o o1) r) _ now e Eq) as H2.
  destruct (order.Fill (deref (store h o o1) r) _ now) as [r1 [e2 | ]]; cbn [snd] in H2.
  { by intros [= <-]; apply H2. }
  case_decide; [ done | apply IH ].
Qed.

Lemma tryMatchLevels_error_cases now o isAggressive levels h idx e :
  (tryMatchLevels now o isAggressive levels h idx).2 = Some e ->
  e = ErrFillCancelled \/ e = ErrFillExceeds.
Proof.
  revert h idx. induction levels as [| level next IH]; intros h idx;
    cbn [tryMatchLevels]; [ done | ].
  case_decide; [ done | ].
  destruct (_ || _); [ done | ].
  pose proof (tryMatchLevel_error_cases now o (Orders level) h idx e) as H1.
  destruct (tryMatchLevel now o (Orders level) h idx) as [[h' idx'] [e1 | ]];
    cbn [snd] in H1; [ by intros [= <-]; apply H1 | apply IH ].
Qed.

Lemma tryMatch_error_cases now st o e :
  snd (tryMatch now st o) = Some e -> e = ErrFillCancelled \/ e = ErrFillExceeds.
Proof.
  unfold tryMatch.
  destruct (match order.Side_ (deref (heap st) o) with
            | order.SideBuy => _ | order.SideSell => _ | order.SideOther => _ end)
    as [levels aggressive].
  pose proof (tryMatchLevels_error_cases now o aggressive levels (heap st)
                (orders (book st)) e) as H.
  by destruct (tryMatchLevels now o aggressive levels (heap st) (orders (book st)))
    as [[h idx] e1].
Qed.

(** The two ways in which [AddOrder] returns an error: the symbol check,
    before anything is done, and a refused [Fill] in [tryMatch], after
    which [AddOrder] returns at once. *)
Lemma AddOrder_error_cases fuel now st o st' e :
  AddOrder fuel now st o = Some (st', Some e) ->
  (e = ErrInvalidSymbol (order.Symbol (deref (heap st) o)) /\
   order.Symbol (deref (heap st) o) <> symbol (book st) /\ st' = st) \/
  (order.Symbol (deref (heap st) o) = symbol (book st) /\
   (e = ErrFillCancelled \/ e = ErrFillExceeds) /\
   st' = fst (tryMatch now st o)).
Proof.
  unfold AddOrder. case_decide as Hsym.
  { intros [= <- <-]. by left. }
  pose proof (tryMatch_error_cases now st o e) as Hcases.
  destruct (tryMatch now st o) as [st1 [e1 | ]]; cbn [fst snd] in *.
  - intros [= <- <-]. right. split.
    { destruct (decide (order.Symbol (deref (heap st) o) = symbol (book st)));
        [ done | contradiction ]. }
    split; [ by apply Hcases | done ].
  - by destruct (match_ fuel now (addToBook st1 o)).
Qed.

(** X6.  An [AddOrder] that returns an error has not put the order in the
    book: the level chains of both sides are as they were, and no entry
    has been added to the [orders] map.  The error is "invalid symbol"
    exactly when the order's symbol is not the book's, and then nothing
    at all has changed.  Otherwise it is the error of a [Fill] that
    [tryMatch] made, "cannot fill cancelled order" or "fill amount
    exceeds order quantity", and the state is the one in which [tryMatch]
    stopped: the fills made before the refused one stay, and so does what
    the refused [Fill] assigned. *)
Theorem AddOrder_failure_leaves_the_levels (fuel : nat) (now : Time)
    (st st' : State) (o : ptr) (e : error) :
  AddOrder fuel now st o = Some (st', Some e) ->
  buyLevels (book st') = buyLevels (book st) /\
  sellLevels (book st') = sellLevels (book st) /\
  orders (book st') ⊆ orders (book st) /\
  ((e = ErrInvalidSymbol (order.Symbol (deref (heap st) o)) /\
    order.Symbol (deref (heap st) o) <> symbol (book st) /\ st' = st) \/
   (order.Symbol (deref (heap st) o) = symbol (book st) /\
    (e = ErrFillCancelled \/ e = ErrFillExceeds) /\
    st' = fst (tryMatch now st o))).
Proof.
  intros Hadd. pose proof (AddOrder_error_cases _ _ _ _ _ _ Hadd) as Hcases.
  split_and!; [ | | | exact Hcases ];
    destruct Hcases as [(_ & _ & ->) | (_ & _ & ->)]; try done.
  - by destruct (tryMatch_levels now st o) as (? & _).
  - by destruct (tryMatch_levels now st o) as (_ & ? & _).
  - apply tryMatch_orders.
Qed.

Lemma AddOrder_failure_leaves_the_levels_witness :
  AddOrder 16 4 (after other_symbol) 1%nat
    = Some (after other_symbol, Some (ErrInvalidSymbol "ETH-USD")) /\
  order.Symbol (deref (heap (after other_symbol)) 1%nat) <> symbol (book (after other_symbol)).
Proof.
  assert (Hadd : AddOrder 16 4 (after other_symbol) 1%nat
                 = Some (after other_symbol, Some (ErrInvalidSymbol "ETH-USD")))
    by (vm_compute; reflexivity).
  split; [ exact Hadd | ].
  destruct (AddOrder_failure_leaves_the_levels 16 4 _ _ 1%nat _ Hadd)
    as (_ & _ & _ & [(_ & Hne & _) | (_ & [He | He] & _)]);
    [ exact Hne | discriminate He | discriminate He ].
Defined.

(** *** The levels of a reachable book *)

(** Where [findOrCreateLevel] leaves the levels it was given: the level it
    returns has the price asked for and is an old level or a new, empty
    one; every other level of the chain is an old one. *)
Lemma walk_levels better price current next ls j :
  walk better price current next = (ls, j) ->
  (exists l, ls !! j = Some l /\ Price l = price /\
             (l ∈ current :: next \/ Orders l = [])) /\
  (forall k l, ls !! k = Some l -> k <> j -> l ∈ current :: next).
Proof.
  revert current ls j. induction next as [| n next' IH]; intros current ls j; cbn [walk].
  - unfold linkAfter. destruct (Z.eqb_spec (Price current) price) as [He | He];
      intros [= <- <-].
    + split; [ exists current; set_solver | ].
      intros [| k] l Hl Hk; [ done | ]. by destruct k.
    + split; [ exists (mkLevel price []); by auto | ].
      intros [| [| k]] l Hl Hk; cbn in Hl; try done; injection Hl as <-; set_solver.
  - destruct (better (Price n) price).
    + destruct (walk better price n next') as [ls' j'] eqn:E. intros [= <- <-].
      destruct (IH _ _ _ E) as [(l & Hl & Hp & Hin) Hothers]. split.
      * exists l. split; [ done | ]. split; [ done | ].
        destruct Hin; [ left; by apply list_elem_of_further | by right ].
      * intros [| k] l' Hl' Hk; cbn in Hl'; [ injection Hl' as <-; apply list_elem_of_here | ].
        apply list_elem_of_further. eapply Hothers; [ done | lia ].
    + unfold linkAfter. destruct (Z.eqb_spec (Price current) price) as [He | He];
        intros [= <- <-].
      * split; [ exists current; repeat split; try done; left; apply list_elem_of_here | ].
        intros [| k] l Hl Hk; [ done | ]. cbn in Hl.
        apply list_elem_of_further. by eapply list_elem_of_lookup_2.
      * split; [ exists (mkLevel price []); by auto | ].
        intros [| [| k]] l Hl Hk; cbn in Hl; try done;
          [ injection Hl as <-; apply list_elem_of_here | ].
        apply list_elem_of_further. by eapply list_elem_of_lookup_2.
Qed.

Lemma findOrCreateLevel_levels better price levels ls i :
  findOrCreateLevel better price levels = (ls, i) ->
  (exists l, ls !! i = Some l /\ Price l = price /\ (l ∈ levels \/ Orders l = [])) /\
  (forall k l, ls !! k = Some l -> k <> i -> l ∈ levels).
Proof.
  destruct levels as [| top rest]; cbn [findOrCreateLevel].
  - intros [= <- <-]. split; [ exists (mkLevel price []); by auto | ].
    intros [| k] l Hl Hk; [ done | by destruct k ].
  - destruct (better price (Price top)).
    + intros [= <- <-]. split; [ exists (mkLevel price []); by auto | ].
      intros [| k] l Hl Hk; [ done | ]. cbn in Hl. by eapply list_elem_of_lookup_2.
    + apply walk_levels.
Qed.

(** The levels after [addBuyOrder] or [addSellOrder]: the old ones, but
    for one level of the order's price that has the order at its tail,
    behind the queue of an old level of that price or alone. *)
Lemma addOrderTo_levels better price o levels l' :
  l' ∈ addOrderTo better price o levels ->
  l' ∈ levels \/
  (Price l' = price /\
   exists q, Orders l' = q ++ [o] /\
             (q = [] \/ exists l, l ∈ levels /\ Price l = price /\ Orders l = q)).
Proof.
  unfold addOrderTo. destruct (findOrCreateLevel better price levels) as [ls i] eqn:E.
  destruct (findOrCreateLevel_levels _ _ _ _ _ E) as [(l & Hl & Hp & Hin) Hothers].
  intros [k Hk]%list_elem_of_lookup_1.
  destruct (decide (k = i)) as [-> | Hne].
  - rewrite list_lookup_alter_eq, Hl in Hk. injection Hk as <-. right. cbn.
    split; [ done | ]. exists (Orders l). split; [ done | ].
    destruct Hin as [Hin | Hin]; [ right; by exists l | by left ].
  - rewrite list_lookup_alter_ne in Hk by done. left. by eapply Hothers.
Qed.

Lemma elem_of_dropEmptyLevels_head level next l :
  l ∈ dropEmptyLevels (level :: next) -> (l = level /\ Orders level <> []) \/ l ∈ next.
Proof.
  destruct level as [price [| o os]]; cbn.
  - intros Hl%dropEmptyLevels_subseteq. by right.
  - intros [-> | Hl]%elem_of_cons; [ by left | by right ].
Qed.

Lemma level_ok_rel h h' side sym l :
  side <> order.SideOther -> heap_rel same_identity h h' ->
  level_ok h side sym l -> level_ok h' side sym l.
Proof.
  intros Hside [_ Hrel] [Hne Hl]. split; [ done | ]. intros p Hp.
  destruct (Hl p Hp) as (Hs & Hpr & Hsym).
  assert (Hv : (p < length h)%nat).
  { destruct (decide (p < length h)%nat) as [ | Hge]; [ done | ].
    unfold deref in Hs. rewrite lookup_ge_None_2 in Hs by lia. cbn in Hs. congruence. }
  destruct (Hrel p Hv) as (_ & -> & -> & -> & _). done.
Qed.

Lemma levels_ok_rel st st' :
  heap_rel same_identity (heap st) (heap st') ->
  buyLevels (book st') = buyLevels (book st) -> sellLevels (book st') = sellLevels (book st) ->
  symbol (book st') = symbol (book st) ->
  levels_ok st -> levels_ok st'.
Proof.
  intros Hrel Eb Es Esym [Hb Hs]. unfold levels_ok. rewrite Eb, Es, Esym.
  split; intros l Hl; eapply level_ok_rel; eauto.
Qed.

Lemma level_ok_suffix h side sym price os os' :
  level_ok h side sym (mkLevel price os) -> os' `suffix_of` os -> os' <> [] ->
  level_ok h side sym (mkLevel price os').
Proof.
  intros [_ Hl] Hsuf Hne. split; [ done | ]. intros p Hp. apply Hl. cbn in *.
  destruct Hsuf as [k ->]. apply elem_of_app. by right.
Qed.

Lemma match_levels_ok fuel now st st' :
  match_ fuel now st = Some st' -> levels_ok st -> levels_ok st'.
Proof.
  revert st. induction fuel as [| fuel IH]; intros st; cbn [match_];
    destruct (buyLevels (book st)) as [| bestBuy buyNext] eqn:Eb;
    destruct (sellLevels (book st)) as [| bestSell sellNext] eqn:Es;
    try (by intros [= <-]);
    destruct (Price bestBuy <? Price bestSell); try (by intros [= <-]); try done.
  destruct (processLevelMatch fuel now (Orders bestBuy) (Orders bestSell) (heap st))
    as [[[buyOrders sellOrders] h] | ] eqn:E; [ | done ].
  intros Hm [Hb Hs]. apply (IH _ Hm). clear IH Hm.
  pose proof (processLevelMatch_rel same_identity same_identity_refl same_identity_trans
                Fill_same_identity _ _ _ _ _ _ _ _ E) as Hrel.
  destruct (processLevelMatch_exit _ _ _ _ _ _ _ _ E) as (_ & Hsb & Hss).
  rewrite Eb in Hb. rewrite Es in Hs.
  split; cbn [heap book buyLevels sellLevels symbol cleanupEmptyLevels];
    intros l [[-> Hne] | Hl]%elem_of_dropEmptyLevels_head.
  - eapply level_ok_rel; [ done | exact Hrel | ].
    eapply level_ok_suffix; [ | exact Hsb | exact Hne ].
    destruct bestBuy. apply Hb, list_elem_of_here.
  - eapply level_ok_rel; [ done | exact Hrel | ]. by apply Hb, list_elem_of_further.
  - eapply level_ok_rel; [ done | exact Hrel | ].
    eapply level_ok_suffix; [ | exact Hss | exact Hne ].
    destruct bestSell. apply Hs, list_elem_of_here.
  - eapply level_ok_rel; [ done | exact Hrel | ]. by apply Hs, list_elem_of_further.
Qed.

Lemma addOrderTo_level_ok better h side sym o levels :
  order.Side_ (deref h o) = side -> order.Symbol (deref h o) = sym ->
  (forall l, l ∈ levels -> level_ok h side sym l) ->
  forall l, l ∈ addOrderTo better (order.Price (deref h o)) o levels ->
  level_ok h side sym l.
Proof.
  intros Hside Hsym Hok l [Hl | (Hp & q & Hq & Hold)]%addOrderTo_levels; [ by apply Hok | ].
  split; [ rewrite Hq; by destruct q | ].
  intros p. rewrite Hq. intros [Hin | ->%list_elem_of_singleton]%elem_of_app.
  - destruct Hold as [-> | (l0 & Hl0 & Hp0 & <-)]; [ by apply elem_of_nil in Hin | ].
    destruct (Hok l0 Hl0) as [_ H0]. destruct (H0 p Hin) as (? & ? & ?).
    repeat split; congruence.
  - by rewrite Hp.
Qed.

Lemma addToBook_levels_ok st o :
  order.Symbol (deref (heap st) o) = symbol (book st) ->
  levels_ok st -> levels_ok (addToBook st o).
Proof.
  intros Hsym [Hb Hs]. unfold addToBook. case_decide; [ | done ].
  destruct (order.Side_ (deref (heap st) o)) eqn:Eside;
    split; cbn [heap book buyLevels sellLevels symbol set_orders set_buyLevels set_sellLevels];
    try done.
  - by apply addOrderTo_level_ok.
  - by apply addOrderTo_level_ok.
Qed.

Lemma AddOrder_levels_ok fuel now st o st' err :
  AddOrder fuel now st o = Some (st', err) -> (o < length (heap st))%nat ->
  levels_ok st -> levels_ok st'.
Proof.
  intros Hadd Hvo Hok. unfold AddOrder in Hadd.
  case_decide as Hsym; [ by injection Hadd as <- _ | ].
  pose proof (tryMatch_rel same_identity same_identity_refl same_identity_trans
                Fill_same_identity now st o) as Hid1.
  destruct (tryMatch_levels now st o) as (Eb & Es & Esym).
  pose proof (levels_ok_rel _ _ Hid1 Eb Es Esym Hok) as Hok1.
  destruct (tryMatch now st o) as [st1 [e | ]]; cbn [fst] in *.
  { by injection Hadd as <- _. }
  destruct (match_ fuel now (addToBook st1 o)) as [st3 | ] eqn:E; [ | done ].
  injection Hadd as <- _. apply (match_levels_ok _ _ _ _ E).
  apply addToBook_levels_ok; [ | done ].
  destruct Hid1 as [_ Hrel]. destruct (Hrel o Hvo) as (_ & _ & Hs & _). congruence.
Qed.

Lemma exec_levels_ok fuel now st op st' :
  exec fuel now st op = Some st' -> levels_ok st -> levels_ok st'.
Proof.
  intros Hrun Hok. pose proof (exec_same_identity _ _ _ _ _ Hrun) as Hid.
  destruct op as [id side sym price quantity | o | orderID]; cbn [exec] in Hrun.
  - destruct (order.NewOrder id now side sym price quantity); injection Hrun as <-;
      [ done | ]. by eapply levels_ok_rel.
  - case_decide; [ | done ].
    destruct (AddOrder fuel now st o) as [[st1 e] | ] eqn:E; [ | done ].
    injection Hrun as <-. by eapply AddOrder_levels_ok.
  - injection Hrun as <-. destruct (CancelOrder_levels now st orderID) as [Eb Es].
    eapply levels_ok_rel; [ exact Hid | done | done | | exact Hok ].
    unfold CancelOrder. destruct (orders (book st) !! orderID) as [o | ]; [ | done ].
    by destruct (order.Cancel (deref (heap st) o) now) as [o1 [e | ]].
Qed.

Lemma reachable_levels_ok st : reachable st -> levels_ok st.
Proof.
  induction 1 as [symbol | st fuel now op st' _ IH Hexec].
  - split; intros l Hl; by apply elem_of_nil in Hl.
  - by eapply exec_levels_ok.
Qed.

Lemma level_ok_valid h side sym l p :
  side <> order.SideOther -> level_ok h side sym l -> p ∈ Orders l -> (p < length h)%nat.
Proof.
  intros Hside [_ Hl] Hp. destruct (Hl p Hp) as [Hs _].
  destruct (decide (p < length h)%nat) as [ | Hge]; [ done | ].
  unfold deref in Hs. rewrite lookup_ge_None_2 in Hs by lia. cbn in Hs. congruence.
Qed.

(** X8.  In a reachable state [GetBestBid] fails only with "no bids
    available", and exactly when the bid side has no level at all;
    otherwise the price it returns is the price of the head bid level,
    and no bid level has a higher price.  [GetBestAsk] likewise, with "no
    asks available" and the lowest ask price.  Nothing is said of the
    quantity returned: its sign is a matter of rounding. *)
Theorem best_price_of_reachable (st : State) :
  reachable st ->
  match GetBestBid st with
  | inl e => e = ErrNoBids /\ buyLevels (book st) = []
  | inr (price, quantity) =>
      (exists l next, buyLevels (book st) = l :: next /\ Price l = price) /\
      forall l, l ∈ buyLevels (book st) -> Price l <= price
  end /\
  match GetBestAsk st with
  | inl e => e = ErrNoAsks /\ sellLevels (book st) = []
  | inr (price, quantity) =>
      (exists l next, sellLevels (book st) = l :: next /\ Price l = price) /\
      forall l, l ∈ sellLevels (book st) -> price <= Price l
  end.
Proof.
  intros Hreach.
  destruct (reachable_levels_ok _ Hreach) as [Hb Hs].
  destruct (reachable_price_inv _ Hreach) as (_ & Hsb & Hss).
  unfold GetBestBid, GetBestAsk, bestOf. split.
  - destruct (buyLevels (book st)) as [| level next]; [ done | ].
    pose proof (Hb level (list_elem_of_here _ _)) as Hl.
    destruct (Orders level) as [| o os] eqn:E; [ by destruct Hl | ].
    split.
    + by exists level, next.
    + intros l Hl'. by eapply buy_head_best.
  - destruct (sellLevels (book st)) as [| level next]; [ done | ].
    pose proof (Hs level (list_elem_of_here _ _)) as Hl.
    destruct (Orders level) as [| o os] eqn:E; [ by destruct Hl | ].
    split.
    + by exists level, next.
    + intros l Hl'. by eapply sell_head_best.
Qed.

Lemma best_price_of_reachable_witness :
  reachable (after partial_fill) /\
  match GetBestBid (after partial_fill) with
  | inl e => e = ErrNoBids /\ buyLevels (book (after partial_fill)) = []
  | inr (price, quantity) =>
      (exists l next, buyLevels (book (after partial_fill)) = l :: next /\
                      Price l = price) /\
      forall l, l ∈ buyLevels (book (after partial_fill)) -> Price l <= price
  end.
Proof.
  assert (H : reachable (after partial_fill)).
  { apply (run_reachable 16 partial_fill (init btc)); [ constructor | ].
    vm_compute; reflexivity. }
  split; [ exact H | ]. exact (proj1 (best_price_of_reachable _ H)).
Defined.

Lemma side_sorted_lookup better levels i j li lj :
  (forall a b c, no_later better a b -> no_later better b c -> no_later better a c) ->
  side_sorted better levels -> (i < j)%nat ->
  levels !! i = Some li -> levels !! j = Some lj ->
  no_later better (Price li) (Price lj).
Proof.
  intros Htrans Hs. unfold side_sorted, level_prices in Hs.
  apply Sorted_StronglySorted in Hs; [ | exact Htrans ].
  revert i j. induction levels as [| l levels IH]; intros i j Hij Hi Hj; [ done | ].
  cbn in Hs. apply StronglySorted_inv in Hs as [Hs Hall].
  destruct j as [| j]; [ lia | ]. cbn in Hj.
  destruct i as [| i]; cbn in Hi.
  - injection Hi as ->. rewrite Forall_forall in Hall. apply Hall.
    apply list_elem_of_fmap. exists lj.
    split; [ done | by eapply list_elem_of_lookup_2 ].
  - eapply (IH Hs i j); [ lia | done | done ].
Qed.

(** X9.  The snapshot [GetOrderBook] takes of a reachable state carries
    the symbol of the book; its bids are listed from the highest price
    down and its asks from the lowest price up; no level in it is empty;
    and every order of a level is an allocated order of the book's
    symbol, of the side of the level, whose limit price is the price of
    the level. *)
Theorem snapshot_of_reachable (st : State) :
  reachable st ->
  Symbol (GetOrderBook st) = symbol (book st) /\
  (forall i j li lj, (i < j)%nat ->
     Bids (GetOrderBook st) !! i = Some li -> Bids (GetOrderBook st) !! j = Some lj ->
     Price lj <= Price li) /\
  (forall i j li lj, (i < j)%nat ->
     Asks (GetOrderBook st) !! i = Some li -> Asks (GetOrderBook st) !! j = Some lj ->
     Price li <= Price lj) /\
  (forall l, l ∈ Bids (GetOrderBook st) ->
     Orders l <> [] /\
     forall p, p ∈ Orders l ->
       (p < length (heap st))%nat /\
       order.Side_ (deref (heap st) p) = order.SideBuy /\
       order.Price (deref (heap st) p) = Price l /\
       order.Symbol (deref (heap st) p) = Symbol (GetOrderBook st)) /\
  (forall l, l ∈ Asks (GetOrderBook st) ->
     Orders l <> [] /\
     forall p, p ∈ Orders l ->
       (p < length (heap st))%nat /\
       order.Side_ (deref (heap st) p) = order.SideSell /\
       order.Price (deref (heap st) p) = Price l /\
       order.Symbol (deref (heap st) p) = Symbol (GetOrderBook st)).
Proof.
  intros Hreach.
  destruct (reachable_levels_ok _ Hreach) as [Hb Hs].
  destruct (reachable_price_inv _ Hreach) as (_ & Hsb & Hss).
  cbn [GetOrderBook Symbol Bids Asks]. split; [ done | ]. repeat split.
  - intros i j li lj Hij Hi Hj.
    pose proof (side_sorted_lookup buyBetter (buyLevels (book st)) i j li lj) as H.
    unfold no_later, buyBetter in H. rewrite Z.ltb_ge in H. apply H; try done.
    intros a b c. rewrite !Z.ltb_ge. lia.
  - intros i j li lj Hij Hi Hj.
    pose proof (side_sorted_lookup sellBetter (sellLevels (book st)) i j li lj) as H.
    unfold no_later, sellBetter in H. rewrite Z.ltb_ge in H. apply H; try done.
    intros a b c. rewrite !Z.ltb_ge. lia.
  - by destruct (Hb l).
  - by eapply (level_ok_valid _ order.SideBuy); [ | apply Hb | ].
  - destruct (Hb l) as [_ Hl]; [ done | ]. by destruct (Hl p) as (? & ? & ?).
  - destruct (Hb l) as [_ Hl]; [ done | ]. by destruct (Hl p) as (? & ? & ?).
  - destruct (Hb l) as [_ Hl]; [ done | ]. by destruct (Hl p) as (? & ? & ?).
  - by destruct (Hs l).
  - by eapply (level_ok_valid _ order.SideSell); [ | apply Hs | ].
  - destruct (Hs l) as [_ Hl]; [ done | ]. by destruct (Hl p) as (? & ? & ?).
  - destruct (Hs l) as [_ Hl]; [ done | ]. by destruct (Hl p) as (? & ? & ?).
  - destruct (Hs l) as [_ Hl]; [ done | ]. by destruct (Hl p) as (? & ? & ?).
Qed.

Lemma snapshot_of_reachable_witness :
  reachable (after two_behind_best) /\
  Symbol (GetOrderBook (after two_behind_best)) = symbol (book (after two_behind_best)).
Proof.
  assert (H : reachable (after two_behind_best)).
  { apply (run_reachable 16 two_behind_best (init btc)); [ constructor | ].
    vm_compute; reflexivity. }
  split; [ exact H | ]. exact (proj1 (snapshot_of_reachable _ H)).
Defined.

(** *** Orders in the [orders] map and in the levels *)

Lemma filled_valid h p :
  order.Status_ (deref h p) = order.StatusFilled -> (p < length h)%nat.
Proof.
  intros Hf. destruct (decide (p < length h)%nat) as [ | Hge]; [ done | ].
  unfold deref in Hf. rewrite lookup_ge_None_2 in Hf by lia. by cbn in Hf.
Qed.

(** Between two well-formed heaps a filled order stays filled. *)
Lemma filled_persists h h' p :
  heap_ok h -> heap_ok h' ->
  heap_rel same_identity h h' -> heap_rel filled_grows h h' ->
  order.Status_ (deref h p) = order.StatusFilled ->
  order.Status_ (deref h' p) = order.StatusFilled.
Proof.
  intros Hok Hok' [Hlen Hid] [_ Hgrow] Hf. pose proof (filled_valid _ _ Hf) as Hp.
  destruct (Hid p Hp) as (_ & _ & _ & _ & Hq & _).
  specialize (Hgrow p Hp). unfold filled_grows in Hgrow.
  destruct (Hok p Hp) as [Hb Hs]. destruct (Hok' p ltac:(lia)) as [Hb' Hs'].
  apply Hs in Hf. apply Hs'. lia.
Qed.

Lemma processLevelMatch_filled_persists fuel now bs ss h bs' ss' h' p :
  processLevelMatch fuel now bs ss h = Some (bs', ss', h') ->
  heap_ok h -> (forall p, p ∈ bs -> p ∉ ss) ->
  order.Status_ (deref h p) = order.StatusFilled ->
  order.Status_ (deref h' p) = order.StatusFilled.
Proof.
  intros E Hok Hdis. apply filled_persists; [ done | | | ].
  - by eapply processLevelMatch_ok.
  - eapply (processLevelMatch_rel same_identity same_identity_refl same_identity_trans
              Fill_same_identity), E.
  - eapply (processLevelMatch_rel filled_grows filled_grows_refl filled_grows_trans
              Fill_filled_grows), E.
Qed.

(** An order leaves a queue in [processLevelMatch] only filled. *)
Lemma processLevelMatch_keeps fuel now buyOrders sellOrders h buyOrders' sellOrders' h' p :
  processLevelMatch fuel now buyOrders sellOrders h = Some (buyOrders', sellOrders', h') ->
  heap_ok h -> (forall p, p ∈ buyOrders -> p ∉ sellOrders) ->
  (p ∈ buyOrders -> p ∈ buyOrders' \/ order.Status_ (deref h' p) = order.StatusFilled) /\
  (p ∈ sellOrders -> p ∈ sellOrders' \/ order.Status_ (deref h' p) = order.StatusFilled).
Proof.
  revert buyOrders sellOrders h.
  induction fuel as [| fuel IH]; intros buyOrders sellOrders h; cbn [processLevelMatch];
    destruct buyOrders as [| buy buyTail]; try (intros [= <- <- <-]; by auto);
    destruct sellOrders as [| sell sellTail]; try (intros [= <- <- <-]; by auto);
    try done.
  intros E Hok Hdis.
  assert (Hne : buy <> sell).
  { intros ->. eapply Hdis; apply list_elem_of_here. }
  pose proof (turn_ok now h buy sell Hok Hne) as Hok2. cbn zeta in Hok2.
  revert E Hok2.
  set (h2 := store (store h buy _) sell _).
  set (bs1 := if decide (order.Status_ (deref h2 buy) = order.StatusFilled)
              then buyTail else buy :: buyTail).
  set (ss1 := if decide (order.Status_ (deref h2 sell) = order.StatusFilled)
              then sellTail else sell :: sellTail).
  intros E Hok2.
  assert (Hbs1 : bs1 ⊆ buy :: buyTail).
  { unfold bs1. case_decide; [ apply list_subseteq_cons | ]; done. }
  assert (Hss1 : ss1 ⊆ sell :: sellTail).
  { unfold ss1. case_decide; [ apply list_subseteq_cons | ]; done. }
  assert (Hdis1 : forall p, p ∈ bs1 -> p ∉ ss1).
  { intros q Hq Hq'. eapply Hdis; [ apply Hbs1, Hq | apply Hss1, Hq' ]. }
  destruct (IH _ _ _ E Hok2 Hdis1) as [IHb IHs].
  pose proof (processLevelMatch_filled_persists _ _ _ _ _ _ _ _ p E Hok2 Hdis1) as Hkeep.
  clear IH E. split.
  - intros [-> | Hp]%elem_of_cons.
    + unfold bs1 in IHb. case_decide as Hf; [ right; by apply Hkeep | ].
      apply IHb, list_elem_of_here.
    + apply IHb. unfold bs1. case_decide; [ done | by apply list_elem_of_further ].
  - intros [-> | Hp]%elem_of_cons.
    + unfold ss1 in IHs. case_decide as Hf; [ right; by apply Hkeep | ].
      apply IHs, list_elem_of_here.
    + apply IHs. unfold ss1. case_decide; [ done | by apply list_elem_of_further ].
Qed.

Lemma match_filled_persists fuel now st st' p :
  match_ fuel now st = Some st' -> book_inv st ->
  order.Status_ (deref (heap st) p) = order.StatusFilled ->
  order.Status_ (deref (heap st') p) = order.StatusFilled.
Proof.
  intros E Hinv. apply filled_persists.
  - by destruct Hinv.
  - by destruct (match_inv _ _ _ _ E Hinv).
  - eapply (match_rel same_identity same_identity_refl same_identity_trans
              Fill_same_identity), E.
  - eapply (match_rel filled_grows filled_grows_refl filled_grows_trans
              Fill_filled_grows), E.
Qed.

(** An order leaves the levels in [match] only filled. *)
Lemma match_keeps fuel now st st' p :
  match_ fuel now st = Some st' -> book_inv st ->
  (p ∈ all_orders (buyLevels (book st)) ->
     p ∈ all_orders (buyLevels (book st')) \/
     order.Status_ (deref (heap st') p) = order.StatusFilled) /\
  (p ∈ all_orders (sellLevels (book st)) ->
     p ∈ all_orders (sellLevels (book st')) \/
     order.Status_ (deref (heap st') p) = order.StatusFilled).
Proof.
  revert st. induction fuel as [| fuel IH]; intros st; cbn [match_];
    destruct (buyLevels (book st)) as [| bestBuy buyNext] eqn:Eb;
    destruct (sellLevels (book st)) as [| bestSell sellNext] eqn:Es;
    try (intros [= <-]; rewrite ?Eb, ?Es; by auto);
    destruct (Price bestBuy <? Price bestSell);
    try (intros [= <-]; rewrite ?Eb, ?Es; by auto); try done.
  destruct (processLevelMatch fuel now (Orders bestBuy) (Orders bestSell) (heap st))
    as [[[buyOrders sellOrders] h] | ] eqn:E; [ | done ].
  intros Hm Hinv.
  pose proof (match_turn_inv _ _ _ _ _ _ _ _ _ _ Hinv Eb Es E) as Hinv1.
  pose proof (match_filled_persists _ _ _ _ p Hm Hinv1) as Hkeep.
  destruct (IH _ Hm Hinv1) as [IHb IHs]. clear IH Hm.
  cbn [heap book buyLevels sellLevels cleanupEmptyLevels] in IHb, IHs, Hkeep.
  rewrite all_orders_dropEmptyLevels, all_orders_cons in IHb, IHs.
  cbn [Orders] in IHb, IHs.
  destruct Hinv as (Hok & Hbuy & Hsell).
  assert (Hdis : forall p, p ∈ Orders bestBuy -> p ∉ Orders bestSell).
  { intros q Hq Hq'.
    assert (order.Side_ (deref (heap st) q) = order.SideBuy) as H1.
    { apply Hbuy. rewrite Eb, all_orders_cons. apply elem_of_app. by left. }
    assert (order.Side_ (deref (heap st) q) = order.SideSell) as H2.
    { apply Hsell. rewrite Es, all_orders_cons. apply elem_of_app. by left. }
    congruence. }
  destruct (processLevelMatch_keeps _ _ _ _ _ _ _ _ p E Hok Hdis) as [Kb Ks].
  rewrite !all_orders_cons. split; intros [Hp | Hp]%elem_of_app.
  - destruct (Kb Hp) as [Hin | Hf]; [ apply IHb, elem_of_app; by left | ].
    right. by apply Hkeep.
  - apply IHb, elem_of_app. by right.
  - destruct (Ks Hp) as [Hin | Hf]; [ apply IHs, elem_of_app; by left | ].
    right. by apply Hkeep.
  - apply IHs, elem_of_app. by right.
Qed.

Lemma indexed_in_book_rel st st' :
  book_inv st -> heap_ok (heap st') ->
  heap_rel same_identity (heap st) (heap st') ->
  heap_rel filled_grows (heap st) (heap st') ->
  index_ok (heap st) (orders (book st)) ->
  orders (book st') ⊆ orders (book st) ->
  buyLevels (book st') = buyLevels (book st) ->
  sellLevels (book st') = sellLevels (book st) ->
  indexed_in_book st -> indexed_in_book st'.
Proof.
  intros (Hok & _) Hok' Hid Hgrow Hidx Hsub Eb Es Hin id p Hp Hnf.
  pose proof (lookup_weaken _ _ _ _ Hp Hsub) as Hp0.
  destruct (Hidx id p Hp0) as [Hv _].
  destruct Hid as [Hlen Hid'].
  destruct (Hid' p Hv) as (_ & Hside & _). rewrite Hside, Eb, Es.
  apply (Hin id p Hp0). intros Hf. apply Hnf.
  by apply (filled_persists (heap st) (heap st')).
Qed.

Lemma addToBook_index st o :
  (o < length (heap st))%nat ->
  index_ok (heap st) (orders (book st)) ->
  index_ok (heap (addToBook st o)) (orders (book (addToBook st o))).
Proof.
  intros Hvo Hok. unfold addToBook. case_decide; [ | done ].
  cbn [heap book orders set_orders]. intros id p.
  destruct (decide (order.ID (deref (heap st) o) = id)) as [<- | Hne].
  - rewrite lookup_insert_eq. by intros [= <-].
  - rewrite lookup_insert_ne by done.
    destruct (order.Side_ (deref (heap st) o)); apply Hok.
Qed.

Lemma addToBook_indexed st o :
  indexed_in_book st -> indexed_in_book (addToBook st o).
Proof.
  intros Hin. unfold addToBook. case_decide as Hnf; [ | done ].
  intros id p. cbn [heap book orders set_orders].
  destruct (decide (order.ID (deref (heap st) o) = id)) as [<- | Hne].
  - rewrite lookup_insert_eq. intros [= <-] _.
    destruct (order.Side_ (deref (heap st) o)) eqn:Eside;
      cbn [buyLevels sellLevels set_buyLevels set_sellLevels]; split; try done; intros _.
    + unfold addBuyOrder. apply elem_of_all_orders_addOrderTo. by left.
    + unfold addSellOrder. apply elem_of_all_orders_addOrderTo. by left.
  - rewrite lookup_insert_ne by done. intros Hp Hpf.
    assert (Hp0 : orders (book st) !! id = Some p)
      by (by destruct (order.Side_ (deref (heap st) o))).
    destruct (Hin id p Hp0 Hpf) as [Hb Hs].
    destruct (order.Side_ (deref (heap st) o));
      cbn [buyLevels sellLevels set_buyLevels set_sellLevels]; split; intros Hside;
      try (by apply Hb); try (by apply Hs).
    + unfold addBuyOrder. apply elem_of_all_orders_addOrderTo. right. by apply Hb.
    + unfold addSellOrder. apply elem_of_all_orders_addOrderTo. right. by apply Hs.
Qed.

Lemma match_indexed fuel now st st' :
  match_ fuel now st = Some st' -> book_inv st ->
  index_ok (heap st) (orders (book st)) ->
  indexed_in_book st -> indexed_in_book st'.
Proof.
  intros E Hinv Hidx Hin id p Hp Hnf.
  destruct (match_subseteq _ _ _ _ E) as (_ & _ & Eo & _). rewrite Eo in Hp.
  destruct (Hidx id p Hp) as [Hv _].
  destruct (match_rel same_identity same_identity_refl same_identity_trans
              Fill_same_identity _ _ _ _ E) as [_ Hid].
  destruct (Hid p Hv) as (_ & Hside & _). rewrite Hside.
  assert (Hnf0 : order.Status_ (deref (heap st) p) <> order.StatusFilled).
  { intros Hf. apply Hnf. by eapply match_filled_persists. }
  destruct (Hin id p Hp Hnf0) as [Hb Hs].
  destruct (match_keeps _ _ _ _ p E Hinv) as [Kb Ks].
  split; intros Hs'.
  - by destruct (Kb (Hb Hs')).
  - by destruct (Ks (Hs Hs')).
Qed.

Lemma AddOrder_indexed fuel now st o st' err :
  AddOrder fuel now st o = Some (st', err) -> (o < length (heap st))%nat ->
  book_inv st -> index_ok (heap st) (orders (book st)) ->
  indexed_in_book st -> indexed_in_book st'.
Proof.
  intros Hadd Hvo Hinv Hidx Hin. unfold AddOrder in Hadd.
  case_decide as Hsym; [ by injection Hadd as <- _ | ].
  pose proof (tryMatch_rel same_identity same_identity_refl same_identity_trans
                Fill_same_identity now st o) as Hid1.
  pose proof (tryMatch_rel filled_grows filled_grows_refl filled_grows_trans
                Fill_filled_grows now st o) as Hgrow1.
  destruct (tryMatch_levels now st o) as (Eb & Es & _).
  pose proof (tryMatch_orders now st o) as Hsub.
  pose proof (tryMatch_inv now st o Hinv) as Hinv1.
  assert (Hin1 : indexed_in_book (fst (tryMatch now st o))).
  { eapply (indexed_in_book_rel st); try done. by destruct Hinv1. }
  pose proof (index_ok_rel _ _ _ _ Hid1 Hsub Hidx) as Hidx1.
  destruct (tryMatch now st o) as [st1 [e | ]]; cbn [fst] in *.
  { by injection Hadd as <- _. }
  destruct (match_ fuel now (addToBook st1 o)) as [st3 | ] eqn:E; [ | done ].
  injection Hadd as <- _. apply (match_indexed _ _ _ _ E).
  - by apply addToBook_inv.
  - apply addToBook_index; [ | done ]. destruct Hid1. lia.
  - by apply addToBook_indexed.
Qed.

Lemma exec_indexed fuel now st op st' :
  exec fuel now st op = Some st' -> reachable st ->
  indexed_in_book st -> indexed_in_book st'.
Proof.
  intros Hrun Hreach Hin.
  pose proof (reachable_inv _ Hreach) as Hinv.
  pose proof (reachable_index _ Hreach) as Hidx.
  pose proof (exec_same_identity _ _ _ _ _ Hrun) as Hid.
  pose proof (exec_rel filled_grows filled_grows_refl filled_grows_trans
                Fill_filled_grows Cancel_filled_grows _ _ _ _ _ Hrun) as Hgrow.
  destruct (exec_inv _ _ _ _ _ Hrun Hinv) as (Hok' & _).
  destruct op as [id side sym price quantity | o | orderID]; cbn [exec] in Hrun.
  - destruct (order.NewOrder id now side sym price quantity); injection Hrun as <-;
      [ done | ]. by eapply (indexed_in_book_rel st).
  - case_decide; [ | done ].
    destruct (AddOrder fuel now st o) as [[st1 e] | ] eqn:E; [ | done ].
    injection Hrun as <-. by eapply AddOrder_indexed.
  - injection Hrun as <-. destruct (CancelOrder_levels now st orderID) as [Eb Es].
    eapply (indexed_in_book_rel st); try done.
    unfold CancelOrder. destruct (orders (book st) !! orderID) as [o | ]; [ | done ].
    destruct (order.Cancel (deref (heap st) o) now) as [o1 [e | ]]; cbn; [ done | ].
    apply delete_subseteq.
Qed.

Lemma reachable_indexed st : reachable st -> indexed_in_book st.
Proof.
  induction 1 as [symbol | st fuel now op st' Hreach IH Hexec].
  - intros id p Hp. cbn in Hp. by rewrite lookup_empty in Hp.
  - by eapply exec_indexed.
Qed.

Lemma find_ID_None_inv h (os : list ptr) orderID p :
  List.find (fun o => bool_decide (order.ID (deref h o) = orderID)) os = None ->
  p ∈ os -> order.ID (deref h p) <> orderID.
Proof.
  induction os as [| x os IH]; cbn [List.find]; [ by intros _ ?%elem_of_nil | ].
  case_bool_decide as Hx; [ done | ].
  intros Hnone [-> | Hp]%elem_of_cons; [ done | by apply IH ].
Qed.

Lemma findOrder_None_inv h levels orderID p :
  findOrder h levels orderID = None ->
  p ∈ all_orders levels -> order.ID (deref h p) <> orderID.
Proof.
  induction levels as [| l levels IH]; cbn [findOrder]; [ by intros _ ?%elem_of_nil | ].
  destruct (List.find _ (Orders l)) as [q | ] eqn:E; [ done | ].
  intros Hnone. rewrite all_orders_cons. intros [Hp | Hp]%elem_of_app.
  - by eapply find_ID_None_inv.
  - by apply IH.
Qed.

(** [GetOrder] finds an id as soon as a level of either side holds an
    order that carries it. *)
Lemma GetOrder_finds st orderID p :
  p ∈ all_orders (buyLevels (book st)) ++ all_orders (sellLevels (book st)) ->
  order.ID (deref (heap st) p) = orderID ->
  exists q, GetOrder st orderID = inr q /\ order.ID (deref (heap st) q) = orderID.
Proof.
  intros Hp Hid. unfold GetOrder.
  destruct (findOrder (heap st) (buyLevels (book st)) orderID) as [q | ] eqn:Eb.
  { exists q. split; [ done | ]. by destruct (findOrder_Some _ _ _ _ Eb). }
  destruct (findOrder (heap st) (sellLevels (book st)) orderID) as [q | ] eqn:Es.
  { exists q. split; [ done | ]. by destruct (findOrder_Some _ _ _ _ Es). }
  apply elem_of_app in Hp as [Hp | Hp].
  - by destruct (findOrder_None_inv _ _ _ _ Eb Hp).
  - by destruct (findOrder_None_inv _ _ _ _ Es Hp).
Qed.

Lemma indexed_found st id p :
  reachable st -> orders (book st) !! id = Some p ->
  order.Status_ (deref (heap st) p) <> order.StatusFilled ->
  order.Side_ (deref (heap st) p) <> order.SideOther ->
  p ∈ all_orders (buyLevels (book st)) ++ all_orders (sellLevels (book st)) /\
  exists q, GetOrder st id = inr q /\ order.ID (deref (heap st) q) = id.
Proof.
  intros Hreach Hp Hnf Hside.
  destruct (reachable_indexed _ Hreach id p Hp Hnf) as [Hb Hs].
  destruct (reachable_index _ Hreach id p Hp) as [_ Hid].
  assert (Hin : p ∈ all_orders (buyLevels (book st)) ++ all_orders (sellLevels (book st))).
  { apply elem_of_app.
    destruct (order.Side_ (deref (heap st) p)); [ left; by apply Hb | right; by apply Hs | done ]. }
  split; [ done | ]. by eapply GetOrder_finds.
Qed.

(** X10.  In a reachable state every entry of the [orders] map leads to
    an allocated order that carries the id it is filed under.  If that
    order is not filled and is a buy or a sell order, a level of its side
    holds it: bid levels hold it if it is a buy order, ask levels if it is
    a sell order, and [GetOrder] on the id returns an order that carries
    the id. *)
Theorem indexed_order_is_in_book (st : State) (id : string) (p : ptr) :
  reachable st -> orders (book st) !! id = Some p ->
  ((p < length (heap st))%nat /\ order.ID (deref (heap st) p) = id) /\
  (order.Status_ (deref (heap st) p) <> order.StatusFilled ->
   (order.Side_ (deref (heap st) p) = order.SideBuy ->
      p ∈ all_orders (buyLevels (book st)) /\
      exists q, GetOrder st id = inr q /\ order.ID (deref (heap st) q) = id) /\
   (order.Side_ (deref (heap st) p) = order.SideSell ->
      p ∈ all_orders (sellLevels (book st)) /\
      exists q, GetOrder st id = inr q /\ order.ID (deref (heap st) q) = id)).
Proof.
  intros Hreach Hp. split; [ by apply reachable_index | ]. intros Hnf.
  destruct (reachable_indexed _ Hreach id p Hp Hnf) as [Hb Hs].
  split; intros Hside.
  - split; [ by apply Hb | ].
    apply (indexed_found st id p); try done. by rewrite Hside.
  - split; [ by apply Hs | ].
    apply (indexed_found st id p); try done. by rewrite Hside.
Qed.

Lemma indexed_order_is_in_book_witness :
  reachable (after partial_fill) /\
  orders (book (after partial_fill)) !! "A" = Some 0%nat /\
  order.ID (deref (heap (after partial_fill)) 0%nat) = "A".
Proof.
  assert (Hr : reachable (after partial_fill))
    by (apply after_reachable; vm_compute; reflexivity).
  assert (Hp : orders (book (after partial_fill)) !! "A" = Some 0%nat)
    by (vm_compute; reflexivity).
  split; [ exact Hr | ]. split; [ exact Hp | ].
  exact (proj2 (proj1 (indexed_order_is_in_book _ "A" 0%nat Hr Hp))).
Defined.

(** X11.  Admission and cancellation compose.  When [AddOrder] returns
    without error in a reachable state and leaves the order not filled,
    the [orders] map files the order under its id, and a [CancelOrder] on
    that id right after succeeds and leaves this very order
    [StatusCancelled]. *)
Theorem admitted_order_can_be_cancelled (fuel : nat) (now now' : Time)
    (st st' : State) (o : ptr) :
  reachable st -> (o < length (heap st))%nat ->
  AddOrder fuel now st o = Some (st', None) ->
  order.Status_ (deref (heap st') o) <> order.StatusFilled ->
  order.ID (deref (heap st') o) = order.ID (deref (heap st) o) /\
  orders (book st') !! order.ID (deref (heap st) o) = Some o /\
  snd (CancelOrder now' st' (order.ID (deref (heap st) o))) = None /\
  order.Status_ (deref (heap (fst (CancelOrder now' st' (order.ID (deref (heap st) o))))) o)
    = order.StatusCancelled.
Proof.
  intros Hreach Hvo Hadd Hnf.
  pose proof (reachable_inv _ Hreach) as Hinv.
  destruct (AddOrder_rel same_identity same_identity_refl same_identity_trans
              Fill_same_identity _ _ _ _ _ _ Hadd) as [Hlen Hid].
  destruct (Hid o Hvo) as (HID & _).
  assert (Hidx : orders (book st') !! order.ID (deref (heap st) o) = Some o).
  { unfold AddOrder in Hadd. case_decide as Hsym; [ done | ].
    pose proof (tryMatch_rel same_identity same_identity_refl same_identity_trans
                  Fill_same_identity now st o) as [_ Hid1].
    destruct (Hid1 o Hvo) as (HID1 & _).
    pose proof (tryMatch_inv now st o Hinv) as Hinv1.
    destruct (tryMatch now st o) as [st1 [e | ]]; cbn [fst] in *; [ done | ].
    destruct (match_ fuel now (addToBook st1 o)) as [st3 | ] eqn:E; [ | done ].
    injection Hadd as <-.
    destruct (match_subseteq _ _ _ _ E) as (_ & _ & -> & _).
    assert (Hnf1 : order.Status_ (deref (heap st1) o) <> order.StatusFilled).
    { intros Hf. apply Hnf. eapply match_filled_persists;
        [ exact E | by apply addToBook_inv | by rewrite heap_addToBook ]. }
    unfold addToBook. rewrite decide_True by done.
    cbn [book orders set_orders]. rewrite <- HID1. apply lookup_insert_eq. }
  split; [ done | ]. split; [ done | ].
  unfold CancelOrder. rewrite Hidx. unfold order.Cancel.
  rewrite decide_False by done. cbn. split; [ done | ].
  rewrite deref_store_eq by lia. done.
Qed.

Lemma admitted_order_can_be_cancelled_witness :
  reachable (after second_bid_created) /\
  AddOrder 16 6 (after second_bid_created) 1%nat = Some (after second_bid, None) /\
  orders (book (after second_bid)) !! "B" = Some 1%nat.
Proof.
  assert (Hr : reachable (after second_bid_created))
    by (apply after_reachable; vm_compute; reflexivity).
  assert (Hv : (1 < length (heap (after second_bid_created)))%nat)
    by (vm_compute; lia).
  assert (Hadd : AddOrder 16 6 (after second_bid_created) 1%nat
                 = Some (after second_bid, None))
    by (vm_compute; reflexivity).
  assert (Hnf : order.Status_ (deref (heap (after second_bid)) 1%nat)
                <> order.StatusFilled)
    by (vm_compute; discriminate).
  split; [ exact Hr | ]. split; [ exact Hadd | ].
  exact (proj1 (proj2 (admitted_order_can_be_cancelled 16 6 7 _ _ 1%nat Hr Hv Hadd Hnf))).
Defined.

(** *** The frame of [tryMatch] *)

(** The loops of [tryMatch] write to the incoming order and to the
    resting orders they visit, and to nothing else. *)
Lemma tryMatchLevel_frame now o resting h idx p :
  p <> o -> p ∉ resting -> deref (tryMatchLevel now o resting h idx).1.1 p = deref h p.
Proof.
  intros Hpo. revert h idx. induction resting as [| r rest IH]; intros h idx Hnot;
    cbn [tryMatchLevel]; [ done | ].
  apply not_elem_of_cons in Hnot as [Hpr Hnot].
  case_decide; [ by apply IH | ].
  case_match; [ by apply IH | ].
  destruct (order.Fill (deref h o) _ now) as [o1 e1].
  assert (H1 : deref (store h o o1) p = deref h p) by (by apply deref_store_ne).
  destruct e1 as [e | ]; [ exact H1 | ].
  destruct (order.Fill (deref (store h o o1) r) _ now) as [r1 e2].
  assert (H2 : deref (store (store h o o1) r r1) p = deref h p)
    by (by rewrite deref_store_ne).
  destruct e2 as [e | ]; [ exact H2 | ].
  case_decide; [ exact H2 | ].
  cbn. rewrite IH by done. exact H2.
Qed.

Lemma tryMatchLevels_frame now o isAggressive levels h idx p :
  p <> o -> p ∉ all_orders levels ->
  deref (tryMatchLevels now o isAggressive levels h idx).1.1 p = deref h p.
Proof.
  intros Hpo. revert h idx. induction levels as [| level next IH]; intros h idx Hnot;
    cbn [tryMatchLevels]; [ done | ].
  rewrite all_orders_cons in Hnot. apply not_elem_of_app in Hnot as [Hl Hnext].
  case_decide; [ done | ].
  case_match; [ done | ].
  pose proof (tryMatchLevel_frame now o (Orders level) h idx p Hpo Hl) as H1.
  destruct (tryMatchLevel now o (Orders level) h idx) as [[h' idx'] [e | ]]; cbn in H1.
  - exact H1.
  - rewrite IH by done. exact H1.
Qed.

Lemma tryMatchLevel_length now o resting h idx :
  length (tryMatchLevel now o resting h idx).1.1 = length h.
Proof.
  revert h idx. induction resting as [| r rest IH]; intros h idx;
    cbn [tryMatchLevel]; [ done | ].
  case_decide; [ by apply IH | ].
  case_match; [ by apply IH | ].
  destruct (order.Fill (deref h o) _ now) as [o1 e1].
  destruct e1 as [e | ]; [ apply length_store | ].
  destruct (order.Fill (deref (store h o o1) r) _ now) as [r1 e2].
  destruct e2 as [e | ]; [ cbn; by rewrite !length_store | ].
  case_decide; [ cbn; by rewrite !length_store | ].
  cbn. rewrite IH. by rewrite !length_store.
Qed.

(** *** Where an admitted order is queued *)

Lemma walk_at_head better price current next :
  price = Price current ->
  side_sorted better (current :: next) ->
  walk better price current next = (current :: next, 0%nat).
Proof.
  intros -> Hs. destruct next as [| n next']; cbn [walk].
  - unfold linkAfter. by rewrite Z.eqb_refl.
  - unfold side_sorted, level_prices in Hs. cbn in Hs.
    apply Sorted_inv in Hs as [_ Hhd]. apply HdRel_inv in Hhd.
    unfold no_later in Hhd. rewrite Hhd.
    unfold linkAfter. by rewrite Z.eqb_refl.
Qed.

Lemma addOrderTo_at_head better price o top rest :
  better price price = false -> price = Price top ->
  side_sorted better (top :: rest) ->
  addOrderTo better price o (top :: rest) = mkLevel (Price top) (Orders top ++ [o]) :: rest.
Proof.
  intros Hirr -> Hs. unfold addOrderTo. cbn [findOrCreateLevel].
  rewrite Hirr. by rewrite walk_at_head.
Qed.

Lemma walk_kept better price current next ls j l :
  walk better price current next = (ls, j) -> l ∈ current :: next -> l ∈ ls.
Proof.
  revert current ls j. induction next as [| n next' IH]; intros current ls j; cbn [walk].
  - unfold linkAfter. destruct (Price current =? price); intros [= <- <-]; [ done | ].
    intros ->%list_elem_of_singleton. apply list_elem_of_here.
  - destruct (better (Price n) price).
    + destruct (walk better price n next') as [ls' j'] eqn:E. intros [= <- <-].
      intros [-> | Hl]%elem_of_cons; [ apply list_elem_of_here | ].
      apply list_elem_of_further. by eapply IH.
    + unfold linkAfter. destruct (Price current =? price); intros [= <- <-]; [ done | ].
      intros [-> | Hl]%elem_of_cons; [ apply list_elem_of_here | ].
      by do 2 apply list_elem_of_further.
Qed.

Lemma findOrCreateLevel_kept better price levels ls i l :
  findOrCreateLevel better price levels = (ls, i) -> l ∈ levels ->
  exists k, ls !! k = Some l.
Proof.
  intros E Hl. apply list_elem_of_lookup_1.
  destruct levels as [| top rest]; cbn [findOrCreateLevel] in E.
  - by apply elem_of_nil in Hl.
  - destruct (better price (Price top)).
    + injection E as <- <-. by apply list_elem_of_further.
    + by eapply walk_kept.
Qed.

(** X13.  Where [addBuyOrder] and [addSellOrder] put an order, in a
    reachable state.  At the price of the head level of its side the order
    joins the tail of the queue of that level.  At a price that has
    priority over the head level (higher for a bid, lower for an ask), or
    on an empty side, the order is alone in a new head level.  In every
    case each level that was there is still there with its price, and
    its queue starts with the queue it had. *)
Theorem order_is_queued_behind (st : State) (o : ptr) :
  reachable st ->
  (forall top rest, buyLevels (book st) = top :: rest ->
     (order.Price (deref (heap st) o) = Price top ->
      addBuyOrder (heap st) o (buyLevels (book st))
      = mkLevel (Price top) (Orders top ++ [o]) :: rest) /\
     (Price top < order.Price (deref (heap st) o) ->
      addBuyOrder (heap st) o (buyLevels (book st))
      = mkLevel (order.Price (deref (heap st) o)) [o] :: top :: rest)) /\
  (forall top rest, sellLevels (book st) = top :: rest ->
     (order.Price (deref (heap st) o) = Price top ->
      addSellOrder (heap st) o (sellLevels (book st))
      = mkLevel (Price top) (Orders top ++ [o]) :: rest) /\
     (order.Price (deref (heap st) o) < Price top ->
      addSellOrder (heap st) o (sellLevels (book st))
      = mkLevel (order.Price (deref (heap st) o)) [o] :: top :: rest)) /\
  (buyLevels (book st) = [] ->
   addBuyOrder (heap st) o (buyLevels (book st))
   = [ mkLevel (order.Price (deref (heap st) o)) [o] ]) /\
  (sellLevels (book st) = [] ->
   addSellOrder (heap st) o (sellLevels (book st))
   = [ mkLevel (order.Price (deref (heap st) o)) [o] ]) /\
  (forall l, l ∈ buyLevels (book st) ->
     exists l', l' ∈ addBuyOrder (heap st) o (buyLevels (book st)) /\
                Price l' = Price l /\ Orders l `prefix_of` Orders l') /\
  (forall l, l ∈ sellLevels (book st) ->
     exists l', l' ∈ addSellOrder (heap st) o (sellLevels (book st)) /\
                Price l' = Price l /\ Orders l `prefix_of` Orders l').
Proof.
  intros Hreach. destruct (reachable_price_inv _ Hreach) as (_ & Hsb & Hss).
  assert (Hkeep : forall better price levels l, l ∈ levels ->
            exists l', l' ∈ addOrderTo better price o levels /\
                       Price l' = Price l /\ Orders l `prefix_of` Orders l').
  { intros better price levels l Hl. unfold addOrderTo.
    destruct (findOrCreateLevel better price levels) as [ls i] eqn:E.
    destruct (findOrCreateLevel_kept _ _ _ _ _ l E Hl) as [k Hk].
    destruct (decide (k = i)) as [-> | Hne].
    - exists (mkLevel (Price l) (Orders l ++ [o])). split; [ | split; [ done | ] ].
      + apply (list_elem_of_lookup_2 _ i). by rewrite list_lookup_alter_eq, Hk.
      + by apply prefix_app_r.
    - exists l. split; [ | done ].
      apply (list_elem_of_lookup_2 _ k). by rewrite list_lookup_alter_ne. }
  split; [ | split; [ | split; [ | split; [ | split ] ] ] ].
  - intros top rest E. rewrite E in Hsb |- *. unfold addBuyOrder. split.
    + intros Hp. apply addOrderTo_at_head; [ | done | done ].
      unfold buyBetter. apply Z.ltb_irrefl.
    + intros Hp. unfold addOrderTo. cbn [findOrCreateLevel]. unfold buyBetter.
      destruct (Z.ltb_spec (Price top) (order.Price (deref (heap st) o))); [ done | lia ].
  - intros top rest E. rewrite E in Hss |- *. unfold addSellOrder. split.
    + intros Hp. apply addOrderTo_at_head; [ | done | done ].
      unfold sellBetter. apply Z.ltb_irrefl.
    + intros Hp. unfold addOrderTo. cbn [findOrCreateLevel]. unfold sellBetter.
      destruct (Z.ltb_spec (order.Price (deref (heap st) o)) (Price top)); [ done | lia ].
  - by intros ->.
  - by intros ->.
  - intros l Hl. by apply Hkeep.
  - intros l Hl. by apply Hkeep.
Qed.

Lemma order_is_queued_behind_witness :
  reachable (after second_bid_created) /\
  addBuyOrder (heap (after second_bid_created)) 1%nat
              (buyLevels (book (after second_bid_created)))
  = [ mkLevel 50000 [0%nat]; mkLevel 49000 [1%nat] ] /\
  addBuyOrder (heap (after second_bid_created)) 0%nat
              (buyLevels (book (after second_bid_created)))
  = [ mkLevel 50000 [0%nat; 0%nat] ].
Proof.
  assert (Hr : reachable (after second_bid_created))
    by (apply after_reachable; vm_compute; reflexivity).
  split; [ exact Hr | ]. split; [ vm_compute; reflexivity | ].
  exact (proj1 (proj1 (order_is_queued_behind _ 0%nat Hr) (mkLevel 50000 [0%nat]) []
                  ltac:(vm_compute; reflexivity))
           ltac:(vm_compute; reflexivity)).
Defined.

(** *** When [match] does not return *)

(** X20.  [match] does not return when the head levels cross and the
    orders at the front of both are cancelled: both [Fill] calls of
    [processLevelMatch] are refused, neither order becomes filled, and the
    loop goes on with the same two orders.  No amount of fuel makes
    [match_] return. *)
Theorem match_spins_on_cancelled_heads (fuel : nat) (now : Time) (st : State)
    (bestBuy bestSell : PriceLevel) (buyNext sellNext : list PriceLevel)
    (b s : ptr) (bs ss : list ptr) :
  buyLevels (book st) = bestBuy :: buyNext ->
  sellLevels (book st) = bestSell :: sellNext ->
  Price bestSell <= Price bestBuy ->
  Orders bestBuy = b :: bs -> Orders bestSell = s :: ss ->
  order.Status_ (deref (heap st) b) = order.StatusCancelled ->
  order.Status_ (deref (heap st) s) = order.StatusCancelled ->
  match_ fuel now st = None.
Proof.
  intros Eb Es Hcross Ebo Eso Hb Hs.
  destruct fuel as [| fuel]; cbn [match_]; rewrite Eb, Es;
    (destruct (Z.ltb_spec (Price bestBuy) (Price bestSell)); [ lia | ]); [ done | ].
  rewrite Ebo, Eso. by rewrite processLevelMatch_spins.
Qed.

Lemma match_spins_on_cancelled_heads_witness :
  buyLevels (book stuck) = [ mkLevel 50000 [0%nat] ] /\
  sellLevels (book stuck) = [ mkLevel 50000 [1%nat] ] /\
  match_ 1000 6 stuck = None /\
  AddOrder 1000 6 both_cancelled 1%nat = None.
Proof.
  assert (Eb : buyLevels (book stuck) = [ mkLevel 50000 [0%nat] ])
    by (vm_compute; reflexivity).
  assert (Es : sellLevels (book stuck) = [ mkLevel 50000 [1%nat] ])
    by (vm_compute; reflexivity).
  assert (Hm : match_ 1000 6 stuck = None).
  { apply (match_spins_on_cancelled_heads 1000 6 stuck _ _ [] [] 0%nat 1%nat [] [] Eb Es);
      [ cbn; lia | reflexivity | reflexivity
      | vm_compute; reflexivity | vm_compute; reflexivity ]. }
  split; [ exact Eb | ]. split; [ exact Es | ]. split; [ exact Hm | ].
  assert (Ht : tryMatch 6 both_cancelled 1%nat
               = (fst (tryMatch 6 both_cancelled 1%nat), None))
    by (vm_compute; reflexivity).
  unfold AddOrder. rewrite decide_False by (vm_compute; intros H; by apply H).
  rewrite Ht. fold stuck. by rewrite Hm.
Defined.

(** *** What the book writes to *)

Lemma processLevelMatch_frame fuel now bs ss h bs' ss' h' p :
  processLevelMatch fuel now bs ss h = Some (bs', ss', h') ->
  p ∉ bs -> p ∉ ss -> deref h' p = deref h p.
Proof.
  revert bs ss h. induction fuel as [| fuel IH]; intros bs ss h;
    destruct bs as [| b bs0], ss as [| s ss0];
    cbn [processLevelMatch]; try (by intros [= <- <- <-]); try done.
  set (h2 := store (store h b _) s _).
  set (bs1 := if decide (order.Status_ (deref h2 b) = order.StatusFilled)
              then bs0 else b :: bs0).
  set (ss1 := if decide (order.Status_ (deref h2 s) = order.StatusFilled)
              then ss0 else s :: ss0).
  assert (Hbs1 : bs1 ⊆ b :: bs0).
  { unfold bs1. case_decide; [ apply list_subseteq_cons | ]; done. }
  assert (Hss1 : ss1 ⊆ s :: ss0).
  { unfold ss1. case_decide; [ apply list_subseteq_cons | ]; done. }
  clearbody bs1 ss1. intros E Hb Hs.
  rewrite (IH _ _ _ E);
    [ | intros Hin; apply Hb, Hbs1, Hin | intros Hin; apply Hs, Hss1, Hin ].
  unfold h2. apply not_elem_of_cons in Hb as [Hpb _]. apply not_elem_of_cons in Hs as [Hps _].
  by rewrite !deref_store_ne.
Qed.

Lemma match_frame fuel now st st' p :
  match_ fuel now st = Some st' ->
  p ∉ all_orders (buyLevels (book st)) -> p ∉ all_orders (sellLevels (book st)) ->
  deref (heap st') p = deref (heap st) p.
Proof.
  revert st. induction fuel as [| fuel IH]; intros st; cbn [match_];
    destruct (buyLevels (book st)) as [| bestBuy buyNext] eqn:Eb;
    destruct (sellLevels (book st)) as [| bestSell sellNext] eqn:Es;
    try (by intros [= <-]);
    destruct (Price bestBuy <? Price bestSell); try (by intros [= <-]); try done.
  destruct (processLevelMatch fuel now (Orders bestBuy) (Orders bestSell) (heap st))
    as [[[buyOrders sellOrders] h] | ] eqn:E; [ | done ].
  intros Hm Hb Hs. rewrite all_orders_cons in Hb, Hs.
  apply not_elem_of_app in Hb as [Hb Hbn]. apply not_elem_of_app in Hs as [Hs Hsn].
  destruct (processLevelMatch_subseteq _ _ _ _ _ _ _ _ E) as [Hsb Hss].
  rewrite (IH _ Hm); cbn [heap book buyLevels sellLevels cleanupEmptyLevels].
  - by eapply processLevelMatch_frame.
  - rewrite all_orders_dropEmptyLevels, all_orders_cons. cbn [Orders].
    intros [Hin | Hin]%elem_of_app; [ by apply Hb, Hsb | done ].
  - rewrite all_orders_dropEmptyLevels, all_orders_cons. cbn [Orders].
    intros [Hin | Hin]%elem_of_app; [ by apply Hs, Hss | done ].
Qed.

Lemma tryMatch_frame now st o p :
  p <> o -> p ∉ all_orders (opposite st o) ->
  deref (heap (fst (tryMatch now st o))) p = deref (heap st) p.
Proof.
  intros Hpo Hp. unfold tryMatch. unfold opposite in Hp.
  destruct (order.Side_ (deref (heap st) o)).
  - pose proof (tryMatchLevels_frame now o true (sellLevels (book st)) (heap st)
                  (orders (book st)) p Hpo Hp) as H.
    by destruct (tryMatchLevels now o true (sellLevels (book st)) (heap st)
                   (orders (book st))) as [[h' idx'] e].
  - pose proof (tryMatchLevels_frame now o false (buyLevels (book st)) (heap st)
                  (orders (book st)) p Hpo Hp) as H.
    by destruct (tryMatchLevels now o false (buyLevels (book st)) (heap st)
                   (orders (book st))) as [[h' idx'] e].
  - done.
Qed.

Lemma AddOrder_frame fuel now st o st' err p :
  AddOrder fuel now st o = Some (st', err) ->
  p <> o ->
  p ∉ all_orders (buyLevels (book st)) -> p ∉ all_orders (sellLevels (book st)) ->
  deref (heap st') p = deref (heap st) p.
Proof.
  intros Hadd Hpo Hb Hs. unfold AddOrder in Hadd.
  case_decide as Hsym; [ by injection Hadd as <- _ | ].
  assert (Hfr : deref (heap (fst (tryMatch now st o))) p = deref (heap st) p).
  { apply tryMatch_frame; [ done | ]. unfold opposite.
    destruct (order.Side_ (deref (heap st) o)); [ done | done | apply not_elem_of_nil ]. }
  destruct (tryMatch_levels now st o) as (Eb & Es & _).
  destruct (tryMatch now st o) as [st1 [e | ]]; cbn [fst] in *.
  { by injection Hadd as <- _. }
  destruct (match_ fuel now (addToBook st1 o)) as [st3 | ] eqn:E; [ | done ].
  injection Hadd as <- _.
  rewrite (match_frame _ _ _ _ p E); [ by rewrite heap_addToBook | | ].
  - unfold addToBook. case_decide; [ | by rewrite Eb ].
    destruct (order.Side_ (deref (heap st1) o));
      cbn [book buyLevels set_orders set_buyLevels set_sellLevels]; rewrite ?Eb; try done.
    unfold addBuyOrder. rewrite elem_of_all_orders_addOrderTo. by intros [? | ?].
  - unfold addToBook. case_decide; [ | by rewrite Es ].
    destruct (order.Side_ (deref (heap st1) o));
      cbn [book sellLevels set_orders set_buyLevels set_sellLevels]; rewrite ?Es; try done.
    unfold addSellOrder. rewrite elem_of_all_orders_addOrderTo. by intros [? | ?].
Qed.

(** X21.  [AddOrder] writes to the order it is given and to orders the
    level queues of the book hold, and to nothing else in memory: every
    other order is, when the call returns, exactly as it was. *)
Theorem AddOrder_writes_only_to_the_book (fuel : nat) (now : Time) (st st' : State)
    (o : ptr) (err : option error) (p : ptr) :
  AddOrder fuel now st o = Some (st', err) ->
  p <> o ->
  p ∉ all_orders (buyLevels (book st)) ++ all_orders (sellLevels (book st)) ->
  deref (heap st') p = deref (heap st) p.
Proof.
  intros Hadd Hpo [Hb Hs]%not_elem_of_app. by eapply AddOrder_frame.
Qed.

Lemma AddOrder_writes_only_to_the_book_witness :
  AddOrder 16 7 (after third_created) 1%nat = Some (after third_aside, None) /\
  deref (heap (after third_aside)) 2%nat = deref (heap (after third_created)) 2%nat.
Proof.
  assert (Hadd : AddOrder 16 7 (after third_created) 1%nat
                 = Some (after third_aside, None))
    by (vm_compute; reflexivity).
  split; [ exact Hadd | ].
  apply (AddOrder_writes_only_to_the_book 16 7 _ _ 1%nat None 2%nat Hadd); [ lia | ].
  vm_compute. intros H. apply list_elem_of_singleton in H. discriminate H.
Defined.

(** *** The limit price *)

Lemma tryMatchLevel_same now o resting h idx p :
  same_identity (deref h p) (deref (tryMatchLevel now o resting h idx).1.1 p).
Proof.
  destruct (decide (p < length h)%nat) as [Hv | Hv].
  - by apply (tryMatchLevel_rel same_identity same_identity_refl same_identity_trans
                Fill_same_identity now o resting h idx).
  - assert (deref (tryMatchLevel now o resting h idx).1.1 p = deref h p) as ->;
      [ | apply same_identity_refl ].
    unfold deref. rewrite (lookup_ge_None_2 h) by lia.
    rewrite lookup_ge_None_2; [ done | ]. rewrite tryMatchLevel_length. lia.
Qed.

(** [tryMatch] on a buy order leaves alone the orders of ask levels
    priced above its limit, and on a sell order those of bid levels priced
    below it. *)
Lemma tryMatchLevels_limit now (o : ptr) (isAggressive : bool)
    (levels : list PriceLevel) h idx p :
  p <> o ->
  (forall l, l ∈ levels -> p ∈ Orders l ->
     if isAggressive then order.Price (deref h o) < Price l
     else Price l < order.Price (deref h o)) ->
  deref (tryMatchLevels now o isAggressive levels h idx).1.1 p = deref h p.
Proof.
  intros Hpo. revert h idx. induction levels as [| level next IH]; intros h idx Hlim;
    cbn [tryMatchLevels]; [ done | ].
  case_decide; [ done | ].
  destruct (_ || _) eqn:Echeck; [ done | ].
  assert (Hnot : p ∉ Orders level).
  { intros Hin. specialize (Hlim level (list_elem_of_here _ _) Hin).
    apply orb_false_iff in Echeck as [E1 E2].
    destruct isAggressive; cbn in E1, E2, Hlim;
      [ apply Z.ltb_ge in E1 | apply Z.ltb_ge in E2 ]; lia. }
  pose proof (tryMatchLevel_frame now o (Orders level) h idx p Hpo Hnot) as H1.
  destruct (tryMatchLevel_same now o (Orders level) h idx o) as (_ & _ & _ & Hprice & _).
  destruct (tryMatchLevel now o (Orders level) h idx) as [[h' idx'] [e | ]];
    cbn [fst] in H1, Hprice; [ exact H1 | ].
  rewrite IH; [ exact H1 | ].
  intros l Hl Hin. rewrite Hprice. by apply Hlim; [ apply list_elem_of_further | ].
Qed.

Lemma tryMatch_limit now st o p :
  p <> o ->
  (order.Side_ (deref (heap st) o) = order.SideBuy ->
   forall l, l ∈ sellLevels (book st) -> p ∈ Orders l ->
     order.Price (deref (heap st) o) < Price l) ->
  (order.Side_ (deref (heap st) o) = order.SideSell ->
   forall l, l ∈ buyLevels (book st) -> p ∈ Orders l ->
     Price l < order.Price (deref (heap st) o)) ->
  deref (heap (fst (tryMatch now st o))) p = deref (heap st) p.
Proof.
  intros Hpo Hbuy Hsell. unfold tryMatch.
  destruct (order.Side_ (deref (heap st) o)).
  - pose proof (tryMatchLevels_limit now o true (sellLevels (book st)) (heap st)
                  (orders (book st)) p Hpo (Hbuy eq_refl)) as H.
    by destruct (tryMatchLevels now o true (sellLevels (book st)) (heap st)
                   (orders (book st))) as [[h' idx'] e].
  - pose proof (tryMatchLevels_limit now o false (buyLevels (book st)) (heap st)
                  (orders (book st)) p Hpo (Hsell eq_refl)) as H.
    by destruct (tryMatchLevels now o false (buyLevels (book st)) (heap st)
                   (orders (book st))) as [[h' idx'] e].
  - done.
Qed.

(** [match] leaves alone an order that no two crossing levels hold. *)
Lemma match_apart fuel now st st' p :
  match_ fuel now st = Some st' -> apart (book st) p ->
  deref (heap st') p = deref (heap st) p.
Proof.
  revert st. induction fuel as [| fuel IH]; intros st; cbn [match_];
    destruct (buyLevels (book st)) as [| bestBuy buyNext] eqn:Eb;
    destruct (sellLevels (book st)) as [| bestSell sellNext] eqn:Es;
    try (by intros [= <-]);
    destruct (Z.ltb_spec (Price bestBuy) (Price bestSell)) as [Hlt | Hge];
    try (by intros [= <-]); try done.
  destruct (processLevelMatch fuel now (Orders bestBuy) (Orders bestSell) (heap st))
    as [[[buyOrders sellOrders] h] | ] eqn:E; [ | done ].
  intros Hm Hap.
  destruct (processLevelMatch_subseteq _ _ _ _ _ _ _ _ E) as [Hsb Hss].
  unfold apart in Hap. rewrite Eb, Es in Hap.
  destruct (Hap bestBuy bestSell (list_elem_of_here _ _) (list_elem_of_here _ _) Hge)
    as [Hpb Hps].
  rewrite (IH _ Hm); cbn [heap book]; [ by eapply processLevelMatch_frame | ].
  intros b s. cbn [buyLevels sellLevels cleanupEmptyLevels].
  intros [[-> _] | Hb]%elem_of_dropEmptyLevels_head
         [[-> _] | Hs]%elem_of_dropEmptyLevels_head Hcross; cbn [Price Orders] in *.
  - split; [ intros Hin; by apply Hpb, Hsb | intros Hin; by apply Hps, Hss ].
  - destruct (Hap bestBuy s (list_elem_of_here _ _) (list_elem_of_further _ _ _ Hs) Hcross)
      as [_ Hs']. split; [ intros Hin; by apply Hpb, Hsb | done ].
  - destruct (Hap b bestSell (list_elem_of_further _ _ _ Hb) (list_elem_of_here _ _) Hcross)
      as [Hb' _]. split; [ done | intros Hin; by apply Hps, Hss ].
  - by apply Hap; [ apply list_elem_of_further | apply list_elem_of_further | ].
Qed.

(** The book into which [AddOrder] puts the incoming order, before it
    calls [match]: an order other than the incoming one is held by two
    crossing levels only if it is on the other side, at a price that the
    limit of the incoming order reaches. *)
Lemma addToBook_apart st o p :
  price_inv (book st) -> levels_ok st -> p <> o ->
  (order.Side_ (deref (heap st) o) = order.SideBuy ->
   forall l, l ∈ sellLevels (book st) -> p ∈ Orders l ->
     order.Price (deref (heap st) o) < Price l) ->
  (order.Side_ (deref (heap st) o) = order.SideSell ->
   forall l, l ∈ buyLevels (book st) -> p ∈ Orders l ->
     Price l < order.Price (deref (heap st) o)) ->
  apart (book (addToBook st o)) p.
Proof.
  intros Hprice Hlev Hpo Hbuy Hsell.
  assert (Hold : forall b s, b ∈ buyLevels (book st) -> s ∈ sellLevels (book st) ->
                   Price b < Price s)
    by (intros b s; by apply price_inv_all_pairs).
  unfold addToBook. case_decide as Hnf.
  2: { intros b s Hb Hs Hcross. specialize (Hold b s Hb Hs). lia. }
  destruct (order.Side_ (deref (heap st) o)) eqn:Eside;
    intros b s; cbn [book buyLevels sellLevels set_orders set_buyLevels set_sellLevels].
  - unfold addBuyOrder.
    intros [Hb | (Hp & q & Hq & Hqold)]%addOrderTo_levels Hs Hcross.
    { specialize (Hold b s Hb Hs). lia. }
    destruct Hqold as [-> | (l & Hl & Hlp & <-)].
    2: { specialize (Hold l s Hl Hs). lia. }
    split; [ rewrite Hq; by intros ->%list_elem_of_singleton | ].
    intros Hin. specialize (Hbuy eq_refl s Hs Hin). lia.
  - unfold addSellOrder.
    intros Hb [Hs | (Hp & q & Hq & Hqold)]%addOrderTo_levels Hcross.
    { specialize (Hold b s Hb Hs). lia. }
    destruct Hqold as [-> | (l & Hl & Hlp & <-)].
    2: { specialize (Hold b l Hb Hl). lia. }
    split; [ | rewrite Hq; by intros ->%list_elem_of_singleton ].
    intros Hin. specialize (Hsell eq_refl b Hb Hin). lia.
  - intros Hb Hs Hcross. specialize (Hold b s Hb Hs). lia.
Qed.

(** X26.  The limit price is respected, and orders of the same side are
    left alone.  In a reachable state the only orders [AddOrder] writes
    to are the incoming order and resting orders of the opposite side at
    a price its limit reaches: for a buy order, sell orders in ask levels
    priced at or below its price; for a sell order, buy orders in bid
    levels priced at or above its price.  Every other order in memory is
    as it was when the call returns. *)
Theorem AddOrder_respects_limit_price (fuel : nat) (now : Time) (st st' : State)
    (o : ptr) (err : option error) (p : ptr) :
  reachable st ->
  AddOrder fuel now st o = Some (st', err) ->
  deref (heap st') p <> deref (heap st) p ->
  p = o \/
  (order.Side_ (deref (heap st) o) = order.SideBuy /\
   exists l, l ∈ sellLevels (book st) /\ p ∈ Orders l /\
             Price l <= order.Price (deref (heap st) o)) \/
  (order.Side_ (deref (heap st) o) = order.SideSell /\
   exists l, l ∈ buyLevels (book st) /\ p ∈ Orders l /\
             order.Price (deref (heap st) o) <= Price l).
Proof.
  intros Hreach Hadd Hch.
  destruct (decide (p = o)) as [-> | Hpo]; [ by left | right ].
  destruct (decide (order.Side_ (deref (heap st) o) = order.SideBuy /\
                    Exists (fun l => p ∈ Orders l /\
                                     Price l <= order.Price (deref (heap st) o))
                           (sellLevels (book st)))) as [[Hs Hex] | Hnb].
  { left. split; [ done | ]. apply Exists_exists in Hex as (l & Hl & Hin & Hle). eauto. }
  destruct (decide (order.Side_ (deref (heap st) o) = order.SideSell /\
                    Exists (fun l => p ∈ Orders l /\
                                     order.Price (deref (heap st) o) <= Price l)
                           (buyLevels (book st)))) as [[Hs Hex] | Hns].
  { right. split; [ done | ]. apply Exists_exists in Hex as (l & Hl & Hin & Hle). eauto. }
  exfalso. apply Hch. clear Hch.
  assert (Hbuy : order.Side_ (deref (heap st) o) = order.SideBuy ->
                 forall l, l ∈ sellLevels (book st) -> p ∈ Orders l ->
                   order.Price (deref (heap st) o) < Price l).
  { intros Hs l Hl Hin.
    destruct (Z.lt_ge_cases (order.Price (deref (heap st) o)) (Price l)); [ done | ].
    destruct Hnb. split; [ done | ]. apply Exists_exists. exists l. by auto with lia. }
  assert (Hsell : order.Side_ (deref (heap st) o) = order.SideSell ->
                  forall l, l ∈ buyLevels (book st) -> p ∈ Orders l ->
                    Price l < order.Price (deref (heap st) o)).
  { intros Hs l Hl Hin.
    destruct (Z.lt_ge_cases (Price l) (order.Price (deref (heap st) o))); [ done | ].
    destruct Hns. split; [ done | ]. apply Exists_exists. exists l. by auto with lia. }
  clear Hnb Hns.
  pose proof (reachable_price_inv _ Hreach) as Hprice.
  pose proof (reachable_levels_ok _ Hreach) as Hlev.
  unfold AddOrder in Hadd.
  case_decide as Hsym; [ by injection Hadd as <- _ | ].
  pose proof (tryMatch_limit now st o p Hpo Hbuy Hsell) as Hfr.
  destruct (tryMatch_levels now st o) as (Eb & Es & Esym).
  pose proof (tryMatch_rel same_identity same_identity_refl same_identity_trans
                Fill_same_identity now st o) as Hid1.
  assert (Ho1 : same_identity (deref (heap st) o) (deref (heap (fst (tryMatch now st o))) o)).
  { destruct (decide (o < length (heap st))%nat) as [Hv | Hv]; [ by apply Hid1 | ].
    unfold tryMatch. unfold deref at 2 3. rewrite (lookup_ge_None_2 (heap st)) by lia.
    cbn. apply same_identity_refl. }
  pose proof (levels_ok_rel _ _ Hid1 Eb Es Esym Hlev) as Hlev1.
  destruct (tryMatch now st o) as [st1 [e | ]]; cbn [fst] in *.
  { by injection Hadd as <- _. }
  destruct (match_ fuel now (addToBook st1 o)) as [st3 | ] eqn:E; [ | done ].
  injection Hadd as <- _.
  rewrite (match_apart _ _ _ _ p E); [ by rewrite heap_addToBook | ].
  destruct Ho1 as (_ & Hside & _ & Hpr & _).
  apply addToBook_apart; try done.
  - unfold price_inv, uncrossed in *. by rewrite Eb, Es.
  - rewrite Hside, Hpr, Es. exact Hbuy.
  - rewrite Hside, Hpr, Eb. exact Hsell.
Qed.

Lemma AddOrder_respects_limit_price_witness :
  reachable (after (take 3 exact_fill)) /\
  AddOrder 16 4 (after (take 3 exact_fill)) 1%nat = Some (after exact_fill, None) /\
  order.Side_ (deref (heap (after (take 3 exact_fill))) 1%nat) = order.SideSell /\
  exists l, l ∈ buyLevels (book (after (take 3 exact_fill))) /\ 0%nat ∈ Orders l /\
            order.Price (deref (heap (after (take 3 exact_fill))) 1%nat) <= Price l.
Proof.
  assert (Hr : reachable (after (take 3 exact_fill)))
    by (apply after_reachable; vm_compute; reflexivity).
  assert (Hadd : AddOrder 16 4 (after (take 3 exact_fill)) 1%nat
                 = Some (after exact_fill, None))
    by (vm_compute; reflexivity).
  assert (Hch : deref (heap (after exact_fill)) 0%nat
                <> deref (heap (after (take 3 exact_fill))) 0%nat)
    by (vm_compute; congruence).
  split; [ exact Hr | ]. split; [ exact Hadd | ].
  destruct (AddOrder_respects_limit_price 16 4 _ _ 1%nat None 0%nat Hr Hadd Hch)
    as [H | [[H _] | H]].
  - discriminate H.
  - vm_compute in H. discriminate H.
  - exact H.
Defined.

End BookMore.

(** ** The service *)
Module ServiceMore.
Import orderbook Invariants OrderProps BookProps BookMore.

(** *** Each book of the service *)

Lemma AddOrder_symbol fuel now st o st' err :
  AddOrder fuel now st o = Some (st', err) -> symbol (book st') = symbol (book st).
Proof.
  intros Hadd. unfold AddOrder in Hadd.
  case_decide as Hsym; [ by injection Hadd as <- _ | ].
  destruct (tryMatch_levels now st o) as (_ & _ & Esym).
  destruct (tryMatch now st o) as [st1 [e | ]]; cbn [fst] in *.
  { by injection Hadd as <- _. }
  destruct (match_ fuel now (addToBook st1 o)) as [st3 | ] eqn:E; [ | done ].
  injection Hadd as <- _.
  destruct (match_subseteq _ _ _ _ E) as (_ & _ & _ & ->). rewrite <- Esym.
  unfold addToBook. case_decide; [ | done ].
  by destruct (order.Side_ (deref (heap st1) o)).
Qed.

Lemma exec_symbol fuel now st op st' :
  exec fuel now st op = Some st' -> symbol (book st') = symbol (book st).
Proof.
  destruct op as [id side sym price quantity | o | orderID]; cbn [exec].
  - by destruct (order.NewOrder id now side sym price quantity); intros [= <-].
  - case_decide; [ | done ].
    destruct (AddOrder fuel now st o) as [[st1 e] | ] eqn:E; [ | done ].
    intros [= <-]. by eapply AddOrder_symbol.
  - intros [= <-]. unfold CancelOrder.
    destruct (orders (book st) !! orderID) as [o | ]; [ | done ].
    by destruct (order.Cancel (deref (heap st) o) now) as [o1 [e | ]].
Qed.

(** An entry of the [orders] map after a call was there before, or is the
    order just admitted, which carries the symbol of the book. *)
Lemma AddOrder_entries fuel now st o st' err id p :
  AddOrder fuel now st o = Some (st', err) ->
  orders (book st') !! id = Some p ->
  orders (book st) !! id = Some p \/
  (p = o /\ order.Symbol (deref (heap st) o) = symbol (book st)).
Proof.
  intros Hadd. unfold AddOrder in Hadd.
  case_decide as Hsym; [ injection Hadd as <- _; by left | ].
  pose proof (tryMatch_orders now st o) as Hsub.
  destruct (tryMatch now st o) as [st1 [e | ]]; cbn [fst] in *.
  { injection Hadd as <- _. intros Hp. left. by eapply lookup_weaken. }
  destruct (match_ fuel now (addToBook st1 o)) as [st3 | ] eqn:E; [ | done ].
  injection Hadd as <- _.
  destruct (match_subseteq _ _ _ _ E) as (_ & _ & -> & _).
  unfold addToBook. case_decide; [ | intros Hp; left; by eapply lookup_weaken ].
  cbn [book orders set_orders].
  destruct (decide (order.ID (deref (heap st1) o) = id)) as [<- | Hne].
  - rewrite lookup_insert_eq. intros [= <-]. by right.
  - rewrite lookup_insert_ne by done. intros Hp. left.
    eapply lookup_weaken; [ | exact Hsub ].
    by destruct (order.Side_ (deref (heap st1) o)).
Qed.

Lemma exec_entries fuel now st op st' id p :
  exec fuel now st op = Some st' ->
  orders (book st') !! id = Some p ->
  orders (book st) !! id = Some p \/
  ((p < length (heap st))%nat /\ order.Symbol (deref (heap st) p) = symbol (book st)).
Proof.
  destruct op as [id' side sym price quantity | o | orderID]; cbn [exec].
  - destruct (order.NewOrder id' now side sym price quantity); intros [= <-]; by left.
  - case_decide; [ | done ].
    destruct (AddOrder fuel now st o) as [[st1 e] | ] eqn:E; [ | done ].
    intros [= <-] Hp. destruct (AddOrder_entries _ _ _ _ _ _ _ _ E Hp) as [? | [-> ?]]; auto.
  - intros [= <-]. unfold CancelOrder.
    destruct (orders (book st) !! orderID) as [o | ]; [ | by left ].
    destruct (order.Cancel (deref (heap st) o) now) as [o1 [e | ]]; cbn; [ by left | ].
    intros Hp. left. eapply lookup_weaken; [ exact Hp | apply delete_subseteq ].
Qed.

Lemma book_ok_exec fuel now h sym ob op st' :
  book_ok h sym ob -> exec fuel now (mkState h ob) op = Some st' ->
  book_ok (heap st') sym (book st').
Proof.
  intros (Hsym & Hinv & Hprice & Hlev & Hidx & Hisym) Hexec.
  pose proof (exec_same_identity _ _ _ _ _ Hexec) as [Hlen Hid].
  split; [ by rewrite (exec_symbol _ _ _ _ _ Hexec) | ].
  assert (Est : st' = mkState (heap st') (book st')) by (by destruct st').
  split; [ rewrite <- Est; by eapply exec_inv | ].
  split; [ by eapply (exec_price_inv _ _ (mkState h ob)) | ].
  split; [ rewrite <- Est; by eapply exec_levels_ok | ].
  split; [ by eapply (exec_index _ _ (mkState h ob)) | ].
  intros id p Hp. cbn [heap book] in *.
  destruct (exec_entries _ _ _ _ _ _ _ Hexec Hp) as [Hold | [Hv Hs]]; cbn [heap book] in *.
  - destruct (Hidx id p Hold) as [Hv _]. destruct (Hid p Hv) as (_ & _ & -> & _).
    by eapply Hisym.
  - destruct (Hid p Hv) as (_ & _ & -> & _). congruence.
Qed.

(** A change of the heap made for another book: the identity fields of
    the orders stay, and the orders stay well formed. *)
Lemma book_ok_foreign h h' sym ob :
  book_ok h sym ob -> heap_ok h' -> heap_rel same_identity h h' -> book_ok h' sym ob.
Proof.
  intros (Hsym & (Hok & Hbuy & Hsell) & Hprice & Hlev & Hidx & Hisym) Hok' Hrel.
  split; [ done | ]. split; [ | split; [ done | ] ].
  { split; [ done | ]. split; eapply side_ok_rel; eauto. }
  split; [ by eapply (levels_ok_rel (mkState h ob) (mkState h' ob)) | ].
  split; [ by eapply index_ok_rel | ].
  intros id p Hp. destruct (Hidx id p Hp) as [Hv _].
  destruct Hrel as [_ Hrel]. destruct (Hrel p Hv) as (_ & _ & -> & _). by eapply Hisym.
Qed.

Lemma book_ok_new h sym : heap_ok h -> book_ok h sym (NewOrderBook sym).
Proof.
  intros Hok. split; [ done | ]. split; [ | split; [ | split; [ | split ] ] ].
  - split; [ done | ]. split; intros p Hp; by apply elem_of_nil in Hp.
  - split; [ done | ]. split; constructor.
  - split; intros l Hl; by apply elem_of_nil in Hl.
  - intros id p Hp. cbn in Hp. by rewrite lookup_empty in Hp.
  - intros id p Hp. cbn in Hp. by rewrite lookup_empty in Hp.
Qed.

(** *** The invariant of the service *)

(** A call on one book of the service, whose result is stored back under
    the symbol of the book. *)
Lemma service_inv_step fuel now s sym ob op st' :
  service_inv s -> book_ok (matching.memory s) sym ob ->
  exec fuel now (mkState (matching.memory s) ob) op = Some st' ->
  service_inv (matching.mkService (heap st') (<[sym := book st']> (matching.books s))).
Proof.
  intros [Hok Hbooks] Hob Hexec.
  pose proof (book_ok_exec _ _ _ _ _ _ _ Hob Hexec) as Hob'.
  pose proof (exec_same_identity _ _ _ _ _ Hexec) as Hid.
  assert (Hok' : heap_ok (heap st')) by (by destruct Hob' as (_ & (? & _) & _)).
  split; [ done | ]. cbn [matching.memory matching.books].
  intros sym' ob'. destruct (decide (sym = sym')) as [<- | Hne].
  - rewrite lookup_insert_eq. by intros [= <-].
  - rewrite lookup_insert_ne by done. intros Hl.
    eapply book_ok_foreign; [ by apply Hbooks | done | done ].
Qed.

Lemma service_inv_exec fuel now s op s' :
  matching.exec fuel now s op = Some s' -> service_inv s -> service_inv s'.
Proof.
  intros Hexec Hinv. pose proof Hinv as [Hok Hbooks].
  destruct op as [id side sym price quantity | o | sym orderID]; cbn [matching.exec] in Hexec.
  - destruct (order.NewOrder id now side sym price quantity) as [e | o] eqn:Enew;
      injection Hexec as <-; [ done | ].
    assert (Hstep : exec fuel now (mkState (matching.memory s) (NewOrderBook sym))
                      (OpNewOrder id side sym price quantity)
                    = Some (mkState (fst (alloc (matching.memory s) o)) (NewOrderBook sym)))
      by (cbn [exec]; by rewrite Enew).
    pose proof (book_ok_exec _ _ _ _ _ _ _ (book_ok_new _ sym Hok) Hstep)
      as (_ & (Hok' & _) & _).
    pose proof (exec_same_identity _ _ _ _ _ Hstep) as Hid.
    split; [ done | ]. intros sym' ob' Hl.
    eapply book_ok_foreign; [ by apply Hbooks | done | done ].
  - case_decide as Hvo; [ | done ]. unfold matching.AddOrder in Hexec.
    set (sym := order.Symbol (deref (matching.memory s) o)) in *.
    set (ob := match matching.books s !! sym with
               | Some book => book | None => NewOrderBook sym end) in *.
    assert (Hob : book_ok (matching.memory s) sym ob).
    { unfold ob. destruct (matching.books s !! sym) as [book | ] eqn:El;
        [ by apply Hbooks | by apply book_ok_new ]. }
    destruct (AddOrder fuel now (mkState (matching.memory s) ob) o) as [[st e] | ] eqn:E;
      [ | done ].
    injection Hexec as <-. cbn [fst].
    apply (service_inv_step fuel now s sym ob (OpAddOrder o)); [ done | done | ].
    cbn [exec heap]. rewrite decide_True by done. by rewrite E.
  - injection Hexec as <-. unfold matching.CancelOrder.
    destruct (matching.books s !! sym) as [ob | ] eqn:El; [ | done ].
    destruct (CancelOrder now (mkState (matching.memory s) ob) orderID) as [st e] eqn:E.
    cbn [fst].
    apply (service_inv_step fuel now s sym ob (OpCancelOrder orderID));
      [ done | by apply Hbooks | ].
    cbn [exec]. by rewrite E.
Qed.

Lemma reachable_service_inv s : matching.reachable s -> service_inv s.
Proof.
  induction 1 as [| s fuel now op s' _ IH Hexec].
  - split; [ intros p Hp; cbn in Hp; lia | ].
    intros sym ob Hl. cbn in Hl. by rewrite lookup_empty in Hl.
  - by eapply service_inv_exec.
Qed.

Lemma run_service_reachable fuel ops s s' :
  matching.reachable s -> matching.run fuel s ops = Some s' -> matching.reachable s'.
Proof.
  revert s. induction ops as [| [now op] ops IH]; intros s Hr; cbn [matching.run].
  { by intros [= <-]. }
  destruct (matching.exec fuel now s op) as [s1 | ] eqn:E; [ | done ].
  apply IH. by eapply matching.reachable_step.
Qed.

Lemma served_reachable ops :
  matching.run 16 matching.NewService ops = Some (MoreScenarios.served ops) ->
  matching.reachable (MoreScenarios.served ops).
Proof. apply run_service_reachable. constructor. Qed.

(** X22.  Every book of a reachable service is well formed.  For a symbol
    without a book [Service.GetOrderBook] fails with "symbol not found".
    Otherwise the snapshot carries the symbol asked for; its best bid is
    priced strictly below its best ask; the bids are listed from the
    highest price down and the asks from the lowest price up; no level is
    empty; and every order of a level is an allocated order of that
    symbol whose limit price is the price of the level. *)
Theorem service_snapshot_is_well_formed (s : matching.ServiceState) (sym : string) :
  matching.reachable s ->
  match matching.GetOrderBook s sym with
  | inl e => e = matching.ErrSymbolNotFound sym /\ matching.books s !! sym = None
  | inr snap =>
      Symbol snap = sym /\
      (forall b bs a asks, Bids snap = b :: bs -> Asks snap = a :: asks ->
         Price b < Price a) /\
      (forall i j li lj, (i < j)%nat ->
         Bids snap !! i = Some li -> Bids snap !! j = Some lj -> Price lj <= Price li) /\
      (forall i j li lj, (i < j)%nat ->
         Asks snap !! i = Some li -> Asks snap !! j = Some lj -> Price li <= Price lj) /\
      (forall l, l ∈ Bids snap ++ Asks snap ->
         Orders l <> [] /\
         forall p, p ∈ Orders l ->
           (p < length (matching.memory s))%nat /\
           order.Price (deref (matching.memory s) p) = Price l /\
           order.Symbol (deref (matching.memory s) p) = sym)
  end.
Proof.
  intros Hreach. destruct (reachable_service_inv _ Hreach) as [Hok Hbooks].
  unfold matching.GetOrderBook.
  destruct (matching.books s !! sym) as [ob | ] eqn:El; [ | done ].
  destruct (Hbooks sym ob El) as (Hsym & _ & (Hu & Hsb & Hss) & [Hb Hs] & _).
  cbn [GetOrderBook Symbol Bids Asks heap book] in *.
  split; [ done | ]. split; [ | split; [ | split ] ].
  - intros b bs a asks Eb Ea. unfold uncrossed in Hu. by rewrite Eb, Ea in Hu.
  - intros i j li lj Hij Hi Hj.
    pose proof (side_sorted_lookup buyBetter (buyLevels ob) i j li lj) as H.
    unfold no_later, buyBetter in H. rewrite Z.ltb_ge in H. apply H; try done.
    intros a b c. rewrite !Z.ltb_ge. lia.
  - intros i j li lj Hij Hi Hj.
    pose proof (side_sorted_lookup sellBetter (sellLevels ob) i j li lj) as H.
    unfold no_later, sellBetter in H. rewrite Z.ltb_ge in H. apply H; try done.
    intros a b c. rewrite !Z.ltb_ge. lia.
  - intros l [Hl | Hl]%elem_of_app.
    + pose proof (Hb l Hl) as Hlev. split; [ by destruct Hlev | ]. intros p Hp.
      split; [ by eapply (level_ok_valid _ order.SideBuy) | ].
      destruct Hlev as [_ Hlev]. destruct (Hlev p Hp) as (_ & ? & ?). split; congruence.
    + pose proof (Hs l Hl) as Hlev. split; [ by destruct Hlev | ]. intros p Hp.
      split; [ by eapply (level_ok_valid _ order.SideSell) | ].
      destruct Hlev as [_ Hlev]. destruct (Hlev p Hp) as (_ & ? & ?). split; congruence.
Qed.

Lemma service_snapshot_is_well_formed_witness :
  matching.reachable (MoreScenarios.served MoreScenarios.two_symbols) /\
  exists snap,
    matching.GetOrderBook (MoreScenarios.served MoreScenarios.two_symbols) "ETH-USD"
    = inr snap /\ Symbol snap = "ETH-USD".
Proof.
  assert (Hr : matching.reachable (MoreScenarios.served MoreScenarios.two_symbols))
    by (apply served_reachable; vm_compute; reflexivity).
  split; [ exact Hr | ].
  pose proof (service_snapshot_is_well_formed _ "ETH-USD" Hr) as H.
  destruct (matching.GetOrderBook (MoreScenarios.served MoreScenarios.two_symbols) "ETH-USD")
    as [e | snap] eqn:E.
  - exfalso. vm_compute in E. discriminate E.
  - exists snap. split; [ reflexivity | exact (proj1 H) ].
Defined.

(** X23.  [Service.AddOrder] routes by symbol.  In a reachable service,
    when it returns, a book is filed under the symbol of the order and
    carries that symbol; the books filed under other symbols are the
    books that were there; every order of another symbol is in memory as
    it was; and the book's "invalid symbol" error is never returned: an
    error, when there is one, is that of a [Fill] made by [tryMatch],
    "cannot fill cancelled order" or "fill amount exceeds order
    quantity". *)
Theorem service_AddOrder_routes_by_symbol (fuel : nat) (now : Time)
    (s s' : matching.ServiceState) (o : ptr) (err : option error) :
  matching.reachable s -> (o < length (matching.memory s))%nat ->
  matching.AddOrder fuel now s o = Some (s', err) ->
  (exists ob, matching.books s' !! order.Symbol (deref (matching.memory s) o) = Some ob /\
              symbol ob = order.Symbol (deref (matching.memory s) o)) /\
  (forall sym, sym <> order.Symbol (deref (matching.memory s) o) ->
     matching.books s' !! sym = matching.books s !! sym) /\
  (forall p, order.Symbol (deref (matching.memory s) p)
             <> order.Symbol (deref (matching.memory s) o) ->
     deref (matching.memory s') p = deref (matching.memory s) p) /\
  (forall e, err = Some e -> e = ErrFillCancelled \/ e = ErrFillExceeds).
Proof.
  intros Hreach Hvo Hadd. destruct (reachable_service_inv _ Hreach) as [Hok Hbooks].
  unfold matching.AddOrder in Hadd.
  set (sym := order.Symbol (deref (matching.memory s) o)) in *.
  set (ob := match matching.books s !! sym with
             | Some book => book | None => NewOrderBook sym end) in *.
  assert (Hob : book_ok (matching.memory s) sym ob).
  { unfold ob. destruct (matching.books s !! sym) as [book | ] eqn:El;
      [ by apply Hbooks | by apply book_ok_new ]. }
  clearbody ob.
  destruct (AddOrder fuel now (mkState (matching.memory s) ob) o) as [[st e] | ] eqn:E;
    [ | done ].
  injection Hadd as <- <-. cbn [matching.books matching.memory].
  destruct Hob as (Hsym & Hinv & _ & [Hlb Hls] & _).
  split; [ | split; [ | split ] ].
  - exists (book st). rewrite lookup_insert_eq. split; [ done | ].
    by rewrite (AddOrder_symbol _ _ _ _ _ _ E).
  - intros sym' Hne. by rewrite lookup_insert_ne.
  - intros p Hp. apply (AddOrder_frame _ _ _ _ _ _ p E); cbn [heap book].
    + by intros ->.
    + intros (l & Hin & Hl)%list_elem_of_bind.
      destruct (Hlb l Hl) as [_ Hlev]. destruct (Hlev p Hin) as (_ & _ & Hs).
      cbn [heap book] in Hs. congruence.
    + intros (l & Hin & Hl)%list_elem_of_bind.
      destruct (Hls l Hl) as [_ Hlev]. destruct (Hlev p Hin) as (_ & _ & Hs).
      cbn [heap book] in Hs. congruence.
  - intros e' ->.
    destruct (BookMore.AddOrder_error_cases _ _ _ _ _ _ E)
      as [(_ & Hne & _) | (_ & He & _)]; [ | exact He ].
    cbn [heap book] in Hne. by destruct Hne.
Qed.

Lemma service_AddOrder_routes_by_symbol_witness :
  matching.reachable (MoreScenarios.served (take 3 MoreScenarios.two_symbols)) /\
  matching.AddOrder 16 4 (MoreScenarios.served (take 3 MoreScenarios.two_symbols)) 1%nat
  = Some (MoreScenarios.served MoreScenarios.two_symbols, None) /\
  deref (matching.memory (MoreScenarios.served MoreScenarios.two_symbols)) 0%nat
  = deref (matching.memory (MoreScenarios.served (take 3 MoreScenarios.two_symbols))) 0%nat.
Proof.
  assert (Hr : matching.reachable (MoreScenarios.served (take 3 MoreScenarios.two_symbols)))
    by (apply served_reachable; vm_compute; reflexivity).
  assert (Hv : (1 < length (matching.memory
                              (MoreScenarios.served (take 3 MoreScenarios.two_symbols))))%nat)
    by (vm_compute; lia).
  assert (Hadd : matching.AddOrder 16 4
                   (MoreScenarios.served (take 3 MoreScenarios.two_symbols)) 1%nat
                 = Some (MoreScenarios.served MoreScenarios.two_symbols, None))
    by (vm_compute; reflexivity).
  split; [ exact Hr | ]. split; [ exact Hadd | ].
  apply (proj1 (proj2 (proj2 (service_AddOrder_routes_by_symbol 16 4 _ _ 1%nat None
                                Hr Hv Hadd)))).
  vm_compute. discriminate.
Defined.

(** X24.  [Service.CancelOrder] acts on one symbol.  For a symbol
    without a book it fails with "symbol not found" and changes nothing.
    In a reachable service, whatever it returns, the books filed under
    other symbols are the books that were there and every order of
    another symbol is in memory as it was; and when it returns an error
    no order in memory has changed, the error being "symbol not found",
    the book's "order not found" or the order's "cannot cancel filled
    order". *)
Theorem service_CancelOrder_acts_on_one_symbol (now : Time) (s : matching.ServiceState)
    (sym orderID : string) :
  matching.reachable s ->
  (matching.books s !! sym = None ->
   matching.CancelOrder now s sym orderID = (s, Some (matching.ErrSymbolNotFound sym))) /\
  (forall sym', sym' <> sym ->
     matching.books (fst (matching.CancelOrder now s sym orderID)) !! sym'
     = matching.books s !! sym') /\
  (forall p, order.Symbol (deref (matching.memory s) p) <> sym ->
     deref (matching.memory (fst (matching.CancelOrder now s sym orderID))) p
     = deref (matching.memory s) p) /\
  (forall e, snd (matching.CancelOrder now s sym orderID) = Some e ->
     matching.memory (fst (matching.CancelOrder now s sym orderID)) = matching.memory s /\
     (e = matching.ErrSymbolNotFound sym \/
      e = matching.ErrOf (ErrOrderNotFound orderID) \/
      e = matching.ErrOf ErrCancelFilled)).
Proof.
  intros Hreach. destruct (reachable_service_inv _ Hreach) as [Hok Hbooks].
  unfold matching.CancelOrder.
  destruct (matching.books s !! sym) as [ob | ] eqn:El.
  2: { split; [ done | ]. split; [ done | ]. split; [ done | ].
       intros e [= <-]. by auto. }
  split; [ done | ].
  destruct (Hbooks sym ob El) as (_ & _ & _ & _ & _ & Hisym).
  unfold CancelOrder. cbn [heap book].
  destruct (orders ob !! orderID) as [o | ] eqn:Eo; cbn [fst snd matching.books matching.memory].
  2: { split; [ intros sym' Hne; by rewrite lookup_insert_ne | ]. split; [ done | ].
       intros e [= <-]. by auto. }
  pose proof (Hisym orderID o Eo) as Ho.
  unfold order.Cancel. case_decide as Hf; cbn [fst snd matching.books matching.memory heap book].
  - rewrite store_deref.
    split; [ intros sym' Hne; by rewrite lookup_insert_ne | ]. split; [ done | ].
    intros e [= <-]. by auto.
  - split; [ intros sym' Hne; by rewrite lookup_insert_ne | ].
    split; [ | done ].
    intros p Hp. apply deref_store_ne. intros ->. done.
Qed.

Lemma service_CancelOrder_acts_on_one_symbol_witness :
  matching.reachable (MoreScenarios.served MoreScenarios.two_symbols) /\
  snd (matching.CancelOrder 5 (MoreScenarios.served MoreScenarios.two_symbols) "ETH-USD" "E")
  = None /\
  deref (matching.memory
           (fst (matching.CancelOrder 5 (MoreScenarios.served MoreScenarios.two_symbols)
                   "ETH-USD" "E"))) 0%nat
  = deref (matching.memory (MoreScenarios.served MoreScenarios.two_symbols)) 0%nat.
Proof.
  assert (Hr : matching.reachable (MoreScenarios.served MoreScenarios.two_symbols))
    by (apply served_reachable; vm_compute; reflexivity).
  split; [ exact Hr | ]. split; [ vm_compute; reflexivity | ].
  apply (proj1 (proj2 (proj2 (service_CancelOrder_acts_on_one_symbol 5 _ "ETH-USD" "E" Hr)))).
  vm_compute. discriminate.
Defined.

(** *** [Service.GetOrder] and the order of the books *)

Lemma firstFound_None h visit orderID :
  matching.firstFound h visit orderID = None <->
  forall x, x ∈ visit -> GetOrder (mkState h x.2) orderID = inl (ErrOrderNotFound orderID).
Proof.
  induction visit as [| [sym ob] visit IH]; cbn [matching.firstFound].
  { split; [ by intros _ x ?%elem_of_nil | done ]. }
  destruct (GetOrder (mkState h ob) orderID) as [e | p] eqn:E.
  - assert (e = ErrOrderNotFound orderID) as ->.
    { unfold GetOrder in E. repeat case_match; congruence. }
    rewrite IH. split.
    + intros Hall x [-> | Hx]%elem_of_cons; [ done | by apply Hall ].
    + intros Hall x Hx. by apply Hall, list_elem_of_further.
  - split; [ done | ]. intros Hall.
    specialize (Hall (sym, ob) (list_elem_of_here _ _)). cbn in Hall. congruence.
Qed.

Lemma firstFound_Some h visit orderID p :
  matching.firstFound h visit orderID = Some p ->
  exists x, x ∈ visit /\ GetOrder (mkState h x.2) orderID = inr p.
Proof.
  induction visit as [| [sym ob] visit IH]; cbn [matching.firstFound]; [ done | ].
  destruct (GetOrder (mkState h ob) orderID) as [e | q] eqn:E.
  - intros (x & Hx & Hg)%IH. exists x. split; [ by apply list_elem_of_further | done ].
  - intros [= ->]. exists (sym, ob). split; [ apply list_elem_of_here | done ].
Qed.

(** X25.  [Service.GetOrder] ranges over the map of books in no
    specified order.  Whatever the order: it fails, with "order not
    found", exactly when the [GetOrder] of every book fails; and an order
    it returns carries the id and is what the [GetOrder] of one of the
    books returns. *)
Theorem service_GetOrder_any_order (visit : list (string * OrderBook))
    (s : matching.ServiceState) (orderID : string) :
  visit ≡ₚ map_to_list (matching.books s) ->
  (matching.GetOrder visit s orderID = inl (ErrOrderNotFound orderID) <->
   forall sym ob, matching.books s !! sym = Some ob ->
     GetOrder (mkState (matching.memory s) ob) orderID = inl (ErrOrderNotFound orderID)) /\
  (forall e, matching.GetOrder visit s orderID = inl e -> e = ErrOrderNotFound orderID) /\
  (forall p, matching.GetOrder visit s orderID = inr p ->
     order.ID (deref (matching.memory s) p) = orderID /\
     exists sym ob, matching.books s !! sym = Some ob /\
       GetOrder (mkState (matching.memory s) ob) orderID = inr p).
Proof.
  intros Hperm. unfold matching.GetOrder.
  assert (Hin : forall sym ob, (sym, ob) ∈ visit <-> matching.books s !! sym = Some ob).
  { intros sym ob. rewrite Hperm. apply elem_of_map_to_list. }
  destruct (matching.firstFound (matching.memory s) visit orderID) as [p | ] eqn:E.
  - split; [ | split; [ done | ] ].
    + split; [ done | ]. intros Hall.
      destruct (firstFound_Some _ _ _ _ E) as ([sym ob] & Hx & Hg). cbn [snd] in Hg.
      apply Hin in Hx. rewrite (Hall sym ob Hx) in Hg. done.
    + intros q [= <-]. destruct (firstFound_Some _ _ _ _ E) as ([sym ob] & Hx & Hg).
      cbn [snd] in Hg. split; [ by destruct (GetOrder_found _ _ _ Hg) | ].
      exists sym, ob. split; [ by apply Hin | done ].
  - split; [ | split; [ by intros e [= <-] | done ] ].
    split; [ | done ]. intros _ sym ob Hl.
    apply (proj1 (firstFound_None _ _ _) E (sym, ob)). by apply Hin.
Qed.

Lemma service_GetOrder_any_order_witness :
  matching.GetOrder (map_to_list (matching.books (MoreScenarios.served MoreScenarios.two_symbols)))
                    (MoreScenarios.served MoreScenarios.two_symbols) "E" = inr 1%nat /\
  order.ID (deref (matching.memory (MoreScenarios.served MoreScenarios.two_symbols)) 1%nat)
  = "E".
Proof.
  assert (Hg : matching.GetOrder
                 (map_to_list (matching.books (MoreScenarios.served MoreScenarios.two_symbols)))
                 (MoreScenarios.served MoreScenarios.two_symbols) "E" = inr 1%nat)
    by (vm_compute; reflexivity).
  split; [ exact Hg | ].
  exact (proj1 (proj2 (proj2 (service_GetOrder_any_order _ _ "E" (reflexivity _))) 1%nat Hg)).
Defined.

End ServiceMore.

(** ** Rounding: the order entity and the order book on [float64] *)
Module Float64Props.
Import PrimFloat orderbook64 Scenarios64 Invariants64.
#[local] Set Warnings "-inexact-float".
Local Open Scope float_scope.

Lemma run64_reachable fuel ops st st' :
  reachable st -> run fuel st ops = Some st' -> reachable st'.
Proof.
  revert st. induction ops as [| [now op] ops IH]; intros st Hr; cbn [run].
  { by intros [= <-]. }
  destruct (exec fuel now st op) as [st1 | ] eqn:E; [ | done ].
  apply IH. by eapply reachable_step.
Qed.

Lemma after64_reachable ops :
  run 16 (init Scenarios.btc) ops = Some (after ops) -> reachable (after ops).
Proof. apply run64_reachable. constructor. Qed.

(** C6 (fails on the code).  Buy A 0.9@50000 rests and Sell B 0.3@50000
    fills 0.3 of it.  Sell C 1.0@50000 is then admitted: [tryMatch] takes
    [min(1.0, 0.9 - 0.3)], and [0.9 - 0.3] is 0.6000000000000001 in
    binary64; C is filled by that much, and [A.Fill] adds it to 0.3, which
    gives 0.9000000000000001.  [Fill] has assigned [Filled] before it
    finds it above [Quantity] and returns "fill amount exceeds order
    quantity", which [AddOrder] returns.  A stays at the head of its bid
    level, [StatusPartial], with [Filled > Quantity]. *)
Theorem overfill_by_rounding :
  run 16 (init Scenarios.btc) third_created = Some (after third_created) /\
  AddOrder 16 6%Z (after third_created) 2%nat
    = Some (after overfilled, Some ErrFillExceeds) /\
  heap (after overfilled)
    = [ order64.mkOrder "A" order.SideBuy Scenarios.btc 50000 0.9 0.9000000000000001
                        order.StatusPartial 1%Z 6%Z;
        order64.mkOrder "B" order.SideSell Scenarios.btc 50000 0.3 0.3
                        order.StatusFilled 3%Z 4%Z;
        order64.mkOrder "C" order.SideSell Scenarios.btc 50000 1.0 0.6000000000000001
                        order.StatusPartial 5%Z 6%Z ] /\
  (order64.Quantity (deref (heap (after overfilled)) 0%nat)
   <? order64.Filled (deref (heap (after overfilled)) 0%nat)) = true /\
  buyLevels (book (after overfilled)) = [ mkLevel 50000 [0%nat] ] /\
  orders (book (after overfilled)) !! "A" = Some 0%nat.
Proof. repeat split; vm_compute; reflexivity. Qed.

(** *** [Fill] *)

(** X15.  What [Fill] returns, on [float64].  The three errors have their
    conditions, tested in this order: [quantity <= 0]; the order is
    cancelled; the rounded sum [Filled + quantity] is above [Quantity].
    The first two leave the order as it was; the third leaves it with the
    sum in [Filled] and the time of the call in [UpdatedAt].  A [Fill]
    that succeeds stores the rounded sum and the time, and sets
    [StatusFilled] if the sum [==] the quantity and [StatusPartial]
    otherwise.  Rounding shows: on an order of quantity 0.9 with 0.3
    filled, [RemainingQuantity] is 0.6000000000000001 and [Fill] of
    exactly that is refused as exceeding, with [Filled] left at
    0.9000000000000001; and on a new order of quantity 1, [Fill(0.1)],
    [Fill(0.2)], [Fill(0.3)] leave [Filled] at 0.6000000000000001 where
    [Fill(0.1)], [Fill(0.5)] leave it at 0.6. *)
Theorem Fill_outcome_with_rounding (o : order64.Order) (q : float) (now : Time) :
  (snd (order64.Fill o q now) = Some ErrFillNotPositive <-> (q <=? 0) = true) /\
  (snd (order64.Fill o q now) = Some ErrFillCancelled <->
   (q <=? 0) = false /\ order64.Status_ o = order.StatusCancelled) /\
  (snd (order64.Fill o q now) = Some ErrFillExceeds <->
   (q <=? 0) = false /\ order64.Status_ o <> order.StatusCancelled /\
   (order64.Quantity o <? order64.Filled o + q) = true) /\
  (snd (order64.Fill o q now) = Some ErrFillNotPositive \/
   snd (order64.Fill o q now) = Some ErrFillCancelled ->
   fst (order64.Fill o q now) = o) /\
  (snd (order64.Fill o q now) = Some ErrFillExceeds ->
   fst (order64.Fill o q now)
   = order64.set_UpdatedAt now (order64.set_Filled (order64.Filled o + q) o)) /\
  (snd (order64.Fill o q now) = None ->
   fst (order64.Fill o q now)
   = order64.set_Status
       (if order64.Filled o + q =? order64.Quantity o
        then order.StatusFilled else order.StatusPartial)
       (order64.set_UpdatedAt now (order64.set_Filled (order64.Filled o + q) o))) /\
  order64.RemainingQuantity third_filled = 0.6000000000000001 /\
  order64.Fill third_filled (order64.RemainingQuantity third_filled) 5%Z
    = (order64.mkOrder "A" order.SideBuy Scenarios.btc 50000 0.9 0.9000000000000001
                       order.StatusPartial 1%Z 5%Z,
       Some ErrFillExceeds) /\
  (forall n : order64.Order,
     order64.NewOrder "N" 1%Z order.SideBuy Scenarios.btc 50000 1 = inr n ->
     let n1 := fst (order64.Fill n 0.1 2%Z) in
     order64.Filled (fst (order64.Fill (fst (order64.Fill n1 0.2 3%Z)) 0.3 4%Z))
       = 0.6000000000000001 /\
     order64.Filled (fst (order64.Fill n1 0.5 4%Z)) = 0.6 /\
     snd (order64.Fill (fst (order64.Fill n1 0.2 3%Z)) 0.3 4%Z) = None /\
     snd (order64.Fill n1 0.5 4%Z) = None).
Proof.
  assert (Hgen :
    match snd (order64.Fill o q now) with
    | Some ErrFillNotPositive => (q <=? 0) = true /\ fst (order64.Fill o q now) = o
    | Some ErrFillCancelled =>
        (q <=? 0) = false /\ order64.Status_ o = order.StatusCancelled /\
        fst (order64.Fill o q now) = o
    | Some ErrFillExceeds =>
        (q <=? 0) = false /\ order64.Status_ o <> order.StatusCancelled /\
        (order64.Quantity o <? order64.Filled o + q) = true /\
        fst (order64.Fill o q now)
        = order64.set_UpdatedAt now (order64.set_Filled (order64.Filled o + q) o)
    | Some _ => False
    | None =>
        (q <=? 0) = false /\ order64.Status_ o <> order.StatusCancelled /\
        (order64.Quantity o <? order64.Filled o + q) = false /\
        fst (order64.Fill o q now)
        = order64.set_Status
            (if order64.Filled o + q =? order64.Quantity o
             then order.StatusFilled else order.StatusPartial)
            (order64.set_UpdatedAt now (order64.set_Filled (order64.Filled o + q) o))
    end).
  { unfold order64.Fill. destruct (q <=? 0); [ done | ].
    case_decide; [ done | ]. cbn.
    destruct (order64.Quantity o <? order64.Filled o + q); [ done | ].
    by destruct (order64.Filled o + q =? order64.Quantity o). }
  split_and!.
  - destruct (snd (order64.Fill o q now)) as [[] | ]; split; intros H;
      try discriminate H; try done; destruct Hgen as (? & ?); congruence.
  - destruct (snd (order64.Fill o q now)) as [[] | ]; split; intros H;
      try discriminate H; try done; intuition congruence.
  - destruct (snd (order64.Fill o q now)) as [[] | ]; split; intros H;
      try discriminate H; try done; intuition congruence.
  - destruct (snd (order64.Fill o q now)) as [[] | ]; intros [H | H];
      try discriminate H; intuition.
  - destruct (snd (order64.Fill o q now)) as [[] | ]; intros H;
      try discriminate H; intuition.
  - destruct (snd (order64.Fill o q now)) as [[] | ]; intros H;
      try discriminate H; intuition.
  - vm_compute; reflexivity.
  - vm_compute; reflexivity.
  - intros n [= <-]. repeat split; vm_compute; reflexivity.
Qed.

(** *** [GetBestBid] *)

(** X27.  [GetBestBid] can return a negative quantity.  After Buy A
    0.9@50000, Sell B 0.3@50000 and Sell C 1.0@50000, the head bid level
    holds A alone, whose remaining quantity is [0.9 - 0.9000000000000001],
    and [GetBestBid] returns the price 50000 with that sum, which is below
    zero. *)
Theorem negative_best_bid_quantity :
  exists st quantity,
    reachable st /\
    GetBestBid st = inr (50000, quantity) /\
    (quantity <? 0) = true.
Proof.
  exists (after overfilled), (0.9 - 0.9000000000000001).
  split; [ apply after64_reachable; vm_compute; reflexivity | ].
  split; vm_compute; reflexivity.
Qed.

(** *** When [match] does not return *)

Lemma store64_deref h p : store h p (deref h p) = h.
Proof.
  unfold store, deref. destruct (h !! p) as [o | ] eqn:E; cbn.
  - by apply list_insert_id.
  - apply list_insert_ge. by apply lookup_ge_None.
Qed.

Lemma Fill64_not_positive o q now :
  (q <=? 0) = true -> order64.Fill o q now = (o, Some ErrFillNotPositive).
Proof. intros Hq. unfold order64.Fill. by rewrite Hq. Qed.

(** With nothing to take from one of the two front orders, a turn of the
    loop of [processLevelMatch] changes nothing, and the loop goes on. *)
Lemma processLevelMatch64_spins fuel now b bs s ss h :
  (min (order64.RemainingQuantity (deref h b))
       (order64.RemainingQuantity (deref h s)) <=? 0) = true ->
  order64.Status_ (deref h b) <> order.StatusFilled ->
  order64.Status_ (deref h s) <> order.StatusFilled ->
  processLevelMatch fuel now (b :: bs) (s :: ss) h = None.
Proof.
  intros Hq Hb Hs. induction fuel as [| fuel IH]; cbn [processLevelMatch]; [ done | ].
  rewrite (Fill64_not_positive (deref h b)) by done. cbn [fst]. rewrite store64_deref.
  rewrite (Fill64_not_positive (deref h s)) by done. cbn [fst]. rewrite store64_deref.
  by rewrite !decide_False.
Qed.

(** X7.  [match], and with it [AddOrder], does not always return.  When
    the head levels cross, neither order at the front of the two queues
    is [StatusFilled], and [min] of their remaining quantities is not
    positive, both [Fill] calls of [processLevelMatch] are refused
    ("fill quantity must be positive"), no order changes, no queue
    shrinks, and the loop goes on with the same two orders: no amount of
    fuel makes [match_] return.  Calls alone lead to such a state: after
    the overfill of A, the admission of Sell D 0.5@50000 puts D in front
    of the crossing ask level while A, with a negative remainder, is at
    the front of the bids. *)
Theorem match_spins_on_nothing_remaining (fuel : nat) (now : Time) (st : State)
    (bestBuy bestSell : PriceLevel) (buyNext sellNext : list PriceLevel)
    (b s : ptr) (bs ss : list ptr) :
  buyLevels (book st) = bestBuy :: buyNext ->
  sellLevels (book st) = bestSell :: sellNext ->
  (Price bestBuy <? Price bestSell) = false ->
  Orders bestBuy = b :: bs -> Orders bestSell = s :: ss ->
  (min (order64.RemainingQuantity (deref (heap st) b))
       (order64.RemainingQuantity (deref (heap st) s)) <=? 0) = true ->
  order64.Status_ (deref (heap st) b) <> order.StatusFilled ->
  order64.Status_ (deref (heap st) s) <> order.StatusFilled ->
  match_ fuel now st = None.
Proof.
  intros Eb Es Hcross Ebo Eso Hq Hb Hs.
  destruct fuel as [| fuel]; cbn [match_]; rewrite Eb, Es, Hcross; [ done | ].
  rewrite Ebo, Eso. by rewrite processLevelMatch64_spins.
Qed.

Lemma match_spins_on_nothing_remaining_witness :
  run 16 (init Scenarios.btc) fourth_created = Some (after fourth_created) /\
  buyLevels (book stuck) = [ mkLevel 50000 [0%nat] ] /\
  sellLevels (book stuck) = [ mkLevel 50000 [3%nat] ] /\
  match_ 1000 8%Z stuck = None /\
  AddOrder 1000 8%Z (after fourth_created) 3%nat = None.
Proof.
  assert (Eb : buyLevels (book stuck) = [ mkLevel 50000 [0%nat] ])
    by (vm_compute; reflexivity).
  assert (Es : sellLevels (book stuck) = [ mkLevel 50000 [3%nat] ])
    by (vm_compute; reflexivity).
  assert (Hm : match_ 1000 8%Z stuck = None).
  { apply (match_spins_on_nothing_remaining 1000 8%Z stuck _ _ [] [] 0%nat 3%nat [] [] Eb Es);
      [ reflexivity | reflexivity | reflexivity | vm_compute; reflexivity
      | vm_compute; discriminate | vm_compute; discriminate ]. }
  split; [ vm_compute; reflexivity | ].
  split; [ exact Eb | ]. split; [ exact Es | ]. split; [ exact Hm | ].
  assert (Ht : tryMatch 8%Z (after fourth_created) 3%nat
               = (fst (tryMatch 8%Z (after fourth_created) 3%nat), None))
    by (vm_compute; reflexivity).
  unfold AddOrder. rewrite decide_False by (vm_compute; intros H; by apply H).
  rewrite Ht. fold stuck. by rewrite Hm.
Defined.

(** *** Priority in [tryMatch] *)

Lemma deref64_store_eq h p o : (p < length h)%nat -> deref (store h p o) p = o.
Proof. intros Hp. unfold deref, store. by rewrite list_lookup_insert_eq. Qed.

Lemma deref64_store_ne h p q o : p <> q -> deref (store h p o) q = deref h q.
Proof. intros Hp. unfold deref, store. by rewrite list_lookup_insert_ne. Qed.

Lemma length64_store h p o : length (store h p o) = length h.
Proof. apply length_insert. Qed.

Lemma all_orders64_cons level next :
  all_orders (level :: next) = Orders level ++ all_orders next.
Proof. reflexivity. Qed.

(** When the package's [min] is not positive, one of its arguments is
    not. *)
Lemma min64_not_positive a b :
  (min a b <=? 0) = true ->
  ((a <? b) = true /\ (a <=? 0) = true) \/ (b <=? 0) = true.
Proof. unfold min. destruct (a <? b); intros H; [ by left | by right ]. Qed.

(** With a first argument that is not positive, [min] is not positive
    either, unless the second argument is NaN. *)
Lemma min64_idle a b : (a <=? 0) = true -> (b =? b) = true -> (min a b <=? 0) = true.
Proof.
  unfold min. intros Ha Hb. destruct (a <? b) eqn:E; [ exact Ha | ].
  rewrite FloatAxioms.leb_spec in *. rewrite FloatAxioms.ltb_spec in E.
  rewrite FloatAxioms.eqb_spec in Hb.
  change (FloatOps.Prim2SF 0) with (SpecFloat.S754_zero false) in *.
  destruct (FloatOps.Prim2SF a) as [[|]|[|]| |[|] ma ea],
           (FloatOps.Prim2SF b) as [[|]|[|]| |[|] mb eb];
    cbn in *; try reflexivity; try discriminate.
Qed.

(** A [Fill] that succeeds stamps the order and leaves it partial or
    filled. *)
Lemma Fill64_done o q now :
  snd (order64.Fill o q now) = None ->
  order64.UpdatedAt (fst (order64.Fill o q now)) = now /\
  (order64.Status_ (fst (order64.Fill o q now)) = order.StatusFilled \/
   order64.Status_ (fst (order64.Fill o q now)) = order.StatusPartial).
Proof.
  unfold order64.Fill. destruct (q <=? 0); [ done | ]. case_decide; [ done | ].
  cbv zeta. destruct (_ <? _); [ done | ].
  destruct (_ =? _); cbn; intros _; split; auto.
Qed.

Lemma offered_frame now h h' r :
  deref h' r = deref h r -> offered now h r -> offered now h' r.
Proof. unfold offered. by intros ->. Qed.

Lemma numeric_frame h h' r : deref h' r = deref h r -> numeric h r -> numeric h' r.
Proof. unfold numeric. by intros ->. Qed.

(** With nothing left of the incoming order the loops change nothing, as
    long as what remains of each resting order is a number. *)
Lemma tryMatchLevel64_idle now o resting h idx :
  (order64.RemainingQuantity (deref h o) <=? 0) = true ->
  (forall r, r ∈ resting -> numeric h r) ->
  tryMatchLevel now o resting h idx = (h, idx, None).
Proof.
  intros Hrem. induction resting as [| r rest IH]; intros Hnum;
    cbn [tryMatchLevel]; [ done | ].
  assert (IH' : tryMatchLevel now o rest h idx = (h, idx, None)).
  { apply IH. intros q Hq. by apply Hnum, list_elem_of_further. }
  case_decide; [ done | ].
  rewrite min64_idle; [ done | done | apply Hnum, list_elem_of_here ].
Qed.

Lemma tryMatchLevels64_idle now o isAggressive levels h idx :
  (order64.RemainingQuantity (deref h o) <=? 0) = true ->
  (forall r, r ∈ all_orders levels -> numeric h r) ->
  tryMatchLevels now o isAggressive levels h idx = (h, idx, None).
Proof.
  intros Hrem. induction levels as [| level next IH]; intros Hnum;
    cbn [tryMatchLevels]; [ done | ].
  case_decide; [ done | ]. destruct (_ || _); [ done | ].
  rewrite tryMatchLevel64_idle; [ | done | ].
  - apply IH. intros r Hr. apply Hnum. rewrite all_orders64_cons.
    apply elem_of_app. by right.
  - intros r Hr. apply Hnum. rewrite all_orders64_cons. apply elem_of_app. by left.
Qed.

Lemma tryMatchLevels64_done now o isAggressive levels h idx :
  order64.Status_ (deref h o) = order.StatusFilled ->
  tryMatchLevels now o isAggressive levels h idx = (h, idx, None).
Proof. intros Hf. destruct levels; cbn [tryMatchLevels]; [ done | ]. by rewrite decide_True. Qed.

(** The loops of [tryMatch] write to the incoming order and to the
    resting orders they visit, and to nothing else. *)
Lemma tryMatchLevel64_frame now o resting h idx p :
  p <> o -> p ∉ resting -> deref (tryMatchLevel now o resting h idx).1.1 p = deref h p.
Proof.
  intros Hpo. revert h idx. induction resting as [| r rest IH]; intros h idx Hnot;
    cbn [tryMatchLevel]; [ done | ].
  apply not_elem_of_cons in Hnot as [Hpr Hnot].
  case_decide; [ by apply IH | ].
  destruct (_ <=? 0); [ by apply IH | ].
  destruct (order64.Fill (deref h o) _ now) as [o1 e1].
  assert (H1 : deref (store h o o1) p = deref h p) by (by apply deref64_store_ne).
  destruct e1 as [e | ]; [ exact H1 | ].
  destruct (order64.Fill (deref (store h o o1) r) _ now) as [r1 e2].
  assert (H2 : deref (store (store h o o1) r r1) p = deref h p)
    by (by rewrite deref64_store_ne).
  destruct e2 as [e | ]; [ exact H2 | ].
  case_decide; [ exact H2 | ].
  cbn. rewrite IH by done. exact H2.
Qed.

Lemma tryMatchLevels64_frame now o isAggressive levels h idx p :
  p <> o -> p ∉ all_orders levels ->
  deref (tryMatchLevels now o isAggressive levels h idx).1.1 p = deref h p.
Proof.
  intros Hpo. revert h idx. induction levels as [| level next IH]; intros h idx Hnot;
    cbn [tryMatchLevels]; [ done | ].
  rewrite all_orders64_cons in Hnot. apply not_elem_of_app in Hnot as [Hl Hnext].
  case_decide; [ done | ].
  destruct (_ || _); [ done | ].
  pose proof (tryMatchLevel64_frame now o (Orders level) h idx p Hpo Hl) as H1.
  destruct (tryMatchLevel now o (Orders level) h idx) as [[h' idx'] [e | ]]; cbn in H1.
  - exact H1.
  - rewrite IH by done. exact H1.
Qed.

Lemma tryMatchLevel64_length now o resting h idx :
  length (tryMatchLevel now o resting h idx).1.1 = length h.
Proof.
  revert h idx. induction resting as [| r rest IH]; intros h idx;
    cbn [tryMatchLevel]; [ done | ].
  case_decide; [ by apply IH | ].
  destruct (_ <=? 0); [ by apply IH | ].
  destruct (order64.Fill (deref h o) _ now) as [o1 e1].
  destruct e1 as [e | ]; [ apply length64_store | ].
  destruct (order64.Fill (deref (store h o o1) r) _ now) as [r1 e2].
  destruct e2 as [e | ]; [ cbn; by rewrite !length64_store | ].
  case_decide; [ cbn; by rewrite !length64_store | ].
  cbn. rewrite IH. by rewrite !length64_store.
Qed.

(** One turn of the inner loop of [tryMatch], on the resting order [x].
    Either the loop ends there, having written to no order but the
    incoming one and [x], and if it ends without error the incoming order
    is filled or has nothing left; or it goes on with the rest of the
    queue, and then [x] has been dealt with. *)
Lemma tryMatchLevel64_step now (o x : ptr) (rest : list ptr) h idx :
  o <> x -> (x < length h)%nat -> (forall r, r ∈ rest -> numeric h r) ->
  ((forall p, p <> o -> p <> x ->
      deref (tryMatchLevel now o (x :: rest) h idx).1.1 p = deref h p) /\
   ((tryMatchLevel now o (x :: rest) h idx).2 = None ->
    order64.Status_ (deref (tryMatchLevel now o (x :: rest) h idx).1.1 o)
      = order.StatusFilled \/
    (order64.RemainingQuantity (deref (tryMatchLevel now o (x :: rest) h idx).1.1 o)
       <=? 0) = true)) \/
  (exists h2 idx2,
     tryMatchLevel now o (x :: rest) h idx = tryMatchLevel now o rest h2 idx2 /\
     length h2 = length h /\
     (forall p, p <> o -> p <> x -> deref h2 p = deref h p) /\
     offered now h2 x).
Proof.
  intros Hne Hvx Hnum. cbn [tryMatchLevel].
  case_decide as Hxc.
  { right. exists h, idx. do 3 (split; [ done | ]). by left. }
  destruct (_ <=? 0) eqn:Eq.
  { destruct (min64_not_positive _ _ Eq) as [[_ Ho] | Hx].
    - left. rewrite tryMatchLevel64_idle by done. cbn. split; [ done | ].
      intros _. by right.
    - right. exists h, idx. do 3 (split; [ done | ]). right. by left. }
  destruct (order64.Fill (deref h o) _ now) as [o1 [e | ]].
  { left. cbn. split; [ | done ]. intros p Hpo Hpx. by apply deref64_store_ne. }
  match goal with
  | |- context [order64.Fill (deref (store h o o1) x) ?q now] =>
      pose proof (Fill64_done (deref (store h o o1) x) q now) as Hdone
  end.
  destruct (order64.Fill (deref (store h o o1) x) _ now) as [x1 e2];
    cbn [fst snd] in Hdone.
  assert (Hfr : forall p, p <> o -> p <> x ->
                  deref (store (store h o o1) x x1) p = deref h p).
  { intros p Hpo Hpx. by rewrite !deref64_store_ne. }
  destruct e2 as [e | ].
  { left. cbn. split; [ exact Hfr | done ]. }
  case_decide as Hof.
  { left. cbn. split; [ exact Hfr | ]. intros _. by left. }
  right. eexists _, _. split; [ reflexivity | ].
  split; [ by rewrite !length64_store | ]. split; [ exact Hfr | ].
  right. right. rewrite deref64_store_eq by (by rewrite length64_store).
  by apply Hdone.
Qed.

(** Time priority in a level, and what is left of a level that the loop
    has gone through. *)
Lemma tryMatchLevel64_priority now (o : ptr) (resting : list ptr) h idx :
  o ∉ resting -> NoDup resting ->
  (forall r, r ∈ resting -> (r < length h)%nat /\ numeric h r) ->
  (forall i j r p, (i < j)%nat -> resting !! i = Some r -> resting !! j = Some p ->
     deref (tryMatchLevel now o resting h idx).1.1 p <> deref h p ->
     offered now (tryMatchLevel now o resting h idx).1.1 r) /\
  ((tryMatchLevel now o resting h idx).2 = None ->
   order64.Status_ (deref (tryMatchLevel now o resting h idx).1.1 o)
     <> order.StatusFilled ->
   (order64.RemainingQuantity (deref (tryMatchLevel now o resting h idx).1.1 o) <=? 0)
     = false ->
   forall r, r ∈ resting -> offered now (tryMatchLevel now o resting h idx).1.1 r).
Proof.
  revert h idx. induction resting as [| x rest IH]; intros h idx Hnot Hnd Hval.
  { split; [ by intros i j r p _ ? | by intros _ _ _ r ?%elem_of_nil ]. }
  apply not_elem_of_cons in Hnot as [Hne Hnot].
  apply NoDup_cons in Hnd as [Hx Hnd].
  assert (Hvx : (x < length h)%nat) by apply Hval, list_elem_of_here.
  assert (Hnum : forall r, r ∈ rest -> numeric h r).
  { intros r Hr. by apply Hval, list_elem_of_further. }
  destruct (tryMatchLevel64_step now o x rest h idx Hne Hvx Hnum)
    as [[Hfr Hstop] | (h2 & idx2 & -> & Hlen & Hfr & Hoff)].
  - split.
    + intros i [| j] r p Hij Hi Hj Hch; [ lia | ]. cbn in Hj.
      apply list_elem_of_lookup_2 in Hj. destruct Hch. apply Hfr; by intros ->.
    + intros He Hnf Hpos. destruct (Hstop He) as [Hf | Hz]; [ done | congruence ].
  - assert (Hval2 : forall r, r ∈ rest -> (r < length h2)%nat /\ numeric h2 r).
    { intros r Hr. destruct (Hval r (list_elem_of_further _ _ _ Hr)) as [Hv Hn].
      split; [ by rewrite Hlen | ].
      apply (numeric_frame h); [ | done ]. apply Hfr; by intros ->. }
    assert (Hkeep : offered now (tryMatchLevel now o rest h2 idx2).1.1 x).
    { apply (offered_frame now h2); [ | done ].
      apply tryMatchLevel64_frame; [ by intros -> | done ]. }
    destruct (IH h2 idx2 Hnot Hnd Hval2) as [IH1 IH2]. split.
    + intros i [| j] r p Hij Hi Hj Hch; [ lia | ]. cbn in Hj.
      pose proof (list_elem_of_lookup_2 _ _ _ Hj) as Hp.
      destruct i as [| i]; cbn in Hi.
      * by injection Hi as <-.
      * apply (IH1 i j r p); [ lia | done | done | ].
        rewrite Hfr; [ done | by intros -> | by intros -> ].
    + intros He Hnf Hpos r [-> | Hr]%elem_of_cons; [ done | by apply IH2 ].
Qed.

(** Priority over the levels [tryMatch] walks: a resting order is written
    to only when the orders ahead of it have been dealt with. *)
Lemma tryMatchLevels64_priority now (o : ptr) isAggressive (levels : list PriceLevel)
    h idx :
  o ∉ all_orders levels -> NoDup (all_orders levels) ->
  (forall r, r ∈ all_orders levels -> (r < length h)%nat /\ numeric h r) ->
  forall i j r p, (i < j)%nat ->
    all_orders levels !! i = Some r -> all_orders levels !! j = Some p ->
    deref (tryMatchLevels now o isAggressive levels h idx).1.1 p <> deref h p ->
    offered now (tryMatchLevels now o isAggressive levels h idx).1.1 r.
Proof.
  revert h idx. induction levels as [| level next IH]; intros h idx Hnot Hnd Hval
    i j r p Hij Hi Hj; [ done | ].
  rewrite all_orders64_cons in Hnot, Hnd, Hval, Hi, Hj.
  apply not_elem_of_app in Hnot as [Hl Hnext].
  apply NoDup_app in Hnd as (Hndl & Hdis & Hndn).
  assert (Hvl : forall r, r ∈ Orders level -> (r < length h)%nat /\ numeric h r)
    by (intros q Hq; apply Hval, elem_of_app; by left).
  assert (Hvn : forall r, r ∈ all_orders next -> (r < length h)%nat /\ numeric h r)
    by (intros q Hq; apply Hval, elem_of_app; by right).
  cbn [tryMatchLevels].
  case_decide as Hof; [ done | ].
  destruct (_ || _); [ done | ].
  destruct (tryMatchLevel64_priority now o (Orders level) h idx Hl Hndl Hvl)
    as [P1 P2].
  pose proof (tryMatchLevel64_length now o (Orders level) h idx) as Hlen1.
  pose proof (fun q => tryMatchLevel64_frame now o (Orders level) h idx q) as Hfr1.
  destruct (tryMatchLevel now o (Orders level) h idx) as [[h1 idx1] e];
    cbn [fst snd] in P1, P2, Hlen1, Hfr1.
  assert (Hcases :
    (Orders level !! j = Some p /\ Orders level !! i = Some r) \/
    (p ∈ all_orders next /\ r ∈ Orders level) \/
    (all_orders next !! (j - length (Orders level))%nat = Some p /\
     all_orders next !! (i - length (Orders level))%nat = Some r /\
     (i - length (Orders level) < j - length (Orders level))%nat)).
  { apply lookup_app_Some in Hj as [Hj | [Hjl Hj]];
      apply lookup_app_Some in Hi as [Hi | [Hil Hi]].
    - by left.
    - apply lookup_lt_Some in Hj. lia.
    - right. left. split; by eapply list_elem_of_lookup_2.
    - right. right. split; [ done | ]. split; [ done | lia ]. }
  assert (Hpo : forall q, q ∈ Orders level ++ all_orders next -> q <> o).
  { intros q Hq ->. apply elem_of_app in Hq as [Hq | Hq]; done. }
  assert (Hnext1 : forall q, q ∈ all_orders next -> deref h1 q = deref h q).
  { intros q Hq. apply Hfr1; [ apply Hpo, elem_of_app; by right | ].
    intros Hq'. by apply (Hdis q). }
  destruct e as [e | ]; cbn [fst].
  - intros Hch. destruct Hcases as [[Hj' Hi'] | [[Hp Hr] | (Hj' & _)]].
    + by apply (P1 i j r p).
    + destruct Hch. by apply Hnext1.
    + destruct Hch. apply Hnext1. by eapply list_elem_of_lookup_2.
  - assert (Hvn1 : forall r, r ∈ all_orders next ->
                     (r < length h1)%nat /\ numeric h1 r).
    { intros q Hq. destruct (Hvn q Hq) as [Hv Hn]. split; [ by rewrite Hlen1 | ].
      apply (numeric_frame h); [ by apply Hnext1 | done ]. }
    assert (Hlater : forall q, q ∈ Orders level ->
              deref (tryMatchLevels now o isAggressive next h1 idx1).1.1 q = deref h1 q).
    { intros q Hq. apply tryMatchLevels64_frame; [ apply Hpo, elem_of_app; by left | ].
      by apply Hdis. }
    intros Hch. destruct Hcases as [[Hj' Hi'] | [[Hp Hr] | (Hj' & Hi' & Hij')]].
    + apply (offered_frame now h1).
      { apply Hlater. by eapply list_elem_of_lookup_2. }
      apply (P1 i j r p); try done.
      rewrite Hlater in Hch; [ done | by eapply list_elem_of_lookup_2 ].
    + apply (offered_frame now h1); [ by apply Hlater | ].
      apply P2; [ done | | | done ].
      * intros Hf. apply Hch. rewrite tryMatchLevels64_done by done. by apply Hnext1.
      * destruct (_ <=? 0) eqn:Ez; [ | done ].
        destruct Hch. rewrite tryMatchLevels64_idle; [ by apply Hnext1 | done | ].
        intros q Hq. by apply Hvn1.
    + apply (IH h1 idx1 Hnext Hndn Hvn1 _ _ r p Hij' Hi' Hj').
      rewrite Hnext1; [ done | by eapply list_elem_of_lookup_2 ].
Qed.

(** X12.  Price-time priority of the matching pass of an admission, on
    [float64].  [tryMatch] walks the opposite side level by level from
    the head, and each level from the front of its queue.  When that side
    holds no order twice and not the incoming order, and what remains of
    each of its orders is a number, then if [tryMatch] writes to a
    resting order every order ahead of it in the walk has been dealt
    with: it is cancelled, or nothing remains of it
    ([RemainingQuantity <= 0]), or a [Fill] of this call has succeeded on
    it, which stamped it with the time of the call and left it
    [StatusFilled] or [StatusPartial].  It need not be [StatusFilled]:
    the fill of [min(remaining, remaining)] can round to less than the
    quantity. *)
Theorem tryMatch_price_time_priority (now : Time) (st : State) (o : ptr)
    (i j : nat) (r p : ptr) :
  o ∉ all_orders (opposite st o) ->
  NoDup (all_orders (opposite st o)) ->
  (forall q, q ∈ all_orders (opposite st o) ->
     (q < length (heap st))%nat /\ numeric (heap st) q) ->
  (i < j)%nat ->
  all_orders (opposite st o) !! i = Some r ->
  all_orders (opposite st o) !! j = Some p ->
  deref (heap (fst (tryMatch now st o))) p <> deref (heap st) p ->
  offered now (heap (fst (tryMatch now st o))) r.
Proof.
  intros Hnot Hnd Hval Hij Hi Hj.
  unfold tryMatch. unfold opposite in Hnot, Hnd, Hval, Hi, Hj.
  destruct (order64.Side_ (deref (heap st) o)) eqn:Eside; [ | | done ].
  - pose proof (tryMatchLevels64_priority now o true (sellLevels (book st)) (heap st)
                  (orders (book st)) Hnot Hnd Hval i j r p Hij Hi Hj) as H.
    by destruct (tryMatchLevels now o true (sellLevels (book st)) (heap st)
                   (orders (book st))) as [[h' idx'] e].
  - pose proof (tryMatchLevels64_priority now o false (buyLevels (book st)) (heap st)
                  (orders (book st)) Hnot Hnd Hval i j r p Hij Hi Hj) as H.
    by destruct (tryMatchLevels now o false (buyLevels (book st)) (heap st)
                   (orders (book st))) as [[h' idx'] e].
Qed.

Lemma tryMatch_price_time_priority_witness :
  reachable (after queue_of_two) /\
  all_orders (opposite (after queue_of_two) 3%nat) = [0%nat; 2%nat] /\
  deref (heap (fst (tryMatch 8%Z (after queue_of_two) 3%nat))) 2%nat
    <> deref (heap (after queue_of_two)) 2%nat /\
  offered 8%Z (heap (fst (tryMatch 8%Z (after queue_of_two) 3%nat))) 0%nat /\
  order64.Status_ (deref (heap (fst (tryMatch 8%Z (after queue_of_two) 3%nat))) 0%nat)
    = order.StatusPartial /\
  order64.Filled (deref (heap (fst (tryMatch 8%Z (after queue_of_two) 3%nat))) 0%nat)
    = 0.8999999999999999.
Proof.
  assert (Hr : reachable (after queue_of_two))
    by (apply after64_reachable; vm_compute; reflexivity).
  assert (Ha : all_orders (opposite (after queue_of_two) 3%nat) = [0%nat; 2%nat])
    by (vm_compute; reflexivity).
  assert (Hnot : 3%nat ∉ all_orders (opposite (after queue_of_two) 3%nat)).
  { rewrite Ha. intros [H | [H | H]%elem_of_cons]%elem_of_cons;
      [ discriminate H | discriminate H | by apply elem_of_nil in H ]. }
  assert (Hnd : NoDup (all_orders (opposite (after queue_of_two) 3%nat))).
  { rewrite Ha. apply NoDup_cons. split; [ | apply NoDup_singleton ].
    intros H%list_elem_of_singleton. discriminate H. }
  assert (Hval : forall q, q ∈ all_orders (opposite (after queue_of_two) 3%nat) ->
            (q < length (heap (after queue_of_two)))%nat /\
            numeric (heap (after queue_of_two)) q).
  { rewrite Ha. intros q [-> | [-> | H]%elem_of_cons]%elem_of_cons;
      [ | | by apply elem_of_nil in H ];
      (split; [ vm_compute; lia | vm_compute; reflexivity ]). }
  assert (Hi : all_orders (opposite (after queue_of_two) 3%nat) !! 0%nat = Some 0%nat)
    by (rewrite Ha; reflexivity).
  assert (Hj : all_orders (opposite (after queue_of_two) 3%nat) !! 1%nat = Some 2%nat)
    by (rewrite Ha; reflexivity).
  assert (Hch : deref (heap (fst (tryMatch 8%Z (after queue_of_two) 3%nat))) 2%nat
                <> deref (heap (after queue_of_two)) 2%nat).
  { intros H. apply (f_equal order64.Status_) in H. vm_compute in H. discriminate H. }
  split; [ exact Hr | ]. split; [ exact Ha | ]. split; [ exact Hch | ].
  split; [ | split; vm_compute; reflexivity ].
  exact (tryMatch_price_time_priority 8%Z _ 3%nat 0%nat 1%nat 0%nat 2%nat
           Hnot Hnd Hval ltac:(lia) Hi Hj Hch).
Defined.

(** *** [NewOrder] *)

Lemma nan_ltb x : (nan <? x) = false.
Proof.
  rewrite FloatAxioms.ltb_spec.
  change (FloatOps.Prim2SF nan) with SpecFloat.S754_nan. reflexivity.
Qed.

Lemma eqb_nan x : (x =? nan) = false.
Proof.
  rewrite FloatAxioms.eqb_spec.
  change (FloatOps.Prim2SF nan) with SpecFloat.S754_nan.
  by destruct (FloatOps.Prim2SF x) as [[|]|[|]| |[|] m e].
Qed.

(** X19.  What [NewOrder] returns, on [float64].  It fails exactly when
    [price <= 0] or [quantity <= 0] holds as a comparison of [float64],
    the price being checked first; otherwise the order carries what it
    was given, with nothing filled, [StatusNew] and both time stamps the
    time of the call.  Both comparisons are false on NaN, so NaN is let
    through as a price and as a quantity, and so is +Inf.  An order whose
    quantity is NaN is never filled and never refuses a fill as too
    large: whatever has been filled, every [Fill] of a quantity that is
    not [<= 0] succeeds on it and leaves it [StatusPartial]. *)
Theorem NewOrder_lets_NaN_through (id : string) (now : Time) (side : order.Side)
    (sym : string) (price quantity : float) :
  (order64.NewOrder id now side sym price quantity = inl ErrPriceNotPositive <->
   (price <=? 0) = true) /\
  (order64.NewOrder id now side sym price quantity = inl ErrQuantityNotPositive <->
   (price <=? 0) = false /\ (quantity <=? 0) = true) /\
  (order64.NewOrder id now side sym price quantity
   = inr (order64.mkOrder id side sym price quantity 0 order.StatusNew now now) <->
   (price <=? 0) = false /\ (quantity <=? 0) = false) /\
  order64.NewOrder id now side sym nan nan
  = inr (order64.mkOrder id side sym nan nan 0 order.StatusNew now now) /\
  order64.NewOrder id now side sym infinity infinity
  = inr (order64.mkOrder id side sym infinity infinity 0 order.StatusNew now now) /\
  (forall (filled q : float) (status : order.Status) (created updated t : Time),
     status <> order.StatusCancelled -> (q <=? 0) = false ->
     order64.Fill (order64.mkOrder id side sym price nan filled status created updated)
                  q t
     = (order64.mkOrder id side sym price nan (filled + q) order.StatusPartial
                        created t, None)).
Proof.
  split_and!.
  - unfold order64.NewOrder. destruct (price <=? 0); [ done | ].
    by destruct (quantity <=? 0).
  - unfold order64.NewOrder. destruct (price <=? 0).
    { split; [ done | by intros [? _] ]. }
    destruct (quantity <=? 0); [ done | ]. split; [ done | by intros [_ ?] ].
  - unfold order64.NewOrder. destruct (price <=? 0).
    { split; [ done | by intros [? _] ]. }
    destruct (quantity <=? 0); [ | done ]. split; [ done | by intros [_ ?] ].
  - reflexivity.
  - reflexivity.
  - intros filled q status created updated t Hs Hq.
    unfold order64.Fill. rewrite Hq. rewrite decide_False by done.
    cbn. by rewrite nan_ltb, eqb_nan.
Qed.

End Float64Props.
